(** * Decentralised mesh core: ChunkStore, Scheduler, Consensus, Routing,
    ModelShardManager

    Shallow embedding of the C++ sources under [Decentralised_mesh/src]
    and [Decentralised_mesh/include], the properties of their
    specification (C1 to C10) and further properties of the code (X1 to
    X27).

    Conventions of the embedding.
    - [std::vector<uint8_t>] is [list byte]; [std::string] is [string];
      [size_t] and [uint64_t] are [Z] with the wrap-around at [2^64]
      written out; [std::unordered_map] is stdpp's [gmap].
    - Exceptions are values of an error type. A loop that the source
      does not bound runs on fuel, and running out of fuel is a result
      of its own; the theorems show that it does not happen.
    - OpenSSL, zstd and RocksDB are not code of this repository: their
      entry points are variables of a section, and the laws a theorem
      relies on are hypotheses of that theorem. A call that can only
      fail for want of resources (drawing random bytes, deriving a key,
      compressing, encrypting, writing to the table) is taken to
      succeed; the failures that depend on the data (a rejected tag, a
      frame that does not decompress, a missing key) are modelled.
    - The clock is an argument of the operations that read it.
    - The first part of the file is the code; the second part holds the
      lemmas and theorems. *)

From Stdlib Require Import ZArith QArith Lia Lqa List Strings.Byte Ascii String.
From Stdlib Require Import Floats.SpecFloat.
From stdpp Require Import base option list gmap strings sorting pretty.

Local Open Scope Z_scope.

(** ** Machine integers *)

Definition wrap64 (z : Z) : Z := z mod 2 ^ 64.
Definition wrap32 (z : Z) : Z := z mod 2 ^ 32.

(** Little-endian image of an unsigned integer on [width] bytes, as
    [serialized.insert(end, (uint8_t* )&x, (uint8_t* )&x + sizeof x)]
    lays it out on the little-endian targets the store runs on. *)
Fixpoint le_bytes (width : nat) (z : Z) : list byte :=
  match width with
  | O => []
  | S w =>
      match Byte.of_N (Z.to_N (z mod 256)) with
      | Some b => b :: le_bytes w (z / 256)
      | None => []
      end
  end.

Fixpoint le_value (bs : list byte) : Z :=
  match bs with
  | [] => 0
  | b :: bs' => Z.of_N (Byte.to_N b) + 256 * le_value bs'
  end.

(** ** Hexadecimal printing

    [ss << std::hex << std::setw(2) << std::setfill('0') << (int)hash[i]]:
    two lower-case digits per byte. *)

Definition hex_digit (n : N) : ascii :=
  if (n <? 10)%N then ascii_of_N (48 + n) else ascii_of_N (87 + n).

Definition hex_hi (b : byte) : ascii := hex_digit (Byte.to_N b / 16).
Definition hex_lo (b : byte) : ascii := hex_digit (Byte.to_N b mod 16).

Fixpoint hex (bs : list byte) : string :=
  match bs with
  | [] => EmptyString
  | b :: bs' => String (hex_hi b) (String (hex_lo b) (hex bs'))
  end.

(** Reading the digits back, to show that [hex] loses nothing. *)
Definition unhex_digit (a : ascii) : option N :=
  let n := N_of_ascii a in
  if ((48 <=? n) && (n <=? 57))%N then Some (n - 48)%N
  else if ((97 <=? n) && (n <=? 102))%N then Some (n - 87)%N
  else None.

Fixpoint unhex (s : string) : option (list byte) :=
  match s with
  | EmptyString => Some []
  | String a (String b s') =>
      match unhex_digit a, unhex_digit b, unhex s' with
      | Some h, Some l, Some bs =>
          match Byte.of_N (16 * h + l) with
          | Some x => Some (x :: bs)
          | None => None
          end
      | _, _, _ => None
      end
  | String _ EmptyString => None
  end.

(** ** ChunkStore (ChunkStore.hpp, ChunkStore.cpp) *)

Module ChunkStore.

Record Chunk := mkChunk {
  hash : string;
  data : list byte;
  iv : list byte;
  tag : list byte;
  original_size : Z;
  index : Z;
  is_encrypted : bool
}.

(** [Chunk() : original_size(0), index(0), is_encrypted(false) {}] *)
Definition default_chunk : Chunk := mkChunk "" [] [] [] 0 0 false.

(** The members of [class ChunkStore]; [db_] is the RocksDB handle, seen
    as the key/value table it holds. *)
Record Store := mkStore {
  chunk_size_ : Z;
  chunks_ : gmap string Chunk;
  content_map_ : gmap string (list string);
  db_ : gmap string string
}.

(** [ChunkStore::ChunkStore]: a store over the table found at [db_path]. *)
Definition open (chunk_size : Z) (db : gmap string string) : Store :=
  mkStore chunk_size ∅ ∅ db.

(** The process-wide CSPRNG behind [RAND_bytes]: an arbitrary sequence of
    bytes and the position of the next one to hand out. *)
Record Rng := mkRng { rng_bytes : nat → byte; rng_pos : nat }.

Definition generate_random (length : nat) (r : Rng) : list byte * Rng :=
  (map (rng_bytes r) (seq (rng_pos r) length),
   mkRng (rng_bytes r) (rng_pos r + length)).

(** The [std::runtime_error]s that [retrieve] throws. *)
Inductive Error :=
| ContentNotFound (content_id : string)
| ChunkNotFound (hash : string)
| AuthenticationFailed
| DecompressionFailed.

Inductive result (A : Type) :=
| Ok (a : A)
| Err (e : Error).
Arguments Ok {A} a.
Arguments Err {A} e.

(** [std::getline(ss, hash, ';')] in a loop: the tokens between
    semicolons; at the end of the stream a last token is read only when
    it has characters. *)
Fixpoint getline_tokens (s : string) (cur : string) : list string :=
  match s with
  | EmptyString => if decide (cur = EmptyString) then [] else [cur]
  | String c s' =>
      if Ascii.eqb c ";"%char then cur :: getline_tokens s' EmptyString
      else getline_tokens s' (cur ++ String c EmptyString)%string
  end.

Definition parse_mapping (mapping_value : string) : list string :=
  filter (λ h, h ≠ EmptyString) (getline_tokens mapping_value EmptyString).

(** [mapping_value += hash + ";"] for each hash. *)
Definition join_mapping (chunk_hashes : list string) : string :=
  foldl (λ acc h, acc ++ (h ++ ";"))%string EmptyString chunk_hashes.

Definition take_bytes (n : nat) (bs : list byte) : option (list byte * list byte) :=
  if decide (n ≤ length bs)%nat then Some (take n bs, drop n bs) else None.

Section Primitives.

(** zstd: [ZSTD_compress] at level 3, and [ZSTD_decompress] of a frame
    into a buffer of the given capacity ([None] when [ZSTD_isError]). *)
Variable ZSTD_compress : list byte → list byte.
Variable ZSTD_decompress : list byte → Z → option (list byte).

(** OpenSSL: PBKDF2-HMAC-SHA256 (password, salt; 100000 iterations, 32
    bytes out), AES-256-GCM (key, iv, plaintext to ciphertext and tag;
    key, iv, tag, ciphertext to plaintext, [None] when
    [EVP_DecryptFinal_ex] rejects the tag), SHA-256. *)
Variable PBKDF2_HMAC_SHA256 : string → list byte → list byte.
Variable AES_256_GCM_seal : list byte → list byte → list byte → list byte * list byte.
Variable AES_256_GCM_open : list byte → list byte → list byte → list byte → option (list byte).
Variable SHA256 : list byte → list byte.

Definition compress (data : list byte) : list byte := ZSTD_compress data.

(** The buffer [decompressed(original_size)] starts zeroed, zstd writes
    the frame's content at its start, and the whole buffer is returned. *)
Definition decompress (data : list byte) (original_size : Z) : result (list byte) :=
  match ZSTD_decompress data original_size with
  | None => Err DecompressionFailed
  | Some content =>
      Ok (content ++ replicate (Z.to_nat original_size - length content) "000"%byte)
  end.

Definition derive_key (content_id : string) (salt : list byte) : list byte :=
  PBKDF2_HMAC_SHA256 content_id salt.

(** Returns ciphertext, iv and tag; the iv is drawn here. *)
Definition aes_gcm_encrypt (plaintext key : list byte) (rng : Rng)
  : list byte * list byte * list byte * Rng :=
  let '(iv, rng) := generate_random 12 rng in
  let '(ciphertext, tag) := AES_256_GCM_seal key iv plaintext in
  (ciphertext, iv, tag, rng).

Definition aes_gcm_decrypt (ciphertext key iv tag : list byte) : result (list byte) :=
  match AES_256_GCM_open key iv tag ciphertext with
  | Some plaintext => Ok plaintext
  | None => Err AuthenticationFailed
  end.

Definition compute_hash (data : list byte) : string := hex (SHA256 data).

(** [persist_chunk]: the packed record
    original_size(8) index(8) is_encrypted(1) iv_len(4) iv tag_len(4) tag
    data_len(4) data, put under ["chunk:" + hash]. *)
Definition serialize_chunk (chunk : Chunk) : list byte :=
  le_bytes 8 (original_size chunk) ++
  le_bytes 8 (index chunk) ++
  [if is_encrypted chunk then "001"%byte else "000"%byte] ++
  le_bytes 4 (wrap32 (Z.of_nat (length (iv chunk)))) ++ iv chunk ++
  le_bytes 4 (wrap32 (Z.of_nat (length (tag chunk)))) ++ tag chunk ++
  le_bytes 4 (wrap32 (Z.of_nat (length (data chunk)))) ++ data chunk.

Definition persist_chunk (hash : string) (chunk : Chunk) (st : Store) : Store :=
  mkStore (chunk_size_ st) (chunks_ st) (content_map_ st)
    (<[("chunk:" ++ hash)%string := string_of_list_byte (serialize_chunk chunk)]> (db_ st)).

(** [load_chunk] reads the record back field by field. The source does
    not check the value's length; a value too short for its own length
    fields makes it read past the buffer, which is given no meaning here
    ([None], as for a missing key). *)
Definition deserialize_chunk (hash : string) (value : list byte) : option Chunk :=
  '(sz, r) ← take_bytes 8 value;
  '(ix, r) ← take_bytes 8 r;
  '(fl, r) ← take_bytes 1 r;
  '(ivl, r) ← take_bytes 4 r;
  '(iv, r) ← take_bytes (Z.to_nat (le_value ivl)) r;
  '(tgl, r) ← take_bytes 4 r;
  '(tag, r) ← take_bytes (Z.to_nat (le_value tgl)) r;
  '(dl, r) ← take_bytes 4 r;
  '(data, r) ← take_bytes (Z.to_nat (le_value dl)) r;
  Some (mkChunk hash data iv tag (le_value sz) (le_value ix)
          (negb (le_value fl =? 0))).

Definition load_chunk (hash : string) (st : Store) : option Chunk :=
  value ← db_ st !! ("chunk:" ++ hash)%string;
  deserialize_chunk hash (list_byte_of_string value).

Definition get_chunk (hash : string) (st : Store) : option Chunk :=
  chunks_ st !! hash.

Definition store_chunk (hash : string) (chunk : Chunk) (st : Store) : Store :=
  persist_chunk hash chunk
    (mkStore (chunk_size_ st) (<[hash := chunk]> (chunks_ st)) (content_map_ st) (db_ st)).

(** The body of the loop of [store] at one [offset]. *)
Definition store_step (data key : list byte) (encrypt : bool) (offset : Z)
    (st : Store) (rng : Rng) (chunk_hashes : list string)
  : Store * Rng * list string :=
  let chunk_len := Z.min (chunk_size_ st) (Z.of_nat (length data) - offset) in
  let chunk_data := take (Z.to_nat chunk_len) (drop (Z.to_nat offset) data) in
  let compressed := compress chunk_data in
  let '(cdata, civ, ctag, rng) :=
    if encrypt then aes_gcm_encrypt compressed key rng
    else (compressed, [], [], rng) in
  let chunk :=
    mkChunk (compute_hash cdata) cdata civ ctag chunk_len
      (offset / chunk_size_ st) encrypt in
  let st :=
    mkStore (chunk_size_ st) (<[hash chunk := chunk]> (chunks_ st)) (content_map_ st)
      (db_ st) in
  let st := persist_chunk (hash chunk) chunk st in
  (st, rng, chunk_hashes ++ [hash chunk]).

(** [for (offset = 0; offset < data.size(); offset += chunk_size_)].
    With [chunk_size_ = 0] the source divides by zero in its first
    iteration; the fuel then runs out and the result is [None]. *)
Fixpoint store_loop (data key : list byte) (encrypt : bool) (fuel : nat)
    (offset : Z) (st : Store) (rng : Rng) (chunk_hashes : list string)
  : option (Store * Rng * list string) :=
  if offset <? Z.of_nat (length data) then
    match fuel with
    | O => None
    | S fuel' =>
        let '(st, rng, chunk_hashes) :=
          store_step data key encrypt offset st rng chunk_hashes in
        store_loop data key encrypt fuel' (wrap64 (offset + chunk_size_ st))
          st rng chunk_hashes
    end
  else Some (st, rng, chunk_hashes).

Definition store (data : list byte) (content_id : string) (encrypt : bool)
    (st : Store) (rng : Rng) : option (list string * Store * Rng) :=
  let '(salt, rng) := generate_random 32 rng in
  let key := derive_key content_id salt in
  match store_loop data key encrypt (length data) 0 st rng [] with
  | None => None
  | Some (st, rng, chunk_hashes) =>
      let mapping_key := ("content_map:" ++ content_id)%string in
      let mapping_value := join_mapping chunk_hashes in
      Some (chunk_hashes,
            mkStore (chunk_size_ st) (chunks_ st)
              (<[content_id := chunk_hashes]> (content_map_ st))
              (<[mapping_key := mapping_value]> (db_ st)),
            rng)
  end.

(** The first part of [retrieve]: the hash list from memory, else from
    the table (and then cached). *)
Definition resolve_mapping (content_id : string) (st : Store)
  : option (Store * list string) :=
  match content_map_ st !! content_id with
  | Some chunk_hashes => Some (st, chunk_hashes)
  | None =>
      match db_ st !! ("content_map:" ++ content_id)%string with
      | None => None
      | Some mapping_value =>
          let chunk_hashes := parse_mapping mapping_value in
          Some (mkStore (chunk_size_ st) (chunks_ st)
                  (<[content_id := chunk_hashes]> (content_map_ st)) (db_ st),
                chunk_hashes)
      end
  end.

(** [for (const auto& hash : it->second)]; the store is returned as the
    loop leaves it, also when it throws. *)
Fixpoint retrieve_loop (key : list byte) (chunk_hashes : list string)
    (st : Store) (acc : list byte) : Store * result (list byte) :=
  match chunk_hashes with
  | [] => (st, Ok acc)
  | hash :: rest =>
      let found :=
        match get_chunk hash st with
        | Some chunk => Some (st, chunk)
        | None =>
            match load_chunk hash st with
            | Some disk_chunk =>
                Some (mkStore (chunk_size_ st) (<[hash := disk_chunk]> (chunks_ st))
                        (content_map_ st) (db_ st), disk_chunk)
            | None => None
            end
        end in
      match found with
      | None => (st, Err (ChunkNotFound hash))
      | Some (st, chunk) =>
          let decrypted :=
            if is_encrypted chunk
            then aes_gcm_decrypt (data chunk) key (iv chunk) (tag chunk)
            else Ok (data chunk) in
          match decrypted with
          | Err e => (st, Err e)
          | Ok chunk_data =>
              match decompress chunk_data (original_size chunk) with
              | Err e => (st, Err e)
              | Ok decompressed => retrieve_loop key rest st (acc ++ decompressed)
              end
          end
      end
  end.

Definition retrieve (content_id : string) (st : Store) (rng : Rng)
  : result (list byte) * Store * Rng :=
  match resolve_mapping content_id st with
  | None => (Err (ContentNotFound content_id), st, rng)
  | Some (st, chunk_hashes) =>
      let '(salt, rng) := generate_random 32 rng in
      let key := derive_key content_id salt in
      let '(st, res) := retrieve_loop key chunk_hashes st [] in
      (res, st, rng)
  end.

Definition get_content_address (content_id : string) (st : Store) : string :=
  match content_map_ st !! content_id with
  | None => EmptyString
  | Some chunk_hashes =>
      compute_hash
        (list_byte_of_string (foldl (λ acc h, acc ++ h)%string EmptyString chunk_hashes))
  end.

Definition list_chunks (content_id : string) (st : Store) : list string :=
  default [] (content_map_ st !! content_id).

(** *** Terms of the properties *)

(** The laws of the libraries that the round trips rest on: zstd gives
    back what it compressed when the buffer is large enough, SHA-256 is
    taken to be free of collisions, and AES-GCM rejects a ciphertext
    under a key other than the one that sealed it. *)
Definition zstd_round_trip : Prop :=
  ∀ (d : list byte) (capacity : Z),
    Z.of_nat (length d) ≤ capacity →
    ZSTD_decompress (ZSTD_compress d) capacity = Some d.

Definition sha256_collision_free : Prop :=
  ∀ a b : list byte, SHA256 a = SHA256 b → a = b.

Definition gcm_rejects_other_keys : Prop :=
  ∀ (key key' iv plaintext : list byte),
    key ≠ key' →
    AES_256_GCM_open key' iv (AES_256_GCM_seal key iv plaintext).2
      (AES_256_GCM_seal key iv plaintext).1 = None.

(** The plaintext of the chunk of ordinal [j]. *)
Definition slice (k : Z) (payload : list byte) (j : nat) : list byte :=
  take (Z.to_nat (Z.min k (Z.of_nat (length payload) - Z.of_nat j * k)))
    (drop (Z.to_nat (Z.of_nat j * k)) payload).

(** [c] is a chunk that the loop of [store] builds in its iteration [j]. *)
Record made (payload key : list byte) (encrypt : bool) (k : Z) (j : nat) (c : Chunk)
  : Prop := mkMade {
  made_index : index c = Z.of_nat j;
  made_size : original_size c = Z.min k (Z.of_nat (length payload) - Z.of_nat j * k);
  made_flag : is_encrypted c = encrypt;
  made_hash : hash c = compute_hash (data c);
  made_data :
    if encrypt
    then AES_256_GCM_seal key (iv c) (ZSTD_compress (slice k payload j)) = (data c, tag c)
    else data c = ZSTD_compress (slice k payload j)
}.

(** What holds of the store and of the hashes pushed so far after [m]
    iterations: every hash was computed from a chunk of its own
    iteration, and the table maps it to a chunk of some iteration that
    pushed the same hash. *)
Definition loop_inv (payload key : list byte) (encrypt : bool) (k : Z)
    (m : nat) (st : Store) (acc : list string) : Prop :=
  length acc = m ∧ chunk_size_ st = k ∧
  ∀ (i : nat) (h : string), acc !! i = Some h →
    (∃ ci, made payload key encrypt k i ci ∧ hash ci = h) ∧
    (∃ c j, chunks_ st !! h = Some c ∧ hash c = h ∧ acc !! j = Some h ∧
            made payload key encrypt k j c).

(** The number of chunks of a payload of [len] bytes. *)
Definition chunk_count (k len : Z) : Z := (len + k - 1) / k.

(** The record of [persist_chunk] has 32-bit length fields: the
    compressed image of a chunk of at most [k] bytes is taken to fit. *)
Definition compressed_fits (k : Z) : Prop :=
  ∀ d : list byte,
    Z.of_nat (length d) ≤ k → Z.of_nat (length (ZSTD_compress d)) < 2 ^ 32.

(** A digest has bytes. *)
Definition digest_not_empty : Prop := ∀ d : list byte, SHA256 d ≠ [].

(** [look h st] finds under the hash [h] the plain chunk of ordinal [i]
    of [payload] cut in chunks of [k] bytes; [look] is [get_chunk]
    (memory), [load_chunk] (the table) or [fetch] (memory, else the
    table, as [retrieve] looks a chunk up). *)
Definition plain_entry (look : string → Store → option Chunk) (st : Store) (k : Z)
    (payload : list byte) (i : nat) (h : string) : Prop :=
  ∃ c, look h st = Some c ∧ is_encrypted c = false ∧ h = compute_hash (data c) ∧
       data c = ZSTD_compress (slice k payload i) ∧
       original_size c = Z.of_nat (length (slice k payload i)).

(** [hashes] lists, in order, the plain chunks of [payload]. *)
Definition plain_content (look : string → Store → option Chunk) (st : Store) (k : Z)
    (payload : list byte) (hashes : list string) : Prop :=
  Z.of_nat (length hashes) = chunk_count k (Z.of_nat (length payload)) ∧
  ∀ i h, hashes !! i = Some h → plain_entry look st k payload i h.

(** [fit] holds of the plain chunks that [store] makes with chunks of
    [k] bytes. *)
Definition plain_chunks_fit (fit : Chunk → Prop) (k : Z) : Prop :=
  ∀ c, iv c = [] → tag c = [] →
    0 ≤ original_size c ≤ k → 0 ≤ index c < 2 ^ 63 →
    (∃ d : list byte, Z.of_nat (length d) ≤ k ∧ data c = ZSTD_compress d) →
    fit c.

(** AES-GCM opens what it sealed, under the same key and iv. *)
Definition gcm_round_trip : Prop :=
  ∀ key iv plaintext : list byte,
    AES_256_GCM_open key iv (AES_256_GCM_seal key iv plaintext).2
      (AES_256_GCM_seal key iv plaintext).1 = Some plaintext.

End Primitives.

(** *** More terms of the properties *)

(** [c] under the hash it is filed under, as [load_chunk] reads it back. *)
Definition filed (hash : string) (c : Chunk) : Chunk :=
  mkChunk hash (data c) (iv c) (tag c) (original_size c) (index c) (is_encrypted c).

(** The fields of [c] fit the widths of the record of [persist_chunk]. *)
Definition fits_record (c : Chunk) : Prop :=
  0 ≤ original_size c < 2 ^ 64 ∧ 0 ≤ index c < 2 ^ 64 ∧
  Z.of_nat (length (iv c)) < 2 ^ 32 ∧
  Z.of_nat (length (tag c)) < 2 ^ 32 ∧
  Z.of_nat (length (data c)) < 2 ^ 32.

(** The chunk that the loop of [retrieve] works on for the hash [h]: the
    one in memory, else the one in the table. *)
Definition fetch (h : string) (st : Store) : option Chunk :=
  match get_chunk h st with
  | Some c => Some c
  | None => load_chunk h st
  end.

(** The store after [chunks_[hash] = chunk] in [retrieve]. *)
Definition cache (h : string) (c : Chunk) (st : Store) : Store :=
  mkStore (chunk_size_ st) (<[h := c]> (chunks_ st)) (content_map_ st) (db_ st).

Fixpoint has_semicolon (s : string) : bool :=
  match s with
  | EmptyString => false
  | String c s' => Ascii.eqb c ";"%char || has_semicolon s'
  end.

(** [combined += hash] for each hash, in [get_content_address]. *)
Definition combined (chunk_hashes : list string) : string :=
  foldl (λ acc h, acc ++ h)%string EmptyString chunk_hashes.

(** [look] follows the two writes of [store]: after a chunk that [fit]
    holds of is put in memory and in the table under its hash, [look]
    finds it there and finds what it found before under the other
    hashes; and [look] does not depend on the hash lists of the
    contents. *)
Definition tracks (fit : Chunk → Prop) (look : string → Store → option Chunk) : Prop :=
  (∀ h0 c0 st h,
     fit c0 → hash c0 = h0 →
     look h (store_chunk h0 c0 st) = if decide (h = h0) then Some c0 else look h st) ∧
  (∀ h st content_map' mapping_key mapping_value,
     look h (mkStore (chunk_size_ st) (chunks_ st) content_map'
               (<[("content_map:" ++ mapping_key)%string := mapping_value]> (db_ st))) =
     look h st).

End ChunkStore.

(** ** Stand-ins for the libraries

    Functions with the laws, not the strength, of zstd, PBKDF2, AES-GCM
    and SHA-256: they serve to run the model on concrete inputs and to
    show that the laws the theorems assume can be met together. *)

Module Standin.

Definition zstd_compress (d : list byte) : list byte := d.

Definition zstd_decompress (d : list byte) (capacity : Z) : option (list byte) :=
  if decide (Z.of_nat (length d) ≤ capacity) then Some d else None.

Definition pbkdf2 (password : string) (salt : list byte) : list byte := salt.

Definition gcm_seal (key iv plaintext : list byte) : list byte * list byte :=
  (plaintext, key).

Definition gcm_open (key iv tag ciphertext : list byte) : option (list byte) :=
  if decide (map Byte.to_N tag = map Byte.to_N key) then Some ciphertext else None.

Definition sha256 (d : list byte) : list byte := d.

(** A generator that hands out the byte [b] for ever. *)
Definition constant_rng (b : byte) : ChunkStore.Rng := ChunkStore.mkRng (λ _, b) 0.

(** Five bytes, to store in chunks of two. *)
Definition five_bytes : list byte := ["001"; "002"; "003"; "004"; "005"]%byte.

(** A digest that is never empty and has no collisions. *)
Definition sha256_tagged (d : list byte) : list byte := "000"%byte :: d.

(** A chunk of two bytes, and a store that lists for "doc" a hash under
    which it holds nothing. *)
Definition two_byte_chunk : ChunkStore.Chunk :=
  ChunkStore.mkChunk "ab" ["001"; "002"]%byte [] [] 2 0 false.

Definition dangling_store : ChunkStore.Store :=
  ChunkStore.mkStore 2 ∅ {["doc" := ["ab"]]} ∅.

End Standin.

(** ** The arithmetic of [float]

    The scheduler and the router compute on C++ [float]s. Their code is
    embedded over an interface of the operations it uses, with two
    instances: IEEE-754 binary32 with round-to-nearest-even, bit for bit
    ([binary32], for evaluating the code on concrete inputs), and exact
    rational arithmetic with a point at infinity ([exact]). *)

Module Float.

Class Ops := mkOps {
  t : Type;
  of_Z : Z → t;
  add : t → t → t;
  sub : t → t → t;
  mul : t → t → t;
  div : t → t → t;
  ltb : t → t → bool;
  infinity : t
}.

Section Derived.
Context {F : Ops}.

Definition zero : t := of_Z 0.
Definition one : t := of_Z 1.

(** A decimal literal [n/10^k], rounded once: [0.4f] is [decimal 4 1]. *)
Definition decimal (n : Z) (k : nat) : t := div (of_Z n) (of_Z (10 ^ Z.of_nat k)).

(** [a <= b] on values that compare: [b < a] does not hold. *)
Definition leb (a b : t) : bool := negb (ltb b a).

(** [std::min(a, b)] is [(b < a) ? b : a]. *)
Definition min (a b : t) : t := if ltb b a then b else a.

End Derived.

Definition binary32 : Ops := {|
  t := spec_float;
  of_Z := λ z, binary_normalize 24 128 z 0 false;
  add := SFadd 24 128;
  sub := SFsub 24 128;
  mul := SFmul 24 128;
  div := SFdiv 24 128;
  ltb := SFltb;
  infinity := S754_infinity false
|}.

(** Exact arithmetic: a rational or [+infinity]; infinity absorbs. *)
Inductive ext := Fin (q : Q) | Inf.

Definition ext_lift (f : Q → Q → Q) (a b : ext) : ext :=
  match a, b with
  | Fin x, Fin y => Fin (f x y)
  | _, _ => Inf
  end.

Definition ext_ltb (a b : ext) : bool :=
  match a, b with
  | Fin x, Fin y => negb (Qle_bool y x)
  | Fin _, Inf => true
  | Inf, _ => false
  end.

Definition exact : Ops := {|
  t := ext;
  of_Z := λ z, Fin (inject_Z z);
  add := ext_lift Qplus;
  sub := ext_lift Qminus;
  mul := ext_lift Qmult;
  div := ext_lift Qdiv;
  ltb := ext_ltb;
  infinity := Inf
|}.

End Float.

(** ** Telemetry (Telemetry.hpp) *)

Module Telemetry.
Section WithFloat.
Context {F : Float.Ops}.

Record Telemetry := mkTelemetry {
  device_id : string;
  battery_percent : Float.t;
  cpu_load_percent : Float.t;
  ram_usage_percent : Float.t;
  idle_percent : Float.t;
  link_quality : Float.t;
  available_storage_mb : Z;
  is_plugged_in : bool;
  timestamp : Z
}.

(** [Telemetry()], built at clock reading [now]. *)
Definition default (now : Z) : Telemetry :=
  mkTelemetry "" (Float.of_Z 100) (Float.of_Z 0) (Float.of_Z 0) (Float.of_Z 100)
    (Float.of_Z 1) 1024 false now.

Definition compute_score (tm : Telemetry) : Float.t :=
  let base_score := Float.zero in
  let base_score :=
    if is_plugged_in tm then Float.add base_score (Float.of_Z 20)
    else Float.add base_score
           (Float.mul (Float.div (battery_percent tm) (Float.of_Z 100)) (Float.of_Z 20)) in
  let base_score :=
    Float.add base_score
      (Float.mul (Float.div (Float.sub (Float.of_Z 100) (cpu_load_percent tm)) (Float.of_Z 100))
         (Float.of_Z 30)) in
  let base_score :=
    Float.add base_score
      (Float.mul (Float.div (Float.sub (Float.of_Z 100) (ram_usage_percent tm)) (Float.of_Z 100))
         (Float.of_Z 20)) in
  let base_score :=
    Float.add base_score
      (Float.mul (Float.div (idle_percent tm) (Float.of_Z 100)) (Float.of_Z 20)) in
  let base_score :=
    Float.add base_score (Float.mul (link_quality tm) (Float.of_Z 10)) in
  base_score.

End WithFloat.
(** *** Terms of the properties *)

(** [x] is a number between [lo] and [hi], in exact arithmetic. *)
Definition between (lo hi : Z) (x : Float.ext) : Prop :=
  match x with
  | Float.Fin q => (inject_Z lo <= q <= inject_Z hi)%Q
  | Float.Inf => False
  end.

(** The ranges that Telemetry.hpp documents for the fields: percentages
    between 0 and 100, and a link quality between 0 and 1. *)
Definition documented (tm : @Telemetry Float.exact) : Prop :=
  between 0 100 (battery_percent tm) ∧
  between 0 100 (cpu_load_percent tm) ∧
  between 0 100 (ram_usage_percent tm) ∧
  between 0 100 (idle_percent tm) ∧
  between 0 1 (link_quality tm).

End Telemetry.

(** ** Scheduler (Scheduler.hpp, Scheduler.cpp) *)

Module Scheduler.
Import Telemetry.

Section WithFloat.
Context {F : Float.Ops}.

Record Placement := mkPlacement {
  chunk_hash : string;
  device_ids : list string;
  score : Float.t
}.

Record Scheduler := mkScheduler {
  replication_factor_ : Z;
  devices_ : gmap string Telemetry
}.

Definition new (replication_factor : Z) : Scheduler :=
  mkScheduler replication_factor ∅.

Definition register_device (device_id : string) (tm : Telemetry) (s : Scheduler) : Scheduler :=
  mkScheduler (replication_factor_ s) (<[device_id := tm]> (devices_ s)).

Definition update_telemetry (device_id : string) (tm : Telemetry) (s : Scheduler) : Scheduler :=
  mkScheduler (replication_factor_ s) (<[device_id := tm]> (devices_ s)).

Definition remove_device (device_id : string) (s : Scheduler) : Scheduler :=
  mkScheduler (replication_factor_ s) (delete device_id (devices_ s)).

(** [None]: the source throws "Device not found". *)
Definition get_telemetry (device_id : string) (s : Scheduler) : option Telemetry :=
  devices_ s !! device_id.

Definition score_device_for_storage (tm : Telemetry) (data_size_bytes : Z) : Float.t :=
  let score := Float.zero in
  let required_mb := data_size_bytes / (1024 * 1024) in
  if available_storage_mb tm <? required_mb then Float.zero
  else
    let score :=
      Float.add score
        (Float.min (Float.of_Z 30)
           (Float.mul
              (Float.div (Float.of_Z (available_storage_mb tm)) (Float.of_Z required_mb))
              (Float.of_Z 5))) in
    let score :=
      if is_plugged_in tm then Float.add score (Float.of_Z 25)
      else Float.add score
             (Float.mul (Float.div (battery_percent tm) (Float.of_Z 100)) (Float.of_Z 25)) in
    let score := Float.add score (Float.mul (link_quality tm) (Float.of_Z 25)) in
    let score :=
      Float.add score
        (Float.mul
           (Float.div (Float.sub (Float.of_Z 100) (cpu_load_percent tm)) (Float.of_Z 100))
           (Float.of_Z 10)) in
    let score :=
      Float.add score
        (Float.mul
           (Float.div (Float.sub (Float.of_Z 100) (ram_usage_percent tm)) (Float.of_Z 100))
           (Float.of_Z 10)) in
    score.

Definition score_device_for_compute (tm : Telemetry) : Float.t := compute_score tm.

(** [std::sort(pairs.begin(), pairs.end(), a.second > b.second)]: the
    standard fixes its result up to the order of pairs of equal score. *)
Variable std_sort : list (string * Float.t) → list (string * Float.t).

(** The callers pass as many scores as candidates. *)
Definition select_devices (candidates : list string) (scores : list Float.t) (count : Z)
  : list string :=
  let pairs := filter (λ p, Float.ltb Float.zero p.2 = true) (zip candidates scores) in
  let pairs := std_sort pairs in
  map fst (take (Z.to_nat (Z.min count (Z.of_nat (length pairs)))) pairs).

(** The mean of [placement.score]: a sum of floats over a [size_t]. *)
Definition mean_score (total_score : Float.t) (device_ids : list string) : Float.t :=
  match device_ids with
  | [] => Float.zero
  | _ => Float.div total_score (Float.of_Z (Z.of_nat (length device_ids)))
  end.

(** One iteration of the loop of [place_chunks]. [devices_.at] throws on
    an unknown device ([None]). *)
Definition place_chunk (s : Scheduler) (chunk_size_bytes : Z) (hash : string)
  : option Placement :=
  let entries := map_to_list (devices_ s) in
  let candidates := map fst entries in
  let scores := map (λ e, score_device_for_storage e.2 chunk_size_bytes) entries in
  let device_ids := select_devices candidates scores (replication_factor_ s) in
  total_score ←
    foldl (λ acc device_id,
             total ← acc;
             tm ← devices_ s !! device_id;
             Some (Float.add total (score_device_for_storage tm chunk_size_bytes)))
      (Some Float.zero) device_ids;
  Some (mkPlacement hash device_ids (mean_score total_score device_ids)).

Definition place_chunks (chunk_hashes : list string) (chunk_size_bytes : Z) (s : Scheduler)
  : option (list Placement) :=
  mapM (place_chunk s chunk_size_bytes) chunk_hashes.

Definition place_shard (shard_id : string) (shard_size_bytes : Z) (s : Scheduler) : Placement :=
  let entries := map_to_list (devices_ s) in
  let candidates := map fst entries in
  let scores :=
    map (λ e,
           let storage_score := score_device_for_storage e.2 shard_size_bytes in
           let compute_score := score_device_for_compute e.2 in
           Float.add (Float.mul storage_score (Float.decimal 4 1))
             (Float.mul compute_score (Float.decimal 6 1)))
      entries in
  let device_ids := select_devices candidates scores (replication_factor_ s) in
  let total_score :=
    foldl (λ total cs, if decide (cs.1 ∈ device_ids) then Float.add total cs.2 else total)
      Float.zero (zip candidates scores) in
  mkPlacement shard_id device_ids (mean_score total_score device_ids).

Definition get_compute_devices (count : Z) (s : Scheduler) : list string :=
  let entries := map_to_list (devices_ s) in
  select_devices (map fst entries) (map (λ e, score_device_for_compute e.2) entries) count.

End WithFloat.

(** A sort to evaluate with: insertion by descending score. *)
Section InsertionSort.
Context {F : Float.Ops}.

Fixpoint insert_desc (p : string * Float.t) (l : list (string * Float.t))
  : list (string * Float.t) :=
  match l with
  | [] => [p]
  | q :: l' => if Float.ltb q.2 p.2 then p :: l else q :: insert_desc p l'
  end.

Definition insertion_sort (l : list (string * Float.t)) : list (string * Float.t) :=
  foldr insert_desc [] l.

End InsertionSort.

(** *** Devices to evaluate with *)

(** A device with the telemetry of [Telemetry()] but for its storage. *)
Definition device (mb : Z) : @Telemetry Float.binary32 :=
  mkTelemetry "" (Float.of_Z 100) (Float.of_Z 0) (Float.of_Z 0) (Float.of_Z 100)
    (Float.of_Z 1) mb false 0.

Definition one_device (mb : Z) : @Scheduler Float.binary32 :=
  register_device "d1" (device mb) (new 3).

(** *** More terms of the properties *)

Section Ranking.
Context {F : Float.Ops}.

(** The score by which [place_shard] ranks a device. *)
Definition shard_score (shard_size_bytes : Z) (e : string * Telemetry) : Float.t :=
  Float.add (Float.mul (score_device_for_storage e.2 shard_size_bytes) (Float.decimal 4 1))
    (Float.mul (score_device_for_compute e.2) (Float.decimal 6 1)).

(** The registered devices with a positive score under the ranking [f]. *)
Definition positive (f : string * Telemetry → Float.t) (s : Scheduler)
  : list (string * Telemetry) :=
  filter (λ e, Float.ltb Float.zero (f e) = true) (map_to_list (devices_ s)).

(** [ids] is a replica list for [n] devices under the ranking [f]: no
    device twice, only registered devices of positive score, and [n]
    devices, or all those of positive score when they are fewer. *)
Definition replicas (s : Scheduler) (f : string * Telemetry → Float.t) (n : Z)
    (ids : list string) : Prop :=
  NoDup ids ∧
  length ids = Z.to_nat (Z.min n (Z.of_nat (length (positive f s)))) ∧
  ∀ d, d ∈ ids →
    ∃ tm, devices_ s !! d = Some tm ∧ Float.ltb Float.zero (f (d, tm)) = true.

(** [l] is in the order that the comparator [a.second > b.second] asks
    for: no pair is followed by a pair of greater score. *)
Definition descending (l : list (string * Float.t)) : Prop :=
  StronglySorted (λ x y, Float.ltb x.2 y.2 = false) l.

End Ranking.

(** Two devices in exact arithmetic: "fast" is idle and plugged in,
    "busy" runs on a battery at 50% with its CPU at 80%. *)
Definition fast_device : @Telemetry Float.exact :=
  mkTelemetry "fast" (Float.of_Z 100) (Float.of_Z 0) (Float.of_Z 0) (Float.of_Z 100)
    (Float.of_Z 1) 1024 true 0.

Definition busy_device : @Telemetry Float.exact :=
  mkTelemetry "busy" (Float.of_Z 50) (Float.of_Z 80) (Float.of_Z 50) (Float.of_Z 20)
    (Float.of_Z 1) 1024 false 0.

Definition two_devices : @Scheduler Float.exact :=
  register_device "busy" busy_device (register_device "fast" fast_device (new 1)).

End Scheduler.

(** ** Consensus (Consensus.hpp, Consensus.cpp) *)

Module Consensus.

(** [timestamp] is the tick count of a [system_clock::time_point];
    [version] is a [uint64_t]. *)
Record DAGEntry := mkEntry {
  entry_id : string;
  chunk_hash : string;
  device_ids : list string;
  parent_ids : list string;
  timestamp : Z;
  version : Z;
  creator : string
}.

(** The ledger holds [shared_ptr<DAGEntry>]s and never writes through
    them, so an entry is its value. *)
Record Ledger := mkLedger {
  dag_ : gmap string (list DAGEntry);
  entry_by_id_ : gmap string DAGEntry
}.

Definition empty : Ledger := mkLedger ∅ ∅.

Section WithSHA256.
Variable SHA256 : list byte → list byte.

Definition generate_entry_id (entry : DAGEntry) : string :=
  let data :=
    (chunk_hash entry ++
     foldl (λ acc device, acc ++ device) EmptyString (device_ids entry) ++
     pretty (Z.to_N (version entry)))%string in
  hex (SHA256 (list_byte_of_string data)).

(** [now] is what [system_clock::now()] returns in this call. *)
Definition add_entry (chunk_hash : string) (device_ids : list string) (creator : string)
    (now : Z) (l : Ledger) : string * Ledger :=
  let history := default [] (dag_ l !! chunk_hash) in
  let '(parent_ids, version) :=
    match last history with
    | Some back => ([entry_id back], wrap64 (version back + 1))
    | None => ([], 1)
    end in
  let entry0 := mkEntry EmptyString chunk_hash device_ids parent_ids now version creator in
  let entry :=
    mkEntry (generate_entry_id entry0) chunk_hash device_ids parent_ids now version creator in
  (entry_id entry,
   mkLedger (<[chunk_hash := history ++ [entry]]> (dag_ l))
     (<[entry_id entry := entry]> (entry_by_id_ l))).

End WithSHA256.

Definition get_latest (chunk_hash : string) (l : Ledger) : option DAGEntry :=
  match dag_ l !! chunk_hash with
  | Some history => last history
  | None => None
  end.

Definition get_history (chunk_hash : string) (l : Ledger) : list DAGEntry :=
  default [] (dag_ l !! chunk_hash).

Definition resolve_conflict (a b : DAGEntry) : DAGEntry :=
  if timestamp b <? timestamp a then a
  else if timestamp a <? timestamp b then b
  else if version b <? version a then a
  else if version a <? version b then b
  else if String.ltb (entry_id b) (entry_id a) then a else b.

(** [std::lower_bound] with the comparator [a->timestamp < b->timestamp],
    as the standard libraries implement it: a bisection of
    [first, first + len). *)
Fixpoint lower_bound_loop (fuel : nat) (history : list DAGEntry) (ts : Z)
    (first len : nat) : nat :=
  match fuel with
  | O => first
  | S fuel' =>
      if decide (len = 0)%nat then first
      else
        let half := (len / 2)%nat in
        let middle := (first + half)%nat in
        match history !! middle with
        | Some a =>
            if timestamp a <? ts
            then lower_bound_loop fuel' history ts (S middle) (len - half - 1)
            else lower_bound_loop fuel' history ts first half
        | None => first
        end
  end.

Definition lower_bound (history : list DAGEntry) (entry : DAGEntry) : nat :=
  lower_bound_loop (length history) history (timestamp entry) 0 (length history).

Definition merge_entry (entry : DAGEntry) (l : Ledger) : Ledger :=
  if decide (is_Some (entry_by_id_ l !! entry_id entry)) then l
  else
    let history := default [] (dag_ l !! chunk_hash entry) in
    let insert_pos := lower_bound history entry in
    mkLedger
      (<[chunk_hash entry := take insert_pos history ++ entry :: drop insert_pos history]>
         (dag_ l))
      (<[entry_id entry := entry]> (entry_by_id_ l)).

Definition resolve_locations (chunk_hash : string) (l : Ledger) : list string :=
  match get_latest chunk_hash l with
  | Some latest => device_ids latest
  | None => []
  end.

Definition list_chunks (l : Ledger) : list string := map fst (map_to_list (dag_ l)).

(** *** Terms of the properties *)

Definition ts_le (a b : DAGEntry) : Prop := timestamp a ≤ timestamp b.

(** Merging a batch of entries, in the order of the list. *)
Definition merge_all (entries : list DAGEntry) (l : Ledger) : Ledger :=
  foldl (λ l e, merge_entry e l) l entries.

(** Every history of the ledger is in timestamp order. *)
Definition ledger_sorted (l : Ledger) : Prop :=
  ∀ h, StronglySorted ts_le (get_history h l).

(** The ledger holds exactly [entries]: their ids are the indexed ones,
    and each history gathers the entries of its chunk. *)
Definition holds (l : Ledger) (entries : list DAGEntry) : Prop :=
  (∀ id, is_Some (entry_by_id_ l !! id) ↔ id ∈ map entry_id entries) ∧
  (∀ h, get_history h l ≡ₚ filter (λ e, chunk_hash e = h) entries).

Section Steps.
Variable SHA256 : list byte → list byte.

(** One call on the ledger: a [merge_entry], or an [add_entry] made when
    the clock is not behind the timestamp of the chunk's latest entry. *)
Inductive step : Ledger → Ledger → Prop :=
| step_add chunk_hash device_ids creator now l :
    (∀ back, get_latest chunk_hash l = Some back → timestamp back ≤ now) →
    step l (add_entry SHA256 chunk_hash device_ids creator now l).2
| step_merge entry l :
    step l (merge_entry entry l).

Definition reachable (l : Ledger) : Prop := rtc step empty l.

End Steps.

(** *** Entries to evaluate with *)

Definition entry_a : DAGEntry := mkEntry "a" "H" ["d1"] [] 5 1 "A".
Definition entry_b : DAGEntry := mkEntry "b" "H" ["d2"] [] 5 1 "B".
Definition entry_c : DAGEntry := mkEntry "c" "H" ["d3"] [] 9 2 "A".

(** A remote entry stamped 100, merged into the empty ledger. *)
Definition remote : DAGEntry := mkEntry "r" "H" ["d1"] [] 100 1 "A".

(** *** Calls on a ledger *)

Inductive call :=
| AddEntry (chunk_hash : string) (device_ids : list string) (creator : string) (now : Z)
| MergeEntry (entry : DAGEntry).

Definition is_add (c : call) : Prop :=
  match c with AddEntry _ _ _ _ => True | MergeEntry _ => False end.

Section Runs.
Variable SHA256 : list byte → list byte.

Definition apply_call (l : Ledger) (c : call) : Ledger :=
  match c with
  | AddEntry chunk_hash device_ids creator now =>
      (add_entry SHA256 chunk_hash device_ids creator now l).2
  | MergeEntry entry => merge_entry entry l
  end.

(** The ledger after the calls of the list, made in order on a new one;
    every [add_entry] reads the clock as its call says. *)
Definition run (calls : list call) : Ledger := foldl apply_call empty calls.

End Runs.

(** In a history made by [add_entry] alone, the entry at position [i]
    has version [i + 1] and, but for the first, the entry before it as
    its one parent. *)
Definition chained (history : list DAGEntry) : Prop :=
  ∀ (i : nat) e, history !! i = Some e →
    version e = wrap64 (Z.of_nat i + 1) ∧
    parent_ids e =
      match i with
      | O => []
      | S j => match history !! j with Some p => [entry_id p] | None => [] end
      end.

(** The greater of two entries in the order of [resolve_conflict]:
    by timestamp, then by version, then by entry id. *)
Definition outranks (a b : DAGEntry) : Prop :=
  timestamp b < timestamp a ∨
  (timestamp a = timestamp b ∧
   (version b < version a ∨
    (version a = version b ∧ String.ltb (entry_id b) (entry_id a) = true))).

End Consensus.

(** ** Routing (Routing.hpp, Routing.cpp) *)

Module Routing.

(** What a call comes to: a value, an out-of-bounds read the language
    gives no meaning to, or a loop still running when the fuel is spent. *)
Inductive outcome (A : Type) :=
| Returns (a : A)
| Undefined
| OutOfFuel.
Arguments Returns {A} a.
Arguments Undefined {A}.
Arguments OutOfFuel {A}.

Section WithFloat.
Context {F : Float.Ops}.

Record Link := mkLink {
  from_device : string;
  to_device : string;
  quality : Float.t;
  latency_ms : Float.t;
  bandwidth_mbps : Float.t
}.

(** [Link() : quality(1.0f), latency_ms(10.0f), bandwidth_mbps(100.0f)] *)
Definition default_link : Link :=
  mkLink EmptyString EmptyString (Float.of_Z 1) (Float.of_Z 10) (Float.of_Z 100).

Record Route := mkRoute {
  path : list string;
  total_latency_ms : Float.t;
  min_bandwidth_mbps : Float.t;
  quality_score : Float.t
}.

Definition default_route : Route := mkRoute [] Float.zero Float.zero Float.zero.

Record Routing := mkRouting {
  graph_ : gmap string (gmap string Link);
  chunk_locations_ : gmap string (list string)
}.

Definition new : Routing := mkRouting ∅ ∅.

(** [graph_[a][b] = link] *)
Definition set_link (a b : string) (link : Link) (g : gmap string (gmap string Link))
  : gmap string (gmap string Link) :=
  <[a := <[b := link]> (default ∅ (g !! a))]> g.

(** [graph_[a][b]] as an rvalue: both subscripts create what is missing. *)
Definition get_link (a b : string) (g : gmap string (gmap string Link))
  : Link * gmap string (gmap string Link) :=
  let inner := default ∅ (g !! a) in
  let link := default default_link (inner !! b) in
  (link, <[a := <[b := link]> inner]> g).

Definition add_link (from to : string) (link : Link) (r : Routing) : Routing :=
  let g := set_link from to link (graph_ r) in
  let reverse :=
    mkLink to from (quality link) (latency_ms link) (bandwidth_mbps link) in
  mkRouting (set_link to from reverse g) (chunk_locations_ r).

Definition set_quality (a b : string) (q : Float.t) (g : gmap string (gmap string Link))
  : gmap string (gmap string Link) :=
  match g !! a with
  | Some nbrs =>
      match nbrs !! b with
      | Some l =>
          <[a := <[b := mkLink (from_device l) (to_device l) q (latency_ms l)
                          (bandwidth_mbps l)]> nbrs]> g
      | None => g
      end
  | None => g
  end.

Definition update_link (from to : string) (q : Float.t) (r : Routing) : Routing :=
  mkRouting (set_quality to from q (set_quality from to q (graph_ r))) (chunk_locations_ r).

Definition erase_link (a b : string) (g : gmap string (gmap string Link))
  : gmap string (gmap string Link) :=
  match g !! a with
  | Some nbrs => <[a := delete b nbrs]> g
  | None => g
  end.

Definition remove_link (from to : string) (r : Routing) : Routing :=
  mkRouting (erase_link to from (erase_link from to (graph_ r))) (chunk_locations_ r).

Definition get_neighbors (device_id : string) (r : Routing) : list string :=
  match graph_ r !! device_id with
  | Some nbrs => map fst (map_to_list nbrs)
  | None => []
  end.

Definition register_chunk_location (chunk_hash : string) (device_ids : list string)
    (r : Routing) : Routing :=
  mkRouting (graph_ r) (<[chunk_hash := device_ids]> (chunk_locations_ r)).

Definition resolve_chunk_locations (chunk_hash : string) (r : Routing) : list string :=
  default [] (chunk_locations_ r !! chunk_hash).

(** *** dijkstra *)

(** [QueueItem = std::pair<float, std::string>] and its [operator<]. *)
Definition QueueItem : Type := Float.t * string.

Definition item_lt (a b : QueueItem) : bool :=
  Float.ltb a.1 b.1 || (negb (Float.ltb b.1 a.1) && String.ltb a.2 b.2).

(** [pq.top()] and [pq.pop()] of a
    [priority_queue<QueueItem, vector<QueueItem>, greater<QueueItem>>]:
    a least item of the queue, and the queue without it. *)
Fixpoint pq_pop (pq : list QueueItem) : option (QueueItem * list QueueItem) :=
  match pq with
  | [] => None
  | x :: rest =>
      match pq_pop rest with
      | None => Some (x, [])
      | Some (m, rest') => if item_lt x m then Some (x, rest) else Some (m, x :: rest')
      end
  end.

(** [cost[x]] and [prev[x]]: a missing key reads as the value-initialised
    entry that the subscript creates. *)
Definition cost_at (cost : gmap string Float.t) (x : string) : Float.t :=
  default Float.zero (cost !! x).

Definition prev_at (prev : gmap string string) (x : string) : string :=
  default EmptyString (prev !! x).

Definition edge_cost (link : Link) : Float.t :=
  Float.add (latency_ms link) (Float.mul (Float.sub Float.one (quality link)) (Float.of_Z 50)).

Definition SearchState : Type :=
  gmap string Float.t * gmap string string * list QueueItem.

(** The body of [for (const auto& [v, link] : it->second)]. *)
Definition relax (u : string) (st : SearchState) (e : string * Link) : SearchState :=
  let '(cost, prev, pq) := st in
  let '(v, link) := e in
  let new_cost := Float.add (cost_at cost u) (edge_cost link) in
  if Float.ltb new_cost (cost_at cost v)
  then (<[v := new_cost]> cost, <[v := u]> prev, (new_cost, v) :: pq)
  else st.

(** [while (!pq.empty())] *)
Fixpoint search (fuel : nat) (g : gmap string (gmap string Link)) (dest : string)
    (st : SearchState) : option SearchState :=
  match fuel with
  | O => None
  | S fuel' =>
      let '(cost, prev, pq) := st in
      match pq_pop pq with
      | None => Some st
      | Some ((curr_cost, u), pq) =>
          if decide (u = dest) then Some (cost, prev, pq)
          else if Float.ltb (cost_at cost u) curr_cost then search fuel' g dest (cost, prev, pq)
          else
            match g !! u with
            | None => search fuel' g dest (cost, prev, pq)
            | Some nbrs =>
                search fuel' g dest (foldl (relax u) (cost, prev, pq) (map_to_list nbrs))
            end
      end
  end.

(** [while (!current.empty())] of the path reconstruction. *)
Fixpoint reconstruct (fuel : nat) (prev : gmap string string) (source current : string)
    (path : list string) : option (list string) :=
  if decide (current = EmptyString) then Some path
  else
    match fuel with
    | O => None
    | S fuel' =>
        let path := current :: path in
        if decide (current = source) then Some path
        else reconstruct fuel' prev source (prev_at prev current) path
    end.

(** [for (size_t i = 0; i < result.path.size() - 1; ++i)] on a path that
    is not empty. *)
Fixpoint metrics (g : gmap string (gmap string Link)) (path : list string)
    (acc : Float.t * Float.t * Float.t)
  : gmap string (gmap string Link) * (Float.t * Float.t * Float.t) :=
  match path with
  | a :: (b :: _) as rest =>
      let '(total_latency_ms, min_bandwidth_mbps, quality_score) := acc in
      let '(link, g) := get_link a b g in
      metrics g rest
        (Float.add total_latency_ms (latency_ms link),
         Float.min min_bandwidth_mbps (bandwidth_mbps link),
         Float.mul quality_score (quality link))
  | _ => (g, acc)
  end.

Definition initial_cost (g : gmap string (gmap string Link)) (source : string)
  : gmap string Float.t :=
  <[source := Float.zero]>
    (foldl (λ cost e, <[e.1 := Float.infinity]> cost) ∅ (map_to_list g)).

(** With an empty [result.path], [result.path.size() - 1] wraps around to
    [SIZE_MAX] and the loop of the metrics reads [result.path[0]]. *)
Definition dijkstra (fuel : nat) (source dest : string) (r : Routing)
  : outcome (Route * Routing) :=
  let g := graph_ r in
  match search fuel g dest (initial_cost g source, ∅, [(Float.zero, source)]) with
  | None => OutOfFuel
  | Some (cost, prev, pq) =>
      if decide (is_Some (prev !! dest) ∨ dest = source) then
        match reconstruct fuel prev source dest [] with
        | None => OutOfFuel
        | Some [] => Undefined
        | Some path =>
            let '(g, (total_latency_ms, min_bandwidth_mbps, quality_score)) :=
              metrics g path (Float.zero, Float.infinity, Float.one) in
            Returns (mkRoute path total_latency_ms min_bandwidth_mbps quality_score,
                     mkRouting g (chunk_locations_ r))
        end
      else Returns (default_route, r)
  end.

Definition find_route (fuel : nat) (source dest : string) (r : Routing)
  : outcome (Route * Routing) :=
  dijkstra fuel source dest r.

End WithFloat.

(** *** Terms of the properties *)

(** The order and the addition of costs, as the search relies on them:
    [<] is a strict order, [<=] is transitive, adding a cost on the right
    is monotone, adding a cost that is not negative does not decrease,
    and nothing exceeds infinity. Exact arithmetic has these properties. *)
Class Ordered (F : Float.Ops) : Prop := {
  ltb_irrefl : ∀ a : Float.t, Float.ltb a a = false;
  ltb_trans : ∀ a b c : Float.t,
    Float.ltb a b = true → Float.ltb b c = true → Float.ltb a c = true;
  leb_trans : ∀ a b c : Float.t,
    Float.leb a b = true → Float.leb b c = true → Float.leb a c = true;
  add_mono : ∀ a b w : Float.t,
    Float.leb a b = true → Float.leb (Float.add a w) (Float.add b w) = true;
  add_nonneg : ∀ a w : Float.t,
    Float.leb Float.zero w = true → Float.leb a (Float.add a w) = true;
  infinity_top : ∀ a : Float.t, Float.leb a Float.infinity = true
}.

Section Graphs.
Context {F : Float.Ops}.

Definition edge (g : gmap string (gmap string Link)) (u v : string) (link : Link) : Prop :=
  ∃ nbrs, g !! u = Some nbrs ∧ nbrs !! v = Some link.

(** [walk g source p v c]: [p] lists the devices of a path of [g] from
    [source] to [v], and [c] is the sum of the costs of its links, added
    up from the source on. *)
Inductive walk (g : gmap string (gmap string Link)) (source : string)
  : list string → string → Float.t → Prop :=
| walk_source : walk g source [source] source Float.zero
| walk_link p u c v link :
    walk g source p u c → edge g u v link →
    walk g source (p ++ [v]) v (Float.add c (edge_cost link)).

(** Every neighbour is a device of the graph: what [add_link], which
    writes both directions, and [remove_link] and [update_link], which
    keep the devices, maintain. *)
Definition closed (g : gmap string (gmap string Link)) : Prop :=
  ∀ u v link, edge g u v link → is_Some (g !! v).

(** The graphs the search is proved on: every neighbour is a device, no
    device and not the source has the empty name, no link has a negative
    cost, and no path from the source has an infinite cost. *)
Record well_formed (g : gmap string (gmap string Link)) (source : string) : Prop := {
  wf_closed : closed g;
  wf_named : g !! EmptyString = None;
  wf_source_named : source ≠ EmptyString;
  wf_nonneg : ∀ u v link, edge g u v link → Float.leb Float.zero (edge_cost link) = true;
  wf_bounded : ∀ p v c, walk g source p v c → Float.ltb c Float.infinity = true
}.

(** Enough fuel for a search over [g], which relaxes each link at most
    once, and for rebuilding a path that visits no device twice. *)
Definition fuel_bound (g : gmap string (gmap string Link)) : nat :=
  2 + size g + sum_list (map (λ e, size e.2) (map_to_list g)).

(** Consecutive devices of [p] are linked in [g]. *)
Definition linked (g : gmap string (gmap string Link)) (p : list string) : Prop :=
  ∀ i a b, p !! i = Some a → p !! S i = Some b → ∃ link, edge g a b link.

End Graphs.

(** [chain prev source p v]: [p] runs from [source] to [v], each device
    after the first being mapped by [prev] to the one before it. *)
Inductive chain (prev : gmap string string) (source : string)
  : list string → string → Prop :=
| chain_source : chain prev source [source] source
| chain_link p u v :
    chain prev source p u → v ≠ source → v ≠ EmptyString → prev !! v = Some u →
    chain prev source (p ++ [v]) v.

Section Invariant.
Context {F : Float.Ops}.
Variable g : gmap string (gmap string Link).
Variables source dest : string.

(** [X] is the set of devices whose links have been relaxed, [R x v]
    says that the link from [x] to [v] has been relaxed, and [b] is the
    cost at which the last of them was taken from the queue. *)
Record inv_gen (X : gset string) (R : string → string → Prop) (b : Float.t)
    (cost : gmap string Float.t) (prev : gmap string string) (pq : list QueueItem)
  : Prop := {
  ig_source : cost !! source = Some Float.zero;
  ig_dom : ∀ v, is_Some (cost !! v) ↔ (is_Some (g !! v) ∨ v = source);
  ig_nonneg : ∀ v, Float.leb Float.zero (cost_at cost v) = true;
  ig_label : ∀ v c,
    cost !! v = Some c → Float.ltb c Float.infinity = true →
    ∃ p, walk g source p v c ∧ chain prev source p v ∧ NoDup p ∧
         ∀ x, x ∈ p → x = v ∨ x ∈ X;
  ig_queue : ∀ v c,
    cost !! v = Some c → Float.ltb c Float.infinity = true → v ∉ X → (c, v) ∈ pq;
  ig_entries : ∀ c v,
    (c, v) ∈ pq →
    Float.ltb c Float.infinity = true ∧ is_Some (cost !! v) ∧
    (cost !! v = Some c ∨ Float.ltb (cost_at cost v) c = true);
  ig_stale : ∀ c v, (c, v) ∈ pq → v ∈ X → Float.ltb (cost_at cost v) c = true;
  ig_nodup : NoDup pq;
  ig_relaxed : ∀ x v link,
    R x v → edge g x v link →
    Float.leb (cost_at cost v) (Float.add (cost_at cost x) (edge_cost link)) = true;
  ig_relaxed_settled : ∀ x v, R x v → x ∈ X;
  ig_optimal : ∀ u p c,
    u ∈ X → walk g source p u c → Float.leb (cost_at cost u) c = true;
  ig_settled : ∀ u,
    u ∈ X →
    is_Some (cost !! u) ∧ Float.ltb (cost_at cost u) Float.infinity = true ∧ u ≠ dest;
  ig_level_settled : ∀ u, u ∈ X → Float.leb (cost_at cost u) b = true;
  ig_level_queue : ∀ c v, (c, v) ∈ pq → Float.leb b c = true
}.

Definition inv (X : gset string) := inv_gen X (λ x _, x ∈ X).

(** What the search leaves when it stops at [dest]. *)
Definition found (cost : gmap string Float.t) (prev : gmap string string) : Prop :=
  ∃ p c,
    cost !! dest = Some c ∧ walk g source p dest c ∧ chain prev source p dest ∧
    (length p ≤ size g + 2)%nat ∧
    ∀ p' c', walk g source p' dest c' → Float.leb c c' = true.

(** The links still to relax: those of the devices outside [X]. *)
Definition weight (X : gset string) : nat :=
  sum_list (map (λ e, if decide (e.1 ∈ X) then 0%nat else size e.2) (map_to_list g)).

End Invariant.

(** *** Graphs to evaluate with *)

(** A link of the given quality, in tenths, and latency, as a caller of
    [add_link] passes it; S5 of the specification (A-B and B-C of
    quality 1 and latency 10, A-C of quality 0.5 and latency 15); and a
    graph in which the device between "a" and "b" has the empty name. *)
Definition link_of {F : Float.Ops} (quality_tenths latency : Z) : Link :=
  mkLink EmptyString EmptyString (Float.decimal quality_tenths 1) (Float.of_Z latency)
    (Float.of_Z 100).

Definition triangle {F : Float.Ops} : Routing :=
  add_link "A" "C" (link_of 5 15)
    (add_link "B" "C" (link_of 10 10) (add_link "A" "B" (link_of 10 10) new)).

Definition exact_triangle : @Routing Float.exact := triangle.

Definition through_unnamed : @Routing Float.binary32 :=
  add_link "" "b" (link_of 10 10) (add_link "a" "" (link_of 10 10) new).

(** A check, by evaluation, that a graph in exact arithmetic is well formed. *)
Definition is_finite (a : Float.ext) : bool :=
  match a with Float.Fin _ => true | Float.Inf => false end.

Definition link_check (g : gmap string (gmap string (@Link Float.exact)))
    (e : string * @Link Float.exact) : bool :=
  bool_decide (is_Some (g !! e.1)) &&
  @Float.leb Float.exact Float.zero (edge_cost e.2) &&
  is_finite (edge_cost e.2).

Definition graph_check (g : gmap string (gmap string (@Link Float.exact)))
    (source : string) : bool :=
  forallb (λ e, forallb (link_check g) (map_to_list e.2)) (map_to_list g) &&
  bool_decide (g !! EmptyString = None) &&
  bool_decide (source ≠ EmptyString).

(** *** Edits of the graph *)

Section Edits.
Context {F : Float.Ops}.

(** The link from [u] to [v], if there is one. *)
Definition link_at (g : gmap string (gmap string Link)) (u v : string) : option Link :=
  g !! u ≫= λ nbrs, nbrs !! v.

Inductive edit :=
| AddLink (from to : string) (link : Link)
| UpdateLink (from to : string) (quality : Float.t)
| RemoveLink (from to : string).

Definition apply_edit (r : Routing) (e : edit) : Routing :=
  match e with
  | AddLink from to link => add_link from to link r
  | UpdateLink from to quality => update_link from to quality r
  | RemoveLink from to => remove_link from to r
  end.

(** The router after the edits of the list, made in order on a new one. *)
Definition edited (edits : list edit) : Routing := foldl apply_edit new edits.

(** Two links with the same quality, latency and bandwidth. *)
Definition alike (l l' : Link) : Prop :=
  quality l = quality l' ∧ latency_ms l = latency_ms l' ∧
  bandwidth_mbps l = bandwidth_mbps l'.

(** Every link has a link alike in the opposite direction. *)
Definition bidirectional (g : gmap string (gmap string Link)) : Prop :=
  ∀ u v l, link_at g u v = Some l → ∃ l', link_at g v u = Some l' ∧ alike l l'.

(** No path of [g] leads from [source] to [dest]. *)
Definition unreachable (g : gmap string (gmap string Link)) (source dest : string) : Prop :=
  ∀ p c, ¬ walk g source p dest c.

(** Every device that has a predecessor has a finite cost. *)
Definition prev_finite (cost : gmap string Float.t) (prev : gmap string string) : Prop :=
  ∀ v, is_Some (prev !! v) → ∃ c, cost !! v = Some c ∧ Float.ltb c Float.infinity = true.

End Edits.

End Routing.

(** ** ModelShardManager (ModelShardManager.hpp, ModuleShardManager.cpp)

    [execute_layer] draws from a [std::mt19937] seeded with a
    [std::hash] of strings, and [run_inference] reads the clock and
    calls it: they are left out. *)

Module ModelShardManager.

(** [layer_start] and [layer_end] are [int]s, [size_bytes] a [size_t]. *)
Record ModelShard := mkModelShard {
  shard_id : string;
  model_name : string;
  layer_start : Z;
  layer_end : Z;
  device_ids : list string;
  size_bytes : Z;
  content_hash : string
}.

(** The manager holds one [shared_ptr<ModelShard>] per shard id, made by
    [register_model] and written through by [update_shard_location]
    alone, so a shard is the value under its id. *)
Record Manager := mkManager {
  shards_ : gmap string ModelShard;
  model_shards_ : gmap string (list string)
}.

Definition new : Manager := mkManager ∅ ∅.

Definition register_model (name : string) (shards : list ModelShard) (m : Manager)
  : Manager :=
  mkManager (foldl (λ acc shard, <[shard_id shard := shard]> acc) (shards_ m) shards)
    (<[name := map shard_id shards]> (model_shards_ m)).

Definition update_shard_location (id : string) (devices : list string) (m : Manager)
  : Manager :=
  match shards_ m !! id with
  | Some shard =>
      mkManager
        (<[id := mkModelShard (shard_id shard) (model_name shard) (layer_start shard)
                   (layer_end shard) devices (size_bytes shard) (content_hash shard)]>
           (shards_ m))
        (model_shards_ m)
  | None => m
  end.

Definition get_shard (id : string) (m : Manager) : option ModelShard := shards_ m !! id.

Definition get_model_shards (name : string) (m : Manager) : list ModelShard :=
  match model_shards_ m !! name with
  | Some ids => omap (λ id, get_shard id m) ids
  | None => []
  end.

(** What [plan_inference_path] comes to: the path, or the
    [std::runtime_error] "No device available for shard: ...". *)
Inductive plan :=
| Path (path : list (string * string))
| NoDevice (shard_id : string).

(** [for (const auto& shard : shards)]: the first device of each shard;
    the first shard without a device throws. *)
Fixpoint assign (shards : list ModelShard) (path : list (string * string)) : plan :=
  match shards with
  | [] => Path path
  | shard :: rest =>
      match device_ids shard with
      | device :: _ => assign rest (path ++ [(shard_id shard, device)])
      | [] => NoDevice (shard_id shard)
      end
  end.

Section WithSort.

(** [std::sort(shards.begin(), shards.end(), a->layer_start < b->layer_start)]:
    the standard fixes its result up to the order of shards that start
    at the same layer. *)
Variable std_sort : list ModelShard → list ModelShard.

Definition plan_inference_path (name : string) (m : Manager) : plan :=
  assign (std_sort (get_model_shards name m)) [].

End WithSort.

(** *** Terms of the properties *)

(** [l] is in the order that the comparator asks for: no shard is
    followed by a shard that starts at an earlier layer. *)
Definition by_layer (l : list ModelShard) : Prop :=
  StronglySorted (λ a b, layer_start a ≤ layer_start b) l.

(** The step of the path for a shard: its id and its first device. *)
Definition step_of (shard : ModelShard) : option (string * string) :=
  match device_ids shard with
  | device :: _ => Some (shard_id shard, device)
  | [] => None
  end.

(** A sort to evaluate with: insertion by layer. *)
Fixpoint insert_by_layer (s : ModelShard) (l : list ModelShard) : list ModelShard :=
  match l with
  | [] => [s]
  | x :: l' => if layer_start s <? layer_start x then s :: l else x :: insert_by_layer s l'
  end.

Definition sort_by_layer (l : list ModelShard) : list ModelShard :=
  foldr insert_by_layer [] l.

(** Two shards of a model, the second on the earlier layers. *)
Definition upper_shard : ModelShard := mkModelShard "s2" "m" 12 23 ["d2"; "d3"] 100 "h2".
Definition lower_shard : ModelShard := mkModelShard "s1" "m" 0 11 ["d1"] 100 "h1".

End ModelShardManager.

(** * Properties *)

(** ** Hexadecimal printing is injective *)

Lemma unhex_hex_byte (b : byte) (s : string) :
  unhex (String (hex_hi b) (String (hex_lo b) s)) =
  match unhex s with Some bs => Some (b :: bs) | None => None end.
Proof.
  cbn [unhex]. destruct (unhex s) as [bs|].
  - destruct b; reflexivity.
  - destruct b; reflexivity.
Qed.

Lemma unhex_hex (bs : list byte) : unhex (hex bs) = Some bs.
Proof.
  induction bs as [|b bs IH]; [reflexivity|].
  cbn [hex]. rewrite unhex_hex_byte, IH. reflexivity.
Qed.

Lemma hex_inj (a b : list byte) : hex a = hex b → a = b.
Proof.
  intros E. apply (f_equal unhex) in E. rewrite !unhex_hex in E. congruence.
Qed.



(** ** ChunkStore *)

Module ChunkStoreSpec.
Import ChunkStore.

Section Properties.

Variable ZSTD_compress : list byte → list byte.
Variable ZSTD_decompress : list byte → Z → option (list byte).
Variable PBKDF2_HMAC_SHA256 : string → list byte → list byte.
Variable AES_256_GCM_seal : list byte → list byte → list byte → list byte * list byte.
Variable AES_256_GCM_open : list byte → list byte → list byte → list byte → option (list byte).
Variable SHA256 : list byte → list byte.

Abbreviation store := (ChunkStore.store ZSTD_compress PBKDF2_HMAC_SHA256 AES_256_GCM_seal SHA256).
Abbreviation store_loop := (ChunkStore.store_loop ZSTD_compress AES_256_GCM_seal SHA256).
Abbreviation store_step := (ChunkStore.store_step ZSTD_compress AES_256_GCM_seal SHA256).
Abbreviation retrieve :=
  (ChunkStore.retrieve ZSTD_decompress PBKDF2_HMAC_SHA256 AES_256_GCM_open).
Abbreviation retrieve_loop := (ChunkStore.retrieve_loop ZSTD_decompress AES_256_GCM_open).
Abbreviation compute_hash := (ChunkStore.compute_hash SHA256).
Abbreviation derive_key := (ChunkStore.derive_key PBKDF2_HMAC_SHA256).
Abbreviation zstd_round_trip := (ChunkStore.zstd_round_trip ZSTD_compress ZSTD_decompress).
Abbreviation sha256_collision_free := (ChunkStore.sha256_collision_free SHA256).
Abbreviation gcm_rejects_other_keys :=
  (ChunkStore.gcm_rejects_other_keys AES_256_GCM_seal AES_256_GCM_open).
Abbreviation made := (ChunkStore.made ZSTD_compress AES_256_GCM_seal SHA256).
Abbreviation loop_inv := (ChunkStore.loop_inv ZSTD_compress AES_256_GCM_seal SHA256).

Lemma store_step_inv payload key encrypt k m st rng acc :
  0 < k →
  loop_inv payload key encrypt k m st acc →
  ∃ st' rng' h,
    store_step payload key encrypt (Z.of_nat m * k) st rng acc = (st', rng', acc ++ [h]) ∧
    loop_inv payload key encrypt k (S m) st' (acc ++ [h]) ∧
    content_map_ st' = content_map_ st.
Proof.
  intros Hpos (Hlen & Hk & Hacc).
  unfold ChunkStore.store_step. rewrite Hk.
  set (chunk_len := Z.min k (Z.of_nat (length payload) - Z.of_nat m * k)).
  set (compressed := ChunkStore.compress ZSTD_compress _).
  assert (Hcomp : compressed = ZSTD_compress (slice k payload m)) by reflexivity.
  clearbody compressed.
  destruct (if encrypt then aes_gcm_encrypt AES_256_GCM_seal compressed key rng
            else (compressed, [], [], rng)) as [[[cdata civ] ctag] rng1] eqn:Epr.
  set (c := mkChunk (compute_hash cdata) cdata civ ctag chunk_len (Z.of_nat m * k / k) encrypt).
  assert (Hmade : made payload key encrypt k m c).
  { constructor; cbn; try reflexivity.
    - apply Z.div_mul. lia.
    - destruct encrypt.
      + unfold aes_gcm_encrypt in Epr.
        destruct (generate_random 12 rng) as [iv0 rng0].
        destruct (AES_256_GCM_seal key iv0 compressed) as [ct tg] eqn:Eseal.
        inversion Epr; subst. exact Eseal.
      + inversion Epr; subst. reflexivity. }
  eexists _, rng1, (hash c).
  split; [reflexivity|]. split; [|reflexivity].
  split; [rewrite length_app; cbn; lia|]. split; [reflexivity|].
  intros i h Hi.
  apply lookup_app_Some in Hi as [Hi | [Hge Hi]].
  - destruct (Hacc i h Hi) as [Hown (c0 & j & Hc0 & Hh0 & Hj & Hm0)].
    split; [exact Hown|].
    destruct (decide (hash c = h)) as [<- | Hne].
    + exists c, m. cbn. rewrite lookup_insert_eq. split; [reflexivity|].
      split; [reflexivity|]. split; [|exact Hmade].
      rewrite lookup_app_r by lia. rewrite Hlen, Nat.sub_diag. reflexivity.
    + exists c0, j. cbn. rewrite lookup_insert_ne by exact Hne.
      split; [exact Hc0|]. split; [exact Hh0|]. split; [|exact Hm0].
      apply lookup_app_l_Some. exact Hj.
  - rewrite Hlen in Hi, Hge.
    destruct (i - m)%nat as [|d] eqn:Ed; [|destruct d; discriminate].
    assert (i = m) by lia. subst i. cbn in Hi. inversion Hi; subst h.
    split; [exists c; split; [exact Hmade | reflexivity]|].
    exists c, m. cbn. rewrite lookup_insert_eq. split; [reflexivity|].
    split; [reflexivity|]. split; [|exact Hmade].
    rewrite lookup_app_r by lia. rewrite Hlen, Nat.sub_diag. reflexivity.
Qed.

Lemma loop_guard k len m :
  0 < k → 0 ≤ len → (m * k <? len) = (m <? chunk_count k len).
Proof.
  intros Hk Hl. unfold chunk_count.
  destruct (Z.ltb_spec (m * k) len) as [H|H]; symmetry.
  - apply Z.ltb_lt.
    assert ((m + 1) ≤ (len + k - 1) / k); [|lia].
    apply Z.div_le_lower_bound; nia.
  - apply Z.ltb_ge.
    assert ((len + k - 1) / k < m + 1); [|lia].
    apply Z.div_lt_upper_bound; nia.
Qed.

Lemma next_offset_no_wrap k len m :
  0 < k < 2 ^ 64 → len < 2 ^ 63 → 0 ≤ m → m * k < len →
  wrap64 (m * k + k) = (m + 1) * k.
Proof.
  intros Hk Hl Hm Hlt. unfold wrap64.
  change (2 ^ 64) with 18446744073709551616 in *.
  change (2 ^ 63) with 9223372036854775808 in *.
  rewrite Z.mod_small; nia.
Qed.

(** The loop of [store] ends, and leaves the invariant at the chunk
    count. *)
Lemma store_loop_inv payload key encrypt k fuel :
  0 < k < 2 ^ 64 → Z.of_nat (length payload) < 2 ^ 63 →
  ∀ m st rng acc,
    loop_inv payload key encrypt k m st acc →
    Z.of_nat m ≤ chunk_count k (Z.of_nat (length payload)) →
    chunk_count k (Z.of_nat (length payload)) - Z.of_nat m ≤ Z.of_nat fuel →
    ∃ st' rng' acc',
      store_loop payload key encrypt fuel (Z.of_nat m * k) st rng acc = Some (st', rng', acc') ∧
      loop_inv payload key encrypt k
        (Z.to_nat (chunk_count k (Z.of_nat (length payload)))) st' acc' ∧
      content_map_ st' = content_map_ st.
Proof.
  intros Hk Hl. induction fuel as [|fuel IH]; intros m st rng acc Hinv Hm Hfuel.
  - assert (Z.of_nat m = chunk_count k (Z.of_nat (length payload))) as Hmn by lia.
    cbn [ChunkStore.store_loop]. rewrite loop_guard by lia.
    rewrite Hmn, Z.ltb_irrefl. exists st, rng, acc.
    split; [reflexivity|]. split; [|reflexivity].
    rewrite <- Hmn, Nat2Z.id. exact Hinv.
  - cbn [ChunkStore.store_loop]. rewrite loop_guard by lia.
    destruct (Z.ltb_spec (Z.of_nat m) (chunk_count k (Z.of_nat (length payload)))) as [Hlt|Hge].
    + destruct (store_step_inv payload key encrypt k m st rng acc ltac:(lia) Hinv)
        as (st1 & rng1 & h & Estep & Hinv1 & Hcm1).
      rewrite Estep.
      assert (Hk1 : chunk_size_ st1 = k) by apply Hinv1.
      rewrite Hk1, next_offset_no_wrap with (len := Z.of_nat (length payload)); try lia.
      2:{ rewrite <- Z.ltb_lt, loop_guard by lia. apply Z.ltb_lt. exact Hlt. }
      replace ((Z.of_nat m + 1) * k) with (Z.of_nat (S m) * k) by lia.
      destruct (IH (S m) st1 rng1 (acc ++ [h]) Hinv1 ltac:(lia) ltac:(lia))
        as (st' & rng' & acc' & E & Hinv' & Hcm').
      exists st', rng', acc'. split; [exact E|]. split; [exact Hinv'|]. congruence.
    + assert (Z.of_nat m = chunk_count k (Z.of_nat (length payload))) as Hmn by lia.
      exists st, rng, acc. split; [reflexivity|]. split; [|reflexivity].
      rewrite <- Hmn, Nat2Z.id. exact Hinv.
Qed.

Lemma chunk_count_le_length k len : 0 < k → 0 ≤ len → 0 ≤ chunk_count k len ≤ len.
Proof.
  intros Hk Hl. unfold chunk_count. split.
  - apply Z.div_pos; lia.
  - destruct (Z.eq_dec len 0) as [->|Hne].
    + rewrite Z.div_small; lia.
    + assert ((len + k - 1) / k < len + 1); [|lia].
      apply Z.div_lt_upper_bound; nia.
Qed.

Lemma loop_inv_start payload key encrypt st :
  loop_inv payload key encrypt (chunk_size_ st) 0 st [].
Proof. split; [reflexivity|]. split; [reflexivity|]. intros i h Hi. discriminate. Qed.

(** [store] as a whole, in terms of the invariant. *)
Lemma store_spec payload content_id encrypt st rng :
  0 < chunk_size_ st < 2 ^ 64 → Z.of_nat (length payload) < 2 ^ 63 →
  ∃ hashes st' rng',
    store payload content_id encrypt st rng = Some (hashes, st', rng') ∧
    loop_inv payload (derive_key content_id (generate_random 32 rng).1) encrypt
      (chunk_size_ st)
      (Z.to_nat (chunk_count (chunk_size_ st) (Z.of_nat (length payload)))) st' hashes ∧
    content_map_ st' = <[content_id := hashes]> (content_map_ st).
Proof.
  intros Hk Hl. unfold ChunkStore.store.
  destruct (generate_random 32 rng) as [salt rng0] eqn:Esalt. cbn [fst].
  set (key := ChunkStore.derive_key PBKDF2_HMAC_SHA256 content_id salt).
  pose proof (chunk_count_le_length (chunk_size_ st) (Z.of_nat (length payload))
                ltac:(lia) ltac:(lia)) as Hn.
  destruct (store_loop_inv payload key encrypt (chunk_size_ st) (length payload) Hk Hl
              0%nat st rng0 [] (loop_inv_start _ _ _ _) ltac:(lia) ltac:(lia))
    as (st1 & rng1 & acc & E & Hinv & Hcm).
  change (Z.of_nat 0 * chunk_size_ st) with 0 in E. rewrite E.
  eexists _, _, _. split; [reflexivity|]. split.
  - destruct Hinv as (H1 & H2 & H3). split; [exact H1|]. split; [exact H2|]. exact H3.
  - cbn. rewrite Hcm. reflexivity.
Qed.

(** The size of a chunk by its ordinal. *)
Lemma chunk_size_by_index k len j :
  0 < k → 0 ≤ len → 0 ≤ j < chunk_count k len →
  Z.min k (len - j * k) =
  if j <? chunk_count k len - 1 then k
  else if len mod k =? 0 then k else len mod k.
Proof.
  intros Hk Hl Hj. unfold chunk_count in *.
  pose proof (Z.div_mod len k ltac:(lia)) as Hdm.
  pose proof (Z.mod_pos_bound len k Hk) as Hr.
  set (q := len / k) in *. set (r := len mod k) in *.
  assert (Hn : (len + k - 1) / k = if r =? 0 then q else q + 1).
  { destruct (Z.eqb_spec r 0) as [Hr0|Hr0].
    - symmetry. apply Z.div_unique with (r := k - 1); lia.
    - symmetry. apply Z.div_unique with (r := r - 1); lia. }
  rewrite Hn in *.
  destruct (Z.eqb_spec r 0) as [Hr0|Hr0];
    destruct (Z.ltb_spec j (q - 1)) as [H1|H1];
    destruct (Z.ltb_spec j (q + 1 - 1)) as [H2|H2]; try nia.
Qed.

(** C9: with a chunk size [k > 0], [store] returns the ceiling of
    [L / k] hashes; the chunk kept under each of them carries an ordinal
    of the call at which that same hash was returned, and its
    [original_size] is [k], except at the last ordinal where it is
    [L mod k] (or [k] when [k] divides [L]). When the returned hashes
    are pairwise distinct, the chunk under the hash of position [i] is
    the one of ordinal [i]. *)
Theorem store_chunk_boundaries payload content_id encrypt st rng :
  0 < chunk_size_ st < 2 ^ 64 →
  Z.of_nat (length payload) < 2 ^ 63 →
  let k := chunk_size_ st in
  let len := Z.of_nat (length payload) in
  ∃ hashes st' rng',
    store payload content_id encrypt st rng = Some (hashes, st', rng') ∧
    Z.of_nat (length hashes) = (len + k - 1) / k ∧
    ∀ (i : nat) (h : string), hashes !! i = Some h →
      ∃ c, get_chunk h st' = Some c ∧
           0 ≤ index c < (len + k - 1) / k ∧
           hashes !! Z.to_nat (index c) = Some h ∧
           (NoDup hashes → index c = Z.of_nat i) ∧
           original_size c =
             if index c <? (len + k - 1) / k - 1 then k
             else if len mod k =? 0 then k else len mod k.
Proof.
  intros Hk Hl k len.
  destruct (store_spec payload content_id encrypt st rng Hk Hl)
    as (hashes & st' & rng' & E & (Hlen & Hks & Hacc) & _).
  fold k len in Hlen, Hacc.
  pose proof (chunk_count_le_length k len ltac:(lia) ltac:(lia)) as Hn.
  exists hashes, st', rng'. split; [exact E|].
  split; [rewrite Hlen; unfold chunk_count in *; lia|].
  intros i h Hi.
  destruct (Hacc i h Hi) as [_ (c & j & Hc & _ & Hj & Hm)].
  destruct Hm as [Hix Hsz _ _ _]. fold len in Hsz.
  apply lookup_lt_Some in Hj as Hjlt. rewrite Hlen in Hjlt.
  exists c. split; [exact Hc|]. fold (chunk_count k len).
  split; [lia|]. split; [rewrite Hix, Nat2Z.id; exact Hj|]. split.
  - intros Hnd. rewrite Hix. f_equal. exact (NoDup_lookup _ _ _ _ Hnd Hj Hi).
  - rewrite Hsz, Hix. apply chunk_size_by_index; lia.
Qed.

Lemma slice_length k payload j :
  0 < k → Z.of_nat j * k < Z.of_nat (length payload) →
  Z.of_nat (length (slice k payload j)) =
  Z.min k (Z.of_nat (length payload) - Z.of_nat j * k).
Proof.
  intros Hk Hj. unfold slice. rewrite length_take, length_drop. lia.
Qed.

Lemma take_slice k payload j :
  0 < k → Z.of_nat j * k < Z.of_nat (length payload) →
  take (Z.to_nat (Z.of_nat j * k)) payload ++ slice k payload j =
  take (Z.to_nat (Z.of_nat (S j) * k)) payload.
Proof.
  intros Hk Hj. unfold slice. rewrite take_take_drop.
  destruct (Z.le_gt_cases k (Z.of_nat (length payload) - Z.of_nat j * k)) as [Hle|Hgt].
  - f_equal. lia.
  - rewrite !take_ge by lia. reflexivity.
Qed.

Lemma compress_injective :
  zstd_round_trip → ∀ a b, ZSTD_compress a = ZSTD_compress b → a = b.
Proof.
  intros Hz a b E.
  pose proof (Hz a (Z.max (Z.of_nat (length a)) (Z.of_nat (length b))) ltac:(lia)) as Ha.
  pose proof (Hz b (Z.max (Z.of_nat (length a)) (Z.of_nat (length b))) ltac:(lia)) as Hb.
  rewrite E in Ha. congruence.
Qed.

Lemma ordinal_in_range k len (j : nat) :
  0 < k → 0 ≤ len → Z.of_nat j < chunk_count k len → Z.of_nat j * k < len.
Proof.
  intros Hk Hl Hj. apply Z.ltb_lt. rewrite loop_guard by lia. apply Z.ltb_lt. exact Hj.
Qed.

Lemma take_all_chunks k (payload : list byte) :
  0 < k →
  take (Z.to_nat (chunk_count k (Z.of_nat (length payload)) * k)) payload = payload.
Proof.
  intros Hk. apply take_ge.
  pose proof (loop_guard k (Z.of_nat (length payload))
                (chunk_count k (Z.of_nat (length payload))) Hk ltac:(lia)) as H.
  rewrite Z.ltb_irrefl in H. apply Z.ltb_ge in H. lia.
Qed.

(** Reading back the hashes from position [length pre] on, with the
    bytes of the chunks before it already gathered. *)
Lemma retrieve_loop_unencrypted payload key key' k st hashes :
  zstd_round_trip → sha256_collision_free → 0 < k →
  Z.of_nat (length hashes) = chunk_count k (Z.of_nat (length payload)) →
  loop_inv payload key false k (length hashes) st hashes →
  ∀ rest pre,
    hashes = pre ++ rest →
    retrieve_loop key' rest st (take (Z.to_nat (Z.of_nat (length pre) * k)) payload) =
    (st, Ok payload).
Proof.
  intros Hz Hs Hk Hn (Hlen & Hks & Hacc).
  induction rest as [|h rest IH]; intros pre Hsplit.
  - rewrite app_nil_r in Hsplit. subst pre. cbn. rewrite Hn, take_all_chunks by lia.
    reflexivity.
  - assert (Hi : hashes !! length pre = Some h).
    { rewrite Hsplit, lookup_app_r, Nat.sub_diag by lia. reflexivity. }
    destruct (Hacc _ _ Hi) as [(ci & Hmi & Hhi) (c & j & Hc & Hhc & Hj & Hmj)].
    destruct Hmi as [_ _ _ Hhash_i Hdata_i]. destruct Hmj as [_ Hsz_j Hfl_j Hhash_j Hdata_j].
    assert (Edata : data c = data ci).
    { apply Hs, hex_inj. unfold ChunkStore.compute_hash in *. congruence. }
    assert (Eslice : slice k payload j = slice k payload (length pre)).
    { apply (compress_injective Hz). congruence. }
    apply lookup_lt_Some in Hj as Hjlt. apply lookup_lt_Some in Hi as Hilt.
    pose proof (ordinal_in_range k (Z.of_nat (length payload)) j Hk ltac:(lia) ltac:(lia)) as Hjr.
    pose proof (ordinal_in_range k (Z.of_nat (length payload)) (length pre) Hk
                  ltac:(lia) ltac:(lia)) as Hir.
    cbn [ChunkStore.retrieve_loop]. unfold get_chunk. rewrite Hc, Hfl_j.
    unfold ChunkStore.decompress.
    rewrite Hdata_j, Hz by (rewrite slice_length, Hsz_j by lia; lia).
    rewrite Hsz_j, <- slice_length, Nat2Z.id, Nat.sub_diag by lia. cbn [replicate].
    rewrite app_nil_r, Eslice, take_slice by lia.
    specialize (IH (pre ++ [h])). rewrite length_app in IH. cbn [length] in IH.
    replace (length pre + 1)%nat with (S (length pre)) in IH by lia.
    apply IH. rewrite <- app_assoc. exact Hsplit.
Qed.


(** C1 on the code: after [store(P, C, true)] of a payload that is not
    empty, a [retrieve(C)] whose fresh salt derives another key than the
    salt of the [store] did throws "Authentication failed" at the first
    chunk; AES-GCM is assumed to reject a ciphertext under another key. *)
Theorem encrypted_retrieve_fails payload content_id st rng rng2 :
  gcm_rejects_other_keys →
  0 < chunk_size_ st < 2 ^ 64 →
  Z.of_nat (length payload) < 2 ^ 63 →
  payload ≠ [] →
  derive_key content_id (generate_random 32 rng).1 ≠
  derive_key content_id (generate_random 32 rng2).1 →
  ∃ hashes st' rng',
    store payload content_id true st rng = Some (hashes, st', rng') ∧
    retrieve content_id st' rng2 =
    (Err AuthenticationFailed, st', (generate_random 32 rng2).2).
Proof.
  intros Hg Hk Hl Hne Hkeys.
  destruct (store_spec payload content_id true st rng Hk Hl)
    as (hashes & st' & rng' & E & (Hlen & Hks & Hacc) & Hcm).
  exists hashes, st', rng'. split; [exact E|].
  unfold ChunkStore.retrieve, resolve_mapping. rewrite Hcm, lookup_insert_eq.
  destruct (generate_random 32 rng2) as [salt2 rng2'] eqn:E2. cbn [fst snd] in *.
  destruct hashes as [|h hashes].
  { exfalso. cbn in Hlen.
    pose proof (loop_guard (chunk_size_ st) (Z.of_nat (length payload)) 0 ltac:(lia)
                  ltac:(lia)) as Hg0.
    destruct payload as [|b payload]; [congruence|]. cbn [length] in *.
    destruct (Z.ltb_spec (0 * chunk_size_ st) (Z.of_nat (S (length payload)))); [|lia].
    symmetry in Hg0. apply Z.ltb_lt in Hg0. lia. }
  destruct (Hacc 0%nat h eq_refl) as [_ (c & j & Hc & _ & _ & Hm)].
  destruct Hm as [_ _ Hfl _ Hseal].
  cbn [ChunkStore.retrieve_loop]. unfold get_chunk. rewrite Hc, Hfl.
  unfold aes_gcm_decrypt.
  pose proof (Hg _ _ (iv c) (ZSTD_compress (slice (chunk_size_ st) payload j)) Hkeys) as Hrej.
  rewrite Hseal in Hrej. cbn [fst snd] in Hrej. rewrite Hrej. reflexivity.
Qed.

(** C10: [store] of the empty payload returns no hash and records the
    content identifier with an empty hash list, in memory and in the
    table; a [retrieve] that follows returns the empty payload. *)
Theorem store_retrieve_empty content_id encrypt st rng :
  ∃ st' rng',
    store [] content_id encrypt st rng = Some ([], st', rng') ∧
    content_map_ st' !! content_id = Some [] ∧
    db_ st' !! ("content_map:" ++ content_id)%string = Some EmptyString ∧
    ∀ rng2, retrieve content_id st' rng2 = (Ok [], st', (generate_random 32 rng2).2).
Proof.
  unfold ChunkStore.store.
  destruct (generate_random 32 rng) as [salt rng0]. cbn.
  eexists _, _. split; [reflexivity|]. cbn.
  rewrite !lookup_insert_eq. split; [reflexivity|]. split; [reflexivity|].
  intros rng2. unfold ChunkStore.retrieve, resolve_mapping. cbn.
  rewrite lookup_insert_eq. destruct (generate_random 32 rng2). reflexivity.
Qed.

(** Without encryption one iteration pushes a hash that depends on the
    payload, the offset and the chunk size alone. *)
Lemma store_loop_plain_hashes payload fuel :
  ∀ offset key1 key2 st1 st2 rng1 rng2 acc,
    chunk_size_ st1 = chunk_size_ st2 →
    (λ r, r.2) <$> store_loop payload key1 false fuel offset st1 rng1 acc =
    (λ r, r.2) <$> store_loop payload key2 false fuel offset st2 rng2 acc.
Proof.
  induction fuel as [|fuel IH]; intros offset key1 key2 st1 st2 rng1 rng2 acc Hk;
    cbn [ChunkStore.store_loop].
  - destruct (offset <? Z.of_nat (length payload)); reflexivity.
  - destruct (offset <? Z.of_nat (length payload)); [|reflexivity].
    unfold ChunkStore.store_step. cbn. rewrite Hk. apply IH. reflexivity.
Qed.

(** C4: two calls [store(P, C, false)], on stores of the same chunk
    size whatever else their state and whatever the random generators
    hand out, return the same hash sequence. *)
Theorem store_unencrypted_deterministic payload content_id st1 rng1 st2 rng2 :
  chunk_size_ st1 = chunk_size_ st2 →
  (λ r, r.1.1) <$> store payload content_id false st1 rng1 =
  (λ r, r.1.1) <$> store payload content_id false st2 rng2.
Proof.
  intros Hk. unfold ChunkStore.store.
  destruct (generate_random 32 rng1) as [salt1 rng1'].
  destruct (generate_random 32 rng2) as [salt2 rng2'].
  pose proof (store_loop_plain_hashes payload (length payload) 0
                (derive_key content_id salt1) (derive_key content_id salt2)
                st1 st2 rng1' rng2' [] Hk) as H.
  destruct (store_loop payload (derive_key content_id salt1) false _ 0 st1 rng1' [])
    as [[[s1 r1] h1]|];
    destruct (store_loop payload (derive_key content_id salt2) false _ 0 st2 rng2' [])
    as [[[s2 r2] h2]|]; cbn in *; congruence.
Qed.

(** *** The record of a chunk reads back *)

Lemma le_bytes_length w z : length (le_bytes w z) = w.
Proof.
  revert z. induction w as [|w IH]; intros z; [reflexivity|]. cbn [le_bytes].
  destruct (Byte.of_N (Z.to_N (z mod 256))) as [b|] eqn:E.
  - cbn. rewrite IH. reflexivity.
  - apply Byte.of_N_None_iff in E.
    pose proof (Z.mod_pos_bound z 256 ltac:(lia)). lia.
Qed.

Lemma le_value_le_bytes w z :
  0 ≤ z < 256 ^ Z.of_nat w → le_value (le_bytes w z) = z.
Proof.
  revert z. induction w as [|w IH]; intros z Hz.
  - cbn in *. lia.
  - cbn [le_bytes].
    pose proof (Z.mod_pos_bound z 256 ltac:(lia)) as Hm.
    destruct (Byte.of_N (Z.to_N (z mod 256))) as [b|] eqn:E.
    2:{ apply Byte.of_N_None_iff in E. lia. }
    apply Byte.to_of_N in E. cbn [le_value]. rewrite E, IH.
    + rewrite Z2N.id by lia. pose proof (Z.div_mod z 256 ltac:(lia)). lia.
    + rewrite Nat2Z.inj_succ, Z.pow_succ_r in Hz by lia.
      split; [apply Z.div_pos; lia|]. apply Z.div_lt_upper_bound; lia.
Qed.

Lemma take_bytes_app (a r : list byte) :
  take_bytes (length a) (a ++ r) = Some (a, r).
Proof.
  unfold take_bytes. rewrite decide_True by (rewrite length_app; lia).
  rewrite take_app_length, drop_app_length. reflexivity.
Qed.

Lemma take_bytes_le w z (r : list byte) :
  take_bytes w (le_bytes w z ++ r) = Some (le_bytes w z, r).
Proof.
  pose proof (take_bytes_app (le_bytes w z) r) as H.
  rewrite le_bytes_length in H. exact H.
Qed.

Lemma take_bytes_field (a r : list byte) :
  Z.of_nat (length a) < 2 ^ 32 →
  take_bytes (Z.to_nat (le_value (le_bytes 4 (Z.of_nat (length a))))) (a ++ r) = Some (a, r).
Proof.
  intros H. rewrite le_value_le_bytes, Nat2Z.id by (change (256 ^ Z.of_nat 4) with (2 ^ 32); lia).
  apply take_bytes_app.
Qed.

Lemma deserialize_serialize h c :
  fits_record c → deserialize_chunk h (serialize_chunk c) = Some (filed h c).
Proof.
  intros (Hsz & Hix & Hiv & Htag & Hdata).
  unfold deserialize_chunk, serialize_chunk, wrap32.
  rewrite !Z.mod_small by lia.
  rewrite take_bytes_le. cbn [mbind option_bind].
  rewrite take_bytes_le. cbn [mbind option_bind].
  rewrite (take_bytes_app [_]). cbn [mbind option_bind].
  rewrite take_bytes_le. cbn [mbind option_bind].
  rewrite take_bytes_field by exact Hiv. cbn [mbind option_bind].
  rewrite take_bytes_le. cbn [mbind option_bind].
  rewrite take_bytes_field by exact Htag. cbn [mbind option_bind].
  rewrite take_bytes_le. cbn [mbind option_bind].
  rewrite <- (app_nil_r (data c)) at 2.
  rewrite take_bytes_field by exact Hdata. cbn [mbind option_bind].
  rewrite !le_value_le_bytes by (first [change (256 ^ Z.of_nat 8) with (2 ^ 64); lia]).
  unfold filed. destruct (is_encrypted c); reflexivity.
Qed.

Lemma load_chunk_persist_eq h c st :
  fits_record c → load_chunk h (persist_chunk h c st) = Some (filed h c).
Proof.
  intros Hfit. unfold load_chunk, persist_chunk. cbn [db_].
  rewrite lookup_insert_eq. cbn [mbind option_bind].
  rewrite list_byte_of_string_of_list_byte. apply deserialize_serialize, Hfit.
Qed.

Lemma load_chunk_persist_ne h h' c st :
  h' ≠ h → load_chunk h' (persist_chunk h c st) = load_chunk h' st.
Proof.
  intros Hne. unfold load_chunk, persist_chunk. cbn [db_].
  rewrite lookup_insert_ne; [reflexivity|].
  intros E. apply Hne. apply String.app_inj in E. symmetry. exact E.
Qed.

(** X1: a chunk whose fields fit the widths of the record (sizes below
    [2^64], lengths of iv, tag and data below [2^32]) is read back by
    [load_chunk] as [persist_chunk] wrote it, under the hash of the key;
    the chunks under other hashes are left as they were, and a hash
    without a record loads nothing. *)
Theorem load_persisted_chunk (h : string) (c : Chunk) (st : Store) :
  fits_record c →
  load_chunk h (persist_chunk h c st) = Some (filed h c) ∧
  (∀ h', h' ≠ h → load_chunk h' (persist_chunk h c st) = load_chunk h' st) ∧
  (∀ h', db_ st !! ("chunk:" ++ h')%string = None → load_chunk h' st = None).
Proof.
  intros Hfit. split; [apply load_chunk_persist_eq, Hfit|]. split.
  - intros h' Hne. apply load_chunk_persist_ne, Hne.
  - intros h' Hnone. unfold load_chunk. rewrite Hnone. reflexivity.
Qed.

(** *** The hash list of a content reads back *)

Lemma string_app_assoc (a b c : string) : ((a ++ b) ++ c = a ++ (b ++ c))%string.
Proof.
  induction a as [|x a IH]; [reflexivity|].
  change (String x ((a ++ b) ++ c) = String x (a ++ (b ++ c)))%string. rewrite IH. reflexivity.
Qed.

Lemma string_app_nil_r (a : string) : (a ++ "")%string = a.
Proof.
  induction a as [|x a IH]; [reflexivity|].
  change (String x (a ++ "")%string = String x a). rewrite IH. reflexivity.
Qed.

Lemma join_mapping_cons h hs :
  join_mapping (h :: hs) = (h ++ ";" ++ join_mapping hs)%string.
Proof.
  unfold join_mapping. cbn [foldl].
  assert (H : ∀ acc, foldl (λ acc h, acc ++ (h ++ ";"))%string acc hs =
                     (acc ++ foldl (λ acc h, acc ++ (h ++ ";"))%string EmptyString hs)%string).
  { induction hs as [|x hs IH]; intros acc; cbn [foldl].
    - rewrite string_app_nil_r. reflexivity.
    - rewrite IH, (IH ("" ++ (x ++ ";"))%string).
      change ("" ++ (x ++ ";"))%string with (x ++ ";")%string.
      rewrite string_app_assoc. reflexivity. }
  rewrite H. change ("" ++ (h ++ ";"))%string with (h ++ ";")%string.
  apply string_app_assoc.
Qed.

Lemma getline_tokens_token s rest cur :
  has_semicolon s = false →
  getline_tokens (s ++ ";" ++ rest) cur = (cur ++ s)%string :: getline_tokens rest EmptyString.
Proof.
  revert cur. induction s as [|c s IH]; intros cur Hs.
  - change (getline_tokens (String ";" rest) cur = (cur ++ "")%string :: getline_tokens rest "").
    rewrite string_app_nil_r. reflexivity.
  - cbn [has_semicolon] in Hs. apply orb_false_iff in Hs as [Hc Hs].
    change (getline_tokens (String c (s ++ ";" ++ rest)) cur =
            (cur ++ String c s)%string :: getline_tokens rest "").
    cbn [getline_tokens]. rewrite Hc, IH by exact Hs.
    rewrite string_app_assoc. reflexivity.
Qed.

Lemma getline_tokens_join hs :
  Forall (λ h, has_semicolon h = false) hs →
  getline_tokens (join_mapping hs) EmptyString = hs.
Proof.
  induction 1 as [|h hs Hh _ IH]; [reflexivity|].
  rewrite join_mapping_cons, getline_tokens_token by exact Hh. cbn. rewrite IH. reflexivity.
Qed.

Lemma parse_mapping_join hs :
  Forall (λ h, has_semicolon h = false ∧ h ≠ EmptyString) hs →
  parse_mapping (join_mapping hs) = hs.
Proof.
  intros H. unfold parse_mapping. rewrite getline_tokens_join.
  - induction H as [|h hs [_ Hh] _ IH]; [reflexivity|].
    rewrite filter_cons, decide_True by exact Hh. rewrite IH. reflexivity.
  - eapply Forall_impl; [exact H|]. intros h [Hh _]. exact Hh.
Qed.

(** X2: the hash list written under ["content_map:" + content_id], each
    hash followed by a semicolon, is parsed back by the loop of
    [retrieve] as the list of those hashes that are not empty, as long
    as no hash holds a semicolon; a list of hashes none of which is
    empty reads back as it was written. *)
Theorem parse_join_mapping (hs : list string) :
  Forall (λ h, has_semicolon h = false) hs →
  parse_mapping (join_mapping hs) = filter (λ h, h ≠ EmptyString) hs ∧
  (Forall (λ h, h ≠ EmptyString) hs → parse_mapping (join_mapping hs) = hs).
Proof.
  intros Hs. split.
  - unfold parse_mapping. rewrite getline_tokens_join by exact Hs. reflexivity.
  - intros Hne. apply parse_mapping_join. apply Forall_and. split; assumption.
Qed.

Lemma hex_no_semicolon (bs : list byte) : has_semicolon (hex bs) = false.
Proof.
  induction bs as [|b bs IH]; [reflexivity|].
  cbn [hex has_semicolon]. rewrite IH. destruct b; reflexivity.
Qed.

Lemma hex_not_empty (bs : list byte) : bs ≠ [] → hex bs ≠ EmptyString.
Proof. destruct bs; [congruence|discriminate]. Qed.

(** *** Looking chunks up, in memory and in the table *)

Lemma filed_own (c : Chunk) : filed (hash c) c = c.
Proof. destruct c; reflexivity. Qed.

Lemma tracks_get_chunk : tracks (λ _, True) get_chunk.
Proof.
  split.
  - intros h0 c0 st h _ _. unfold get_chunk, store_chunk, persist_chunk. cbn [chunks_].
    case_decide as Hh; [subst; apply lookup_insert_eq|apply lookup_insert_ne; congruence].
  - intros. reflexivity.
Qed.

Lemma tracks_load_chunk : tracks fits_record load_chunk.
Proof.
  split.
  - intros h0 c0 st h Hfit Hh0. unfold store_chunk. case_decide as Hh.
    + subst h h0. rewrite load_chunk_persist_eq by exact Hfit. rewrite filed_own. reflexivity.
    + rewrite load_chunk_persist_ne by exact Hh. reflexivity.
  - intros h st cm mk mv. unfold load_chunk. cbn [db_].
    rewrite lookup_insert_ne; [reflexivity|]. discriminate.
Qed.

Lemma tracks_fetch : tracks fits_record fetch.
Proof.
  destruct tracks_get_chunk as [Hg1 Hg2], tracks_load_chunk as [Hl1 Hl2]. split.
  - intros h0 c0 st h Hfit Hh0. unfold fetch.
    rewrite (Hg1 h0 c0 st h I Hh0), (Hl1 h0 c0 st h Hfit Hh0).
    case_decide; reflexivity.
  - intros h st cm mk mv. unfold fetch. rewrite Hg2, Hl2. reflexivity.
Qed.

Lemma fetch_cache h c st :
  fetch h st = Some c → ∀ h', fetch h' (cache h c st) = fetch h' st.
Proof.
  intros Hf h'. unfold fetch, get_chunk, cache, load_chunk in *. cbn [chunks_ db_].
  destruct (decide (h = h')) as [->|Hne].
  - rewrite lookup_insert_eq. destruct (chunks_ st !! h'); congruence.
  - rewrite lookup_insert_ne by exact Hne. reflexivity.
Qed.

(** *** The loop of [store], for any invariant *)

Lemma store_step_chunk_size payload key encrypt offset st rng acc :
  chunk_size_ (store_step payload key encrypt offset st rng acc).1.1 = chunk_size_ st.
Proof.
  unfold ChunkStore.store_step.
  destruct (if encrypt then _ else _) as [[[cdata civ] ctag] rng1]. reflexivity.
Qed.

Lemma store_step_content_map payload key encrypt offset st rng acc :
  content_map_ (store_step payload key encrypt offset st rng acc).1.1 = content_map_ st.
Proof.
  unfold ChunkStore.store_step.
  destruct (if encrypt then _ else _) as [[[cdata civ] ctag] rng1]. reflexivity.
Qed.

Lemma store_loop_gen (I : nat → Store → list string → Prop) payload key encrypt k fuel :
  0 < k < 2 ^ 64 → Z.of_nat (length payload) < 2 ^ 63 →
  (∀ m st rng acc,
     I m st acc → chunk_size_ st = k →
     Z.of_nat m * k < Z.of_nat (length payload) →
     I (S m) (store_step payload key encrypt (Z.of_nat m * k) st rng acc).1.1
       (store_step payload key encrypt (Z.of_nat m * k) st rng acc).2) →
  ∀ m st rng acc,
    I m st acc → chunk_size_ st = k →
    Z.of_nat m ≤ chunk_count k (Z.of_nat (length payload)) →
    chunk_count k (Z.of_nat (length payload)) - Z.of_nat m ≤ Z.of_nat fuel →
    ∃ st' rng' acc',
      store_loop payload key encrypt fuel (Z.of_nat m * k) st rng acc = Some (st', rng', acc') ∧
      I (Z.to_nat (chunk_count k (Z.of_nat (length payload)))) st' acc' ∧
      chunk_size_ st' = k ∧ content_map_ st' = content_map_ st.
Proof.
  intros Hk Hl Hstep. induction fuel as [|fuel IH]; intros m st rng acc Hinv Hks Hm Hfuel.
  - assert (Z.of_nat m = chunk_count k (Z.of_nat (length payload))) as Hmn by lia.
    cbn [ChunkStore.store_loop]. rewrite loop_guard by lia.
    rewrite Hmn, Z.ltb_irrefl. exists st, rng, acc.
    split; [reflexivity|]. rewrite <- Hmn, Nat2Z.id. auto.
  - cbn [ChunkStore.store_loop]. rewrite loop_guard by lia.
    destruct (Z.ltb_spec (Z.of_nat m) (chunk_count k (Z.of_nat (length payload)))) as [Hlt|Hge].
    + pose proof (ordinal_in_range k (Z.of_nat (length payload)) m ltac:(lia) ltac:(lia) Hlt)
        as Hin.
      pose proof (Hstep m st rng acc Hinv Hks Hin) as Hinv1.
      pose proof (store_step_chunk_size payload key encrypt (Z.of_nat m * k) st rng acc) as Hk1.
      pose proof (store_step_content_map payload key encrypt (Z.of_nat m * k) st rng acc) as Hc1.
      destruct (store_step payload key encrypt (Z.of_nat m * k) st rng acc)
        as [[st1 rng1] acc1]. cbn [fst snd] in *.
      rewrite Hk1, Hks, next_offset_no_wrap with (len := Z.of_nat (length payload)); try lia.
      replace ((Z.of_nat m + 1) * k) with (Z.of_nat (S m) * k) by lia.
      destruct (IH (S m) st1 rng1 acc1 Hinv1 ltac:(congruence) ltac:(lia) ltac:(lia))
        as (st' & rng' & acc' & E & Hinv' & Hk' & Hc').
      exists st', rng', acc'. split; [exact E|]. split; [exact Hinv'|].
      split; [exact Hk'|congruence].
    + assert (Z.of_nat m = chunk_count k (Z.of_nat (length payload))) as Hmn by lia.
      exists st, rng, acc. split; [reflexivity|]. rewrite <- Hmn, Nat2Z.id. auto.
Qed.

(** *** Plain chunks, through [store] and [retrieve] *)

Abbreviation plain_entry := (ChunkStore.plain_entry ZSTD_compress SHA256).
Abbreviation plain_content := (ChunkStore.plain_content ZSTD_compress SHA256).
Abbreviation compressed_fits := (ChunkStore.compressed_fits ZSTD_compress).
Abbreviation plain_chunks_fit := (ChunkStore.plain_chunks_fit ZSTD_compress).
Abbreviation digest_not_empty := (ChunkStore.digest_not_empty SHA256).

(** One iteration without encryption files the chunk of its ordinal and
    keeps every plain chunk findable. *)
Lemma store_step_plain fit look payload key k m st rng acc :
  tracks fit look → zstd_round_trip → sha256_collision_free → plain_chunks_fit fit k →
  0 < k < 2 ^ 64 → Z.of_nat (length payload) < 2 ^ 63 → chunk_size_ st = k →
  Z.of_nat m * k < Z.of_nat (length payload) → length acc = m →
  ∃ st' rng' h,
    store_step payload key false (Z.of_nat m * k) st rng acc = (st', rng', acc ++ [h]) ∧
    plain_entry look st' k payload m h ∧
    ∀ k' payload' i h',
      plain_entry look st k' payload' i h' → plain_entry look st' k' payload' i h'.
Proof.
  intros [Htr _] Hz Hs Hfit Hk Hl Hks Hin Hlen. subst k.
  set (k := chunk_size_ st) in Hfit, Hk, Hin |- *.
  unfold ChunkStore.store_step. fold k.
  set (chunk_len := Z.min k (Z.of_nat (length payload) - Z.of_nat m * k)).
  fold (slice k payload m).
  set (c := mkChunk (compute_hash (ChunkStore.compress ZSTD_compress (slice k payload m)))
              (ChunkStore.compress ZSTD_compress (slice k payload m)) [] [] chunk_len
              (Z.of_nat m * k / k) false).
  assert (Hsl : Z.of_nat (length (slice k payload m)) = chunk_len).
  { apply slice_length; lia. }
  assert (Hc : fit c).
  { apply Hfit; cbn; try reflexivity; [lia|rewrite Z.div_mul by lia; nia|].
    exists (slice k payload m). split; [lia|reflexivity]. }
  assert (Hlook : ∀ h, look h (store_chunk (hash c) c st) =
                       if decide (h = hash c) then Some c else look h st).
  { intros h. apply Htr; [exact Hc|reflexivity]. }
  exists (store_chunk (hash c) c st), rng, (hash c).
  split; [reflexivity|]. split.
  - exists c. rewrite Hlook, decide_True by reflexivity.
    split; [reflexivity|]. split; [reflexivity|]. split; [reflexivity|].
    split; [reflexivity|]. cbn. lia.
  - intros k' payload' i h' (c' & Hl' & Henc' & Hh' & Hd' & Hsz').
    destruct (decide (h' = hash c)) as [Heq|Hne].
    + exists c. rewrite Hlook, decide_True by exact Heq.
      assert (Edata : data c = data c').
      { apply Hs, hex_inj. unfold ChunkStore.compute_hash in *. cbn in *. congruence. }
      assert (Eslice : slice k payload m = slice k' payload' i).
      { apply (compress_injective Hz). cbn in Edata. unfold ChunkStore.compress in Edata.
        congruence. }
      split; [reflexivity|]. split; [reflexivity|]. split; [exact Heq|].
      split; [congruence|]. cbn. rewrite <- Eslice. lia.
    + exists c'. rewrite Hlook, decide_False by exact Hne.
      split; [exact Hl'|]. split; [exact Henc'|]. split; [exact Hh'|].
      split; [exact Hd'|exact Hsz'].
Qed.

(** [store] without encryption files the chunks of the payload where
    [look] finds them, and keeps every plain chunk findable. *)
Lemma store_plain fit look payload content_id st rng :
  tracks fit look → zstd_round_trip → sha256_collision_free →
  plain_chunks_fit fit (chunk_size_ st) →
  0 < chunk_size_ st < 2 ^ 64 → Z.of_nat (length payload) < 2 ^ 63 →
  ∃ hashes st' rng',
    store payload content_id false st rng = Some (hashes, st', rng') ∧
    chunk_size_ st' = chunk_size_ st ∧
    content_map_ st' = <[content_id := hashes]> (content_map_ st) ∧
    db_ st' !! ("content_map:" ++ content_id)%string = Some (join_mapping hashes) ∧
    plain_content look st' (chunk_size_ st) payload hashes ∧
    ∀ k' payload' i h',
      plain_entry look st k' payload' i h' → plain_entry look st' k' payload' i h'.
Proof.
  intros Htr Hz Hs Hfit Hk Hl. unfold ChunkStore.store.
  destruct (generate_random 32 rng) as [salt rng0].
  set (key := ChunkStore.derive_key PBKDF2_HMAC_SHA256 content_id salt).
  set (k := chunk_size_ st) in *.
  pose proof (chunk_count_le_length k (Z.of_nat (length payload)) ltac:(lia) ltac:(lia)) as Hn.
  set (I := λ (m : nat) (s : Store) (acc : list string),
         length acc = m ∧
         (∀ i h, acc !! i = Some h → plain_entry look s k payload i h) ∧
         (∀ k' payload' i h',
            plain_entry look st k' payload' i h' → plain_entry look s k' payload' i h')).
  destruct (store_loop_gen I payload key false k (length payload) Hk Hl) with
    (m := 0%nat) (st := st) (rng := rng0) (acc := @nil string)
    as (st1 & rng1 & acc & E & (Hlen & Hown & Hkeep) & Hk1 & Hc1).
  { intros m s r acc (Hlen & Hown & Hkeep) Hks Hin.
    destruct (store_step_plain fit look payload key k m s r acc Htr Hz Hs Hfit Hk Hl Hks Hin Hlen)
      as (s' & r' & h & Estep & Hnew & Hold).
    rewrite Estep. cbn [fst snd]. split; [rewrite length_app; cbn; lia|]. split.
    - intros i x Hi. apply lookup_app_Some in Hi as [Hi|[Hge Hi]].
      + apply Hold, Hown, Hi.
      + rewrite Hlen in Hi, Hge.
        destruct (i - m)%nat as [|d] eqn:Ed; [|destruct d; discriminate].
        assert (i = m) by lia. subst i. cbn in Hi. inversion Hi; subst x. exact Hnew.
    - intros k' payload' i h' He. apply Hold, Hkeep, He. }
  { split; [reflexivity|]. split; [intros i h Hi; discriminate|auto]. }
  { reflexivity. }
  { lia. }
  { lia. }
  change (Z.of_nat 0 * k) with 0 in E. rewrite E.
  destruct Htr as [_ Hmap].
  eexists _, _, _. split; [reflexivity|]. cbn [chunk_size_ content_map_ db_].
  split; [exact Hk1|]. split; [rewrite Hc1; reflexivity|].
  split; [apply lookup_insert_eq|]. split.
  - split; [lia|]. intros i h Hi.
    destruct (Hown i h Hi) as (c & Hc). exists c. rewrite Hmap. exact Hc.
  - intros k' payload' i h' He.
    destruct (Hkeep k' payload' i h' He) as (c & Hc). exists c. rewrite Hmap. exact Hc.
Qed.

(** Reading plain chunks back, from memory or from the table. *)
Lemma retrieve_loop_plain payload key k hashes :
  zstd_round_trip → 0 < k →
  ∀ rest pre st,
    hashes = pre ++ rest →
    plain_content fetch st k payload hashes →
    ∃ st',
      retrieve_loop key rest st (take (Z.to_nat (Z.of_nat (length pre) * k)) payload) =
      (st', Ok payload) ∧
      chunk_size_ st' = chunk_size_ st ∧ content_map_ st' = content_map_ st ∧
      db_ st' = db_ st ∧ ∀ h, fetch h st' = fetch h st.
Proof.
  intros Hz Hk. induction rest as [|h rest IH]; intros pre st Hsplit [Hn Hent].
  - rewrite app_nil_r in Hsplit. subst pre. exists st. cbn.
    rewrite Hn, take_all_chunks by lia. auto.
  - assert (Hi : hashes !! length pre = Some h).
    { rewrite Hsplit, lookup_app_r, Nat.sub_diag by lia. reflexivity. }
    destruct (Hent _ _ Hi) as (c & Hf & Henc & _ & Hdata & Hsz).
    apply lookup_lt_Some in Hi as Hilt.
    pose proof (ordinal_in_range k (Z.of_nat (length payload)) (length pre) Hk
                  ltac:(lia) ltac:(lia)) as Hir.
    assert (Hnext : ∀ s,
              (∀ x, fetch x s = fetch x st) →
              chunk_size_ s = chunk_size_ st → content_map_ s = content_map_ st →
              db_ s = db_ st →
              ∃ st',
                retrieve_loop key rest s
                  (take (Z.to_nat (Z.of_nat (length pre) * k)) payload ++
                   slice k payload (length pre)) = (st', Ok payload) ∧
                chunk_size_ st' = chunk_size_ st ∧ content_map_ st' = content_map_ st ∧
                db_ st' = db_ st ∧ ∀ x, fetch x st' = fetch x st).
    { intros s Hs Hs1 Hs2 Hs3. rewrite take_slice by lia.
      destruct (IH (pre ++ [h]) s) as (st' & E & H1 & H2 & H3 & H4).
      - rewrite <- app_assoc. exact Hsplit.
      - split; [exact Hn|]. intros i x Hx. destruct (Hent i x Hx) as (cx & Hcx).
        exists cx. rewrite Hs. exact Hcx.
      - exists st'. rewrite length_app in E. cbn [length] in E.
        replace (length pre + 1)%nat with (S (length pre)) in E by lia.
        split; [exact E|]. split; [congruence|]. split; [congruence|].
        split; [congruence|]. intros x. rewrite H4. apply Hs. }
    assert (Hdec : ChunkStore.decompress ZSTD_decompress (data c) (original_size c) =
                   Ok (slice k payload (length pre))).
    { unfold ChunkStore.decompress. rewrite Hdata, Hz by lia.
      rewrite Hsz, Nat2Z.id, Nat.sub_diag. cbn [replicate]. rewrite app_nil_r. reflexivity. }
    cbn [ChunkStore.retrieve_loop]. unfold fetch in Hf.
    destruct (get_chunk h st) as [c0|] eqn:Eg.
    + inversion Hf; subst c0. rewrite Henc, Hdec. apply Hnext; auto.
    + rewrite Hf, Henc, Hdec.
      apply (Hnext (cache h c st)); try reflexivity.
      apply fetch_cache. unfold fetch. rewrite Eg. exact Hf.
Qed.

Lemma compressed_fits_record k :
  0 < k < 2 ^ 64 → compressed_fits k → plain_chunks_fit fits_record k.
Proof.
  intros Hk Hfit c Hiv Htag Hsz Hix (d & Hd & Hdata).
  unfold fits_record. rewrite Hiv, Htag, Hdata. cbn [length].
  split; [lia|]. split; [lia|]. split; [lia|]. split; [lia|]. apply Hfit, Hd.
Qed.

Lemma plain_entry_hash look st k payload i h :
  digest_not_empty → plain_entry look st k payload i h →
  has_semicolon h = false ∧ h ≠ EmptyString.
Proof.
  intros Hd (c & _ & _ & -> & _). unfold ChunkStore.compute_hash.
  split; [apply hex_no_semicolon|apply hex_not_empty, Hd].
Qed.

(** X3: what [store] wrote without encryption survives a restart. On a
    store with a chunk size [k > 0], after [store(P, C, false)] a new
    store opened on the same table, with any chunk size, returns [P] for
    [retrieve(C)] and then lists for [C] the hashes that [store]
    returned; zstd is assumed to round-trip, SHA-256 to be free of
    collisions and to give a digest that is not empty, and the
    compressed chunks to fit the 32-bit length field of the record. *)
Theorem store_restart_retrieve payload content_id st rng (chunk_size' : Z) :
  zstd_round_trip → sha256_collision_free → digest_not_empty →
  compressed_fits (chunk_size_ st) →
  0 < chunk_size_ st < 2 ^ 64 →
  Z.of_nat (length payload) < 2 ^ 63 →
  ∃ hashes st' rng',
    store payload content_id false st rng = Some (hashes, st', rng') ∧
    ∀ rng2, ∃ st2,
      retrieve content_id (open chunk_size' (db_ st')) rng2 =
        (Ok payload, st2, (generate_random 32 rng2).2) ∧
      list_chunks content_id st2 = hashes.
Proof.
  intros Hz Hs Hd Hfit Hk Hl.
  destruct (store_plain fits_record load_chunk payload content_id st rng tracks_load_chunk
              Hz Hs (compressed_fits_record _ Hk Hfit) Hk Hl)
    as (hashes & st' & rng' & E & _ & _ & Hdb & [Hn Hent] & _).
  exists hashes, st', rng'. split; [exact E|]. intros rng2.
  unfold ChunkStore.retrieve, resolve_mapping, open. cbn [content_map_ db_ chunk_size_ chunks_].
  rewrite lookup_empty, Hdb.
  assert (Hparse : parse_mapping (join_mapping hashes) = hashes).
  { apply parse_mapping_join, Forall_forall. intros h Hh.
    apply list_elem_of_lookup in Hh as [i Hi].
    exact (plain_entry_hash _ _ _ _ _ _ Hd (Hent i h Hi)). }
  rewrite Hparse.
  destruct (generate_random 32 rng2) as [salt2 rng2']. cbn [snd].
  set (s := mkStore chunk_size' ∅ (<[content_id := hashes]> ∅) (db_ st')).
  destruct (retrieve_loop_plain payload (derive_key content_id salt2) (chunk_size_ st) hashes
              Hz ltac:(lia) hashes [] s eq_refl) as (st2 & E2 & _ & Hcm & _).
  { split; [exact Hn|]. intros i h Hi. destruct (Hent i h Hi) as (c & Hc & Hrest).
    exists c. split; [|exact Hrest]. unfold fetch, get_chunk, s. cbn [chunks_].
    rewrite lookup_empty. exact Hc. }
  change (take (Z.to_nat (Z.of_nat (length (@nil string)) * chunk_size_ st)) payload)
    with (@nil byte) in E2.
  rewrite E2. exists st2. split; [reflexivity|].
  unfold ChunkStore.list_chunks. rewrite Hcm. unfold s. cbn [content_map_].
  rewrite lookup_insert_eq. reflexivity.
Qed.

Lemma plain_content_fetch st k payload hashes :
  plain_content get_chunk st k payload hashes → plain_content fetch st k payload hashes.
Proof.
  intros [Hn Hent]. split; [exact Hn|]. intros i h Hi.
  destruct (Hent i h Hi) as (c & Hc & Hrest). exists c. split; [|exact Hrest].
  unfold fetch. rewrite Hc. reflexivity.
Qed.

Lemma plain_chunks_fit_any k : plain_chunks_fit (λ _, True) k.
Proof. intros c _ _ _ _ _. exact I. Qed.

(** X4: storing another content does not disturb a content stored
    before. After [store(P1, C1, false)] and a later
    [store(P2, C2, false)] under another identifier on the same store,
    [retrieve(C1)] still returns [P1], also when chunks of the two
    payloads have the same hash; zstd is assumed to round-trip and
    SHA-256 to be free of collisions. *)
Theorem store_keeps_other_content payload1 content_id1 payload2 content_id2 st rng :
  zstd_round_trip → sha256_collision_free →
  0 < chunk_size_ st < 2 ^ 64 →
  Z.of_nat (length payload1) < 2 ^ 63 →
  Z.of_nat (length payload2) < 2 ^ 63 →
  content_id1 ≠ content_id2 →
  ∃ hashes1 st1 rng1 hashes2 st2 rng2,
    store payload1 content_id1 false st rng = Some (hashes1, st1, rng1) ∧
    store payload2 content_id2 false st1 rng1 = Some (hashes2, st2, rng2) ∧
    list_chunks content_id1 st2 = hashes1 ∧
    ∀ rng3,
      retrieve content_id1 st2 rng3 = (Ok payload1, st2, (generate_random 32 rng3).2).
Proof.
  intros Hz Hs Hk Hl1 Hl2 Hne.
  destruct (store_plain (λ _, True) get_chunk payload1 content_id1 st rng tracks_get_chunk
              Hz Hs (plain_chunks_fit_any _) Hk Hl1)
    as (hashes1 & st1 & rng1 & E1 & Hk1 & Hcm1 & _ & [Hn1 Hent1] & _).
  destruct (store_plain (λ _, True) get_chunk payload2 content_id2 st1 rng1 tracks_get_chunk
              Hz Hs (plain_chunks_fit_any _) ltac:(lia) Hl2)
    as (hashes2 & st2 & rng2 & E2 & Hk2 & Hcm2 & _ & _ & Hkeep).
  exists hashes1, st1, rng1, hashes2, st2, rng2.
  split; [exact E1|]. split; [exact E2|].
  assert (Hmap : content_map_ st2 !! content_id1 = Some hashes1).
  { rewrite Hcm2, lookup_insert_ne by congruence. rewrite Hcm1. apply lookup_insert_eq. }
  split; [unfold ChunkStore.list_chunks; rewrite Hmap; reflexivity|].
  intros rng3. unfold ChunkStore.retrieve, resolve_mapping. rewrite Hmap.
  destruct (generate_random 32 rng3) as [salt3 rng3']. cbn [snd].
  assert (Hpc : plain_content get_chunk st2 (chunk_size_ st) payload1 hashes1).
  { split; [exact Hn1|]. intros i h Hi. apply Hkeep, Hent1, Hi. }
  assert (Hloop : ∀ rest pre,
            hashes1 = pre ++ rest →
            retrieve_loop (derive_key content_id1 salt3) rest st2
              (take (Z.to_nat (Z.of_nat (length pre) * chunk_size_ st)) payload1) =
            (st2, Ok payload1)).
  { destruct Hpc as [Hn Hent].
    induction rest as [|h rest IH]; intros pre Hsplit.
    - rewrite app_nil_r in Hsplit. subst pre. cbn. rewrite Hn, take_all_chunks by lia.
      reflexivity.
    - assert (Hi : hashes1 !! length pre = Some h).
      { rewrite Hsplit, lookup_app_r, Nat.sub_diag by lia. reflexivity. }
      destruct (Hent _ _ Hi) as (c & Hc & Henc & _ & Hdata & Hsz).
      apply lookup_lt_Some in Hi as Hilt.
      pose proof (ordinal_in_range (chunk_size_ st) (Z.of_nat (length payload1)) (length pre)
                    ltac:(lia) ltac:(lia) ltac:(lia)) as Hir.
      cbn [ChunkStore.retrieve_loop]. rewrite Hc, Henc.
      unfold ChunkStore.decompress. rewrite Hdata, Hz by lia.
      rewrite Hsz, Nat2Z.id, Nat.sub_diag. cbn [replicate].
      rewrite app_nil_r, take_slice by lia.
      specialize (IH (pre ++ [h])). rewrite length_app in IH. cbn [length] in IH.
      replace (length pre + 1)%nat with (S (length pre)) in IH by lia.
      apply IH. rewrite <- app_assoc. exact Hsplit. }
  specialize (Hloop hashes1 [] eq_refl).
  change (take (Z.to_nat (Z.of_nat (length (@nil string)) * chunk_size_ st)) payload1)
    with (@nil byte) in Hloop.
  rewrite Hloop. reflexivity.
Qed.

(** *** The errors of [retrieve] *)

Abbreviation decompress := (ChunkStore.decompress ZSTD_decompress).
Abbreviation aes_gcm_decrypt := (ChunkStore.aes_gcm_decrypt AES_256_GCM_open).

Lemma resolve_mapping_fetch content_id st st1 hashes :
  resolve_mapping content_id st = Some (st1, hashes) → ∀ h, fetch h st1 = fetch h st.
Proof.
  unfold resolve_mapping. intros H h.
  destruct (content_map_ st !! content_id); [inversion H; reflexivity|].
  destruct (db_ st !! ("content_map:" ++ content_id)%string); [|discriminate].
  inversion H. reflexivity.
Qed.

(** An error of the loop is the error of one listed chunk, as the store
    had it when the loop began. *)
Lemma retrieve_loop_error key hashes :
  ∀ st acc st' e,
    retrieve_loop key hashes st acc = (st', Err e) →
    ∃ h, h ∈ hashes ∧
      match e with
      | ContentNotFound _ => False
      | ChunkNotFound x => x = h ∧ fetch h st = None
      | AuthenticationFailed =>
          ∃ c, fetch h st = Some c ∧ is_encrypted c = true ∧
               AES_256_GCM_open key (iv c) (tag c) (data c) = None
      | DecompressionFailed =>
          ∃ c d, fetch h st = Some c ∧
                 (if is_encrypted c
                  then AES_256_GCM_open key (iv c) (tag c) (data c) = Some d
                  else d = data c) ∧
                 ZSTD_decompress d (original_size c) = None
      end.
Proof.
  induction hashes as [|h hashes IH]; intros st acc st' e H; [discriminate|].
  cbn [ChunkStore.retrieve_loop] in H.
  assert (Hstep : ∀ s c,
            fetch h st = Some c → (∀ x, fetch x s = fetch x st) →
            match
              (if is_encrypted c then aes_gcm_decrypt (data c) key (iv c) (tag c)
               else Ok (data c))
            with
            | Err e0 => (s, Err e0)
            | Ok chunk_data =>
                match decompress chunk_data (original_size c) with
                | Err e0 => (s, Err e0)
                | Ok decompressed => retrieve_loop key hashes s (acc ++ decompressed)
                end
            end = (st', Err e) →
            ∃ h0, h0 ∈ h :: hashes ∧
              match e with
              | ContentNotFound _ => False
              | ChunkNotFound x => x = h0 ∧ fetch h0 st = None
              | AuthenticationFailed =>
                  ∃ c, fetch h0 st = Some c ∧ is_encrypted c = true ∧
                       AES_256_GCM_open key (iv c) (tag c) (data c) = None
              | DecompressionFailed =>
                  ∃ c d, fetch h0 st = Some c ∧
                         (if is_encrypted c
                          then AES_256_GCM_open key (iv c) (tag c) (data c) = Some d
                          else d = data c) ∧
                         ZSTD_decompress d (original_size c) = None
              end).
  { intros s c Hc Hs Hrun.
    assert (Hdec : ∀ d,
              (if is_encrypted c
               then AES_256_GCM_open key (iv c) (tag c) (data c) = Some d
               else d = data c) →
              match decompress d (original_size c) with
              | Err e0 => (s, Err e0)
              | Ok decompressed => retrieve_loop key hashes s (acc ++ decompressed)
              end = (st', Err e) →
              ∃ h0, h0 ∈ h :: hashes ∧
                match e with
                | ContentNotFound _ => False
                | ChunkNotFound x => x = h0 ∧ fetch h0 st = None
                | AuthenticationFailed =>
                    ∃ c, fetch h0 st = Some c ∧ is_encrypted c = true ∧
                         AES_256_GCM_open key (iv c) (tag c) (data c) = None
                | DecompressionFailed =>
                    ∃ c d, fetch h0 st = Some c ∧
                           (if is_encrypted c
                            then AES_256_GCM_open key (iv c) (tag c) (data c) = Some d
                            else d = data c) ∧
                           ZSTD_decompress d (original_size c) = None
                end).
    { intros d Hd Hrun'. unfold ChunkStore.decompress in Hrun'.
      destruct (ZSTD_decompress d (original_size c)) as [content|] eqn:Ez.
      - destruct (IH _ _ _ _ Hrun') as (h0 & Hin & He).
        exists h0. split; [right; exact Hin|].
        destruct e; try exact He; rewrite <- Hs; exact He.
      - inversion Hrun'; subst. exists h. split; [left|]. exists c, d. auto. }
    destruct (is_encrypted c) eqn:Eenc.
    - unfold ChunkStore.aes_gcm_decrypt in Hrun.
      destruct (AES_256_GCM_open key (iv c) (tag c) (data c)) as [pt|] eqn:Eo.
      + apply (Hdec pt); [reflexivity|exact Hrun].
      + inversion Hrun; subst. exists h. split; [left|]. exists c. auto.
    - apply (Hdec (data c)); [reflexivity|exact Hrun]. }
  destruct (get_chunk h st) as [c|] eqn:Eg.
  - apply (Hstep st c); [unfold fetch; rewrite Eg; reflexivity|reflexivity|exact H].
  - destruct (load_chunk h st) as [c|] eqn:El.
    + assert (Hf : fetch h st = Some c) by (unfold fetch; rewrite Eg; exact El).
      apply (Hstep (cache h c st) c Hf); [apply fetch_cache, Hf|exact H].
    + inversion H; subst. exists h. split; [left|]. split; [reflexivity|].
      unfold fetch. rewrite Eg. exact El.
Qed.

(** X5: [retrieve] reports "Content not found" exactly for an identifier
    that has a hash list neither in memory nor in the table, and then
    leaves the store as it was and draws no random byte. *)
Theorem retrieve_content_not_found content_id st rng :
  ((∃ x, (retrieve content_id st rng).1.1 = Err (ContentNotFound x)) ↔
   content_map_ st !! content_id = None ∧
   db_ st !! ("content_map:" ++ content_id)%string = None) ∧
  (content_map_ st !! content_id = None →
   db_ st !! ("content_map:" ++ content_id)%string = None →
   retrieve content_id st rng = (Err (ContentNotFound content_id), st, rng)).
Proof.
  assert (Hunknown : content_map_ st !! content_id = None →
            db_ st !! ("content_map:" ++ content_id)%string = None →
            retrieve content_id st rng = (Err (ContentNotFound content_id), st, rng)).
  { intros H1 H2. unfold ChunkStore.retrieve, resolve_mapping. rewrite H1, H2. reflexivity. }
  split; [|exact Hunknown]. split.
  - intros [x Hx]. unfold ChunkStore.retrieve in Hx.
    destruct (resolve_mapping content_id st) as [[st1 hashes]|] eqn:Er.
    + exfalso. destruct (generate_random 32 rng) as [salt rng1].
      destruct (retrieve_loop (derive_key content_id salt) hashes st1 [])
        as [st2 res] eqn:El. cbn in Hx. subst res.
      apply retrieve_loop_error in El as (h & _ & []).
    + unfold resolve_mapping in Er.
      destruct (content_map_ st !! content_id); [discriminate|].
      destruct (db_ st !! ("content_map:" ++ content_id)%string); [discriminate|].
      split; reflexivity.
  - intros [H1 H2]. exists content_id. rewrite (Hunknown H1 H2). reflexivity.
Qed.


(** X7: [store] files the hashes it returns under the content
    identifier, replacing an earlier list: [list_chunks] then returns
    them and [get_content_address] is the hash of their concatenation;
    the lists and addresses of the other identifiers, and the chunk
    size, are left as they were. *)
Theorem store_records payload content_id encrypt st rng :
  0 < chunk_size_ st < 2 ^ 64 →
  Z.of_nat (length payload) < 2 ^ 63 →
  ∃ hashes st' rng',
    store payload content_id encrypt st rng = Some (hashes, st', rng') ∧
    list_chunks content_id st' = hashes ∧
    ChunkStore.get_content_address SHA256 content_id st' =
      compute_hash (list_byte_of_string (combined hashes)) ∧
    chunk_size_ st' = chunk_size_ st ∧
    ∀ other, other ≠ content_id →
      list_chunks other st' = list_chunks other st ∧
      ChunkStore.get_content_address SHA256 other st' =
        ChunkStore.get_content_address SHA256 other st.
Proof.
  intros Hk Hl.
  destruct (store_spec payload content_id encrypt st rng Hk Hl)
    as (hashes & st' & rng' & E & (_ & Hks & _) & Hcm).
  exists hashes, st', rng'. split; [exact E|].
  unfold ChunkStore.list_chunks, ChunkStore.get_content_address. rewrite Hcm.
  rewrite lookup_insert_eq. split; [reflexivity|]. split; [reflexivity|].
  split; [exact Hks|]. intros other Hne.
  rewrite lookup_insert_ne by congruence. split; reflexivity.
Qed.

(** X24: [store] files every chunk under the SHA-256 digest, in
    hexadecimal, of the bytes it keeps for it. Each hash it returns
    leads [get_chunk] to a chunk that carries this hash, whose
    [is_encrypted] flag is the [encrypt] argument and whose bytes are
    the compressed bytes of a stretch of the payload or, with
    encryption, their AES-GCM ciphertext under the key of the call and
    the iv of the chunk, with the tag kept beside. *)
Theorem store_content_addressed payload content_id encrypt st rng :
  0 < chunk_size_ st < 2 ^ 64 →
  Z.of_nat (length payload) < 2 ^ 63 →
  ∃ hashes st' rng',
    store payload content_id encrypt st rng = Some (hashes, st', rng') ∧
    ∀ h, h ∈ hashes →
      ∃ c (j : nat),
        get_chunk h st' = Some c ∧ hash c = h ∧ h = compute_hash (data c) ∧
        is_encrypted c = encrypt ∧ hashes !! j = Some h ∧
        if encrypt
        then AES_256_GCM_seal (derive_key content_id (generate_random 32 rng).1) (iv c)
               (ZSTD_compress (slice (chunk_size_ st) payload j)) = (data c, tag c)
        else data c = ZSTD_compress (slice (chunk_size_ st) payload j).
Proof.
  intros Hk Hl.
  destruct (store_spec payload content_id encrypt st rng Hk Hl)
    as (hashes & st' & rng' & E & (_ & _ & Hacc) & _).
  exists hashes, st', rng'. split; [exact E|]. intros h Hh.
  apply list_elem_of_lookup in Hh as [i Hi].
  destruct (Hacc i h Hi) as [_ (c & j & Hc & Hhc & Hj & Hm)].
  destruct Hm as [_ _ Hfl Hhash Hdata].
  exists c, j. split; [exact Hc|]. split; [exact Hhc|].
  split; [congruence|]. split; [exact Hfl|]. split; [exact Hj|exact Hdata].
Qed.

(** *** Encrypted chunks, read back under the key that sealed them *)

Abbreviation gcm_round_trip := (ChunkStore.gcm_round_trip AES_256_GCM_seal AES_256_GCM_open).

Lemma retrieve_loop_encrypted payload key k st hashes :
  zstd_round_trip → gcm_round_trip → 0 < k → NoDup hashes →
  Z.of_nat (length hashes) = chunk_count k (Z.of_nat (length payload)) →
  loop_inv payload key true k (length hashes) st hashes →
  ∀ rest pre,
    hashes = pre ++ rest →
    retrieve_loop key rest st (take (Z.to_nat (Z.of_nat (length pre) * k)) payload) =
    (st, Ok payload).
Proof.
  intros Hz Hg Hk Hnd Hn (Hlen & Hks & Hacc).
  induction rest as [|h rest IH]; intros pre Hsplit.
  - rewrite app_nil_r in Hsplit. subst pre. cbn. rewrite Hn, take_all_chunks by lia.
    reflexivity.
  - assert (Hi : hashes !! length pre = Some h).
    { rewrite Hsplit, lookup_app_r, Nat.sub_diag by lia. reflexivity. }
    destruct (Hacc _ _ Hi) as [_ (c & j & Hc & Hhc & Hj & Hmj)].
    assert (j = length pre) by exact (NoDup_lookup _ _ _ _ Hnd Hj Hi). subst j.
    destruct Hmj as [_ Hsz Hfl _ Hseal].
    apply lookup_lt_Some in Hi as Hilt.
    pose proof (ordinal_in_range k (Z.of_nat (length payload)) (length pre) Hk
                  ltac:(lia) ltac:(lia)) as Hir.
    cbn [ChunkStore.retrieve_loop]. unfold get_chunk. rewrite Hc, Hfl.
    unfold ChunkStore.aes_gcm_decrypt.
    pose proof (Hg key (iv c) (ZSTD_compress (slice k payload (length pre)))) as Hopen.
    rewrite Hseal in Hopen. cbn [fst snd] in Hopen. rewrite Hopen.
    unfold ChunkStore.decompress.
    rewrite Hz by (rewrite slice_length, Hsz by lia; lia).
    rewrite Hsz, <- slice_length, Nat2Z.id, Nat.sub_diag by lia. cbn [replicate].
    rewrite app_nil_r, take_slice by lia.
    specialize (IH (pre ++ [h])). rewrite length_app in IH. cbn [length] in IH.
    replace (length pre + 1)%nat with (S (length pre)) in IH by lia.
    apply IH. rewrite <- app_assoc. exact Hsplit.
Qed.

(** X26: the fresh salt is all that stands between [retrieve] and an
    encrypted content. After [store(P, C, true)] has returned pairwise
    distinct hashes, a [retrieve(C)] whose salt derives the key that the
    salt of the [store] derived returns [P]; zstd is assumed to
    round-trip and AES-GCM to open what it sealed under the same key and
    iv. *)
Theorem encrypted_retrieve_same_key payload content_id st rng :
  zstd_round_trip → gcm_round_trip →
  0 < chunk_size_ st < 2 ^ 64 →
  Z.of_nat (length payload) < 2 ^ 63 →
  ∃ hashes st' rng',
    store payload content_id true st rng = Some (hashes, st', rng') ∧
    ∀ rng2,
      NoDup hashes →
      derive_key content_id (generate_random 32 rng2).1 =
      derive_key content_id (generate_random 32 rng).1 →
      retrieve content_id st' rng2 = (Ok payload, st', (generate_random 32 rng2).2).
Proof.
  intros Hz Hg Hk Hl.
  destruct (store_spec payload content_id true st rng Hk Hl)
    as (hashes & st' & rng' & E & Hinv & Hcm).
  exists hashes, st', rng'. split; [exact E|]. intros rng2 Hnd Hkey.
  unfold ChunkStore.retrieve, resolve_mapping. rewrite Hcm, lookup_insert_eq.
  destruct (generate_random 32 rng2) as [salt2 rng2'] eqn:E2. cbn [fst snd] in *.
  pose proof Hinv as (Hlen & Hks & _).
  pose proof (chunk_count_le_length (chunk_size_ st) (Z.of_nat (length payload))
                ltac:(lia) ltac:(lia)) as Hn.
  rewrite <- Hlen in Hinv. rewrite Hkey.
  pose proof (retrieve_loop_encrypted payload _ (chunk_size_ st) st' hashes Hz Hg
                ltac:(lia) Hnd ltac:(lia) Hinv hashes [] eq_refl) as Hloop.
  change (take (Z.to_nat (Z.of_nat (length (@nil string)) * chunk_size_ st)) payload)
    with (@nil byte) in Hloop.
  unfold ChunkStore.derive_key in Hloop |- *. rewrite Hloop. reflexivity.
Qed.

End Properties.

(** *** The stand-ins have the assumed laws *)

Lemma standin_zstd_round_trip :
  zstd_round_trip Standin.zstd_compress Standin.zstd_decompress.
Proof.
  intros d capacity H. unfold Standin.zstd_decompress, Standin.zstd_compress.
  rewrite decide_True by exact H. reflexivity.
Qed.

Lemma standin_sha256_collision_free : sha256_collision_free Standin.sha256.
Proof. intros a b H. exact H. Qed.

Lemma to_N_injective (a b : list byte) : map Byte.to_N a = map Byte.to_N b → a = b.
Proof.
  revert b. induction a as [|x a IH]; intros [|y b] H; try discriminate; [reflexivity|].
  cbn in H. inversion H as [[Hxy Hab]]. f_equal; [|apply IH, Hab].
  apply (f_equal Byte.of_N) in Hxy. rewrite !Byte.of_to_N in Hxy. congruence.
Qed.

Lemma standin_gcm_rejects_other_keys :
  gcm_rejects_other_keys Standin.gcm_seal Standin.gcm_open.
Proof.
  intros key key' iv plaintext Hne. unfold Standin.gcm_open, Standin.gcm_seal. cbn.
  rewrite decide_False; [reflexivity|]. intros H. apply Hne, to_N_injective, H.
Qed.

(** S1 of the specification in small: five bytes in chunks of two. *)
Lemma store_chunk_boundaries_witness :
  ∃ hashes st' rng',
    store Standin.zstd_compress Standin.pbkdf2 Standin.gcm_seal Standin.sha256
      Standin.five_bytes "doc1" false (open 2 ∅) (Standin.constant_rng "000") =
    Some (hashes, st', rng') ∧
    Z.of_nat (length hashes) = (5 + 2 - 1) / 2 ∧
    ∀ (i : nat) (h : string), hashes !! i = Some h →
      ∃ c, get_chunk h st' = Some c ∧
           0 ≤ index c < (5 + 2 - 1) / 2 ∧
           hashes !! Z.to_nat (index c) = Some h ∧
           (NoDup hashes → index c = Z.of_nat i) ∧
           original_size c =
             if index c <? (5 + 2 - 1) / 2 - 1 then 2
             else if 5 mod 2 =? 0 then 2 else 5 mod 2.
Proof.
  apply (store_chunk_boundaries Standin.zstd_compress Standin.pbkdf2 Standin.gcm_seal
           Standin.sha256 Standin.five_bytes "doc1" false (open 2 ∅) (Standin.constant_rng "000")).
  - cbn. lia.
  - cbn. lia.
Defined.


Lemma encrypted_retrieve_fails_witness :
  ∃ hashes st' rng',
    store Standin.zstd_compress Standin.pbkdf2 Standin.gcm_seal Standin.sha256
      Standin.five_bytes "doc1" true (open 2 ∅) (Standin.constant_rng "000") =
    Some (hashes, st', rng') ∧
    retrieve Standin.zstd_decompress Standin.pbkdf2 Standin.gcm_open "doc1" st'
      (Standin.constant_rng "001") =
    (Err AuthenticationFailed, st', (generate_random 32 (Standin.constant_rng "001")).2).
Proof.
  apply (encrypted_retrieve_fails Standin.zstd_compress Standin.zstd_decompress
           Standin.pbkdf2 Standin.gcm_seal Standin.gcm_open Standin.sha256).
  - exact standin_gcm_rejects_other_keys.
  - cbn. lia.
  - cbn. lia.
  - discriminate.
  - discriminate.
Defined.

Lemma store_unencrypted_deterministic_witness :
  (λ r, r.1.1) <$>
    store Standin.zstd_compress Standin.pbkdf2 Standin.gcm_seal Standin.sha256
      Standin.five_bytes "doc1" false (open 2 ∅) (Standin.constant_rng "000") =
  (λ r, r.1.1) <$>
    store Standin.zstd_compress Standin.pbkdf2 Standin.gcm_seal Standin.sha256
      Standin.five_bytes "doc1" false (open 2 ∅) (Standin.constant_rng "001").
Proof.
  apply (store_unencrypted_deterministic Standin.zstd_compress Standin.pbkdf2
           Standin.gcm_seal Standin.sha256).
  reflexivity.
Defined.

(** *** The added properties, on the stand-ins *)

Lemma standin_tagged_collision_free : sha256_collision_free Standin.sha256_tagged.
Proof. intros a b H. unfold Standin.sha256_tagged in H. congruence. Qed.

Lemma standin_tagged_not_empty : digest_not_empty Standin.sha256_tagged.
Proof. intros d. discriminate. Qed.

Lemma standin_compressed_fits : compressed_fits Standin.zstd_compress 2.
Proof. intros d Hd. unfold Standin.zstd_compress. lia. Qed.

Lemma load_persisted_chunk_witness :
  load_chunk "ab" (persist_chunk "ab" Standin.two_byte_chunk (open 2 ∅)) =
    Some (filed "ab" Standin.two_byte_chunk) ∧
  (∀ h', h' ≠ "ab" →
     load_chunk h' (persist_chunk "ab" Standin.two_byte_chunk (open 2 ∅)) =
     load_chunk h' (open 2 ∅)) ∧
  (∀ h', db_ (open 2 ∅) !! ("chunk:" ++ h')%string = None → load_chunk h' (open 2 ∅) = None).
Proof.
  apply (load_persisted_chunk "ab" Standin.two_byte_chunk (open 2 ∅)).
  unfold fits_record. cbn. lia.
Defined.

Lemma parse_join_mapping_witness :
  parse_mapping (join_mapping ["ab"; ""; "cd"]) =
    filter (λ h, h ≠ EmptyString) ["ab"; ""; "cd"] ∧
  (Forall (λ h, h ≠ EmptyString) ["ab"; ""; "cd"] →
   parse_mapping (join_mapping ["ab"; ""; "cd"]) = ["ab"; ""; "cd"]).
Proof.
  apply (parse_join_mapping ["ab"; ""; "cd"]).
  repeat constructor.
Defined.

Lemma store_restart_retrieve_witness :
  ∃ hashes st' rng',
    store Standin.zstd_compress Standin.pbkdf2 Standin.gcm_seal Standin.sha256_tagged
      Standin.five_bytes "doc1" false (open 2 ∅) (Standin.constant_rng "000") =
    Some (hashes, st', rng') ∧
    ∀ rng2, ∃ st2,
      retrieve Standin.zstd_decompress Standin.pbkdf2 Standin.gcm_open "doc1"
        (open 7 (db_ st')) rng2 =
        (Ok Standin.five_bytes, st2, (generate_random 32 rng2).2) ∧
      list_chunks "doc1" st2 = hashes.
Proof.
  apply (store_restart_retrieve Standin.zstd_compress Standin.zstd_decompress
           Standin.pbkdf2 Standin.gcm_seal Standin.gcm_open Standin.sha256_tagged).
  - exact standin_zstd_round_trip.
  - exact standin_tagged_collision_free.
  - exact standin_tagged_not_empty.
  - exact standin_compressed_fits.
  - cbn. lia.
  - cbn. lia.
Defined.

Lemma store_keeps_other_content_witness :
  ∃ hashes1 st1 rng1 hashes2 st2 rng2,
    store Standin.zstd_compress Standin.pbkdf2 Standin.gcm_seal Standin.sha256
      Standin.five_bytes "doc1" false (open 2 ∅) (Standin.constant_rng "000") =
    Some (hashes1, st1, rng1) ∧
    store Standin.zstd_compress Standin.pbkdf2 Standin.gcm_seal Standin.sha256
      ["001"; "002"]%byte "doc2" false st1 rng1 = Some (hashes2, st2, rng2) ∧
    list_chunks "doc1" st2 = hashes1 ∧
    ∀ rng3,
      retrieve Standin.zstd_decompress Standin.pbkdf2 Standin.gcm_open "doc1" st2 rng3 =
      (Ok Standin.five_bytes, st2, (generate_random 32 rng3).2).
Proof.
  apply (store_keeps_other_content Standin.zstd_compress Standin.zstd_decompress
           Standin.pbkdf2 Standin.gcm_seal Standin.gcm_open Standin.sha256).
  - exact standin_zstd_round_trip.
  - exact standin_sha256_collision_free.
  - cbn. lia.
  - cbn. lia.
  - cbn. lia.
  - discriminate.
Defined.


Lemma store_records_witness :
  ∃ hashes st' rng',
    store Standin.zstd_compress Standin.pbkdf2 Standin.gcm_seal Standin.sha256
      Standin.five_bytes "doc1" true (open 2 ∅) (Standin.constant_rng "000") =
    Some (hashes, st', rng') ∧
    list_chunks "doc1" st' = hashes ∧
    get_content_address Standin.sha256 "doc1" st' =
      compute_hash Standin.sha256 (list_byte_of_string (combined hashes)) ∧
    chunk_size_ st' = chunk_size_ (open 2 ∅) ∧
    ∀ other, other ≠ "doc1" →
      list_chunks other st' = list_chunks other (open 2 ∅) ∧
      get_content_address Standin.sha256 other st' =
        get_content_address Standin.sha256 other (open 2 ∅).
Proof.
  apply (store_records Standin.zstd_compress Standin.pbkdf2 Standin.gcm_seal Standin.sha256).
  - cbn. lia.
  - cbn. lia.
Defined.

Lemma store_content_addressed_witness :
  ∃ hashes st' rng',
    store Standin.zstd_compress Standin.pbkdf2 Standin.gcm_seal Standin.sha256
      Standin.five_bytes "doc1" true (open 2 ∅) (Standin.constant_rng "000") =
    Some (hashes, st', rng') ∧
    ∀ h, h ∈ hashes →
      ∃ c (j : nat),
        get_chunk h st' = Some c ∧ hash c = h ∧
        h = compute_hash Standin.sha256 (data c) ∧
        is_encrypted c = true ∧ hashes !! j = Some h ∧
        Standin.gcm_seal
          (derive_key Standin.pbkdf2 "doc1"
             (generate_random 32 (Standin.constant_rng "000")).1)
          (iv c) (Standin.zstd_compress (slice (chunk_size_ (open 2 ∅)) Standin.five_bytes j)) =
        (data c, tag c).
Proof.
  apply (store_content_addressed Standin.zstd_compress Standin.pbkdf2 Standin.gcm_seal
           Standin.sha256 Standin.five_bytes "doc1" true (open 2 ∅)
           (Standin.constant_rng "000")).
  - cbn. lia.
  - cbn. lia.
Defined.

Lemma standin_gcm_round_trip : gcm_round_trip Standin.gcm_seal Standin.gcm_open.
Proof.
  intros key iv plaintext. unfold Standin.gcm_open, Standin.gcm_seal. cbn.
  rewrite decide_True by reflexivity. reflexivity.
Qed.

Lemma encrypted_retrieve_same_key_witness :
  ∃ hashes st' rng',
    store Standin.zstd_compress Standin.pbkdf2 Standin.gcm_seal Standin.sha256
      Standin.five_bytes "doc1" true (open 2 ∅) (Standin.constant_rng "000") =
    Some (hashes, st', rng') ∧
    ∀ rng2,
      NoDup hashes →
      derive_key Standin.pbkdf2 "doc1" (generate_random 32 rng2).1 =
      derive_key Standin.pbkdf2 "doc1" (generate_random 32 (Standin.constant_rng "000")).1 →
      retrieve Standin.zstd_decompress Standin.pbkdf2 Standin.gcm_open "doc1" st' rng2 =
      (Ok Standin.five_bytes, st', (generate_random 32 rng2).2).
Proof.
  apply (encrypted_retrieve_same_key Standin.zstd_compress Standin.zstd_decompress
           Standin.pbkdf2 Standin.gcm_seal Standin.gcm_open Standin.sha256).
  - exact standin_zstd_round_trip.
  - exact standin_gcm_round_trip.
  - cbn. lia.
  - cbn. lia.
Defined.

End ChunkStoreSpec.

(** ** Scheduler *)

Module SchedulerSpec.
Import Telemetry Scheduler.

Section Properties.
Context {F : Float.Ops}.
Variable std_sort : list (string * Float.t) → list (string * Float.t).

(** What the proofs use of [std::sort] and of [float]: sorting permutes,
    and [0.0f > 0.0f] is false. *)
Hypothesis std_sort_permutes : ∀ l, std_sort l ≡ₚ l.
Hypothesis zero_not_positive : Float.ltb Float.zero Float.zero = false.

Lemma selected_scored candidates scores count d :
  d ∈ select_devices std_sort candidates scores count →
  ∃ sc, (d, sc) ∈ zip candidates scores ∧ Float.ltb Float.zero sc = true.
Proof.
  unfold select_devices. intros Hd.
  apply list_elem_of_fmap in Hd as ([d' sc] & -> & Hd).
  apply elem_of_take in Hd as (i & Hd & _).
  apply list_elem_of_lookup_2 in Hd.
  rewrite std_sort_permutes in Hd.
  apply list_elem_of_filter in Hd as [Hpos Hd].
  exists sc. split; [exact Hd|exact Hpos].
Qed.

Lemma zip_scored {A} (entries : list (string * A)) (f : string * A → Float.t) d sc :
  (d, sc) ∈ zip (map fst entries) (map f entries) →
  ∃ a, (d, a) ∈ entries ∧ sc = f (d, a).
Proof.
  induction entries as [|[d' a'] entries IH]; cbn; intros H.
  - apply elem_of_nil in H. destruct H.
  - apply elem_of_cons in H as [H|H].
    + inversion H; subst. exists a'. split; [left|reflexivity].
    + destruct (IH H) as (a & Ha & ->). exists a. split; [right; exact Ha|reflexivity].
Qed.

Lemma selected_registered (s : Scheduler) (f : string * Telemetry → Float.t) count d :
  d ∈ select_devices std_sort (map fst (map_to_list (devices_ s)))
        (map f (map_to_list (devices_ s))) count →
  ∃ tm, devices_ s !! d = Some tm ∧ Float.ltb Float.zero (f (d, tm)) = true.
Proof.
  intros Hd. apply selected_scored in Hd as (sc & Hz & Hpos).
  apply zip_scored in Hz as (tm & Htm & ->).
  apply elem_of_map_to_list in Htm. exists tm. split; [exact Htm|exact Hpos].
Qed.

Lemma gated_score tm size :
  available_storage_mb tm < size / 2 ^ 20 →
  score_device_for_storage tm size = Float.zero.
Proof.
  intros H. unfold score_device_for_storage.
  change (1024 * 1024) with (2 ^ 20).
  destruct (Z.ltb_spec (available_storage_mb tm) (size / 2 ^ 20)); [reflexivity|lia].
Qed.

Lemma place_chunk_returns s size hash :
  ∃ p, place_chunk std_sort s size hash = Some p ∧
       chunk_hash p = hash ∧
       device_ids p =
         select_devices std_sort (map fst (map_to_list (devices_ s)))
           (map (λ e, score_device_for_storage e.2 size) (map_to_list (devices_ s)))
           (replication_factor_ s).
Proof.
  unfold place_chunk.
  set (ids := select_devices _ _ _ _).
  assert (Hreg : ∀ d, d ∈ ids → is_Some (devices_ s !! d)).
  { intros d Hd. apply selected_registered in Hd as (tm & Htm & _). eauto. }
  assert (Hfold : ∀ l acc, (∀ d, d ∈ l → is_Some (devices_ s !! d)) →
            is_Some (foldl (λ acc device_id,
                        total ← acc; tm ← devices_ s !! device_id;
                        Some (Float.add total (score_device_for_storage tm size)))
                      (Some acc) l)).
  { induction l as [|d l IH]; intros acc Hl; cbn; [eauto|].
    destruct (Hl d ltac:(left)) as [tm ->]. cbn. apply IH.
    intros d' Hd'. apply Hl. right. exact Hd'. }
  destruct (Hfold ids Float.zero Hreg) as [total ->]. cbn.
  eexists. split; [reflexivity|]. split; reflexivity.
Qed.


End Properties.

Lemma insert_desc_permutes {F : Float.Ops} (p : string * Float.t) l :
  insert_desc p l ≡ₚ p :: l.
Proof.
  induction l as [|q l IH]; cbn; [reflexivity|].
  destruct (Float.ltb q.2 p.2); [reflexivity|].
  rewrite IH. apply Permutation_swap.
Qed.

Lemma insertion_sort_permutes {F : Float.Ops} (l : list (string * Float.t)) :
  insertion_sort l ≡ₚ l.
Proof.
  induction l as [|p l IH]; [reflexivity|].
  unfold insertion_sort in *. cbn [foldr].
  rewrite insert_desc_permutes, IH. reflexivity.
Qed.



(** *** What [select_devices] returns *)

Section Selection.
Context {F : Float.Ops}.
Variable std_sort : list (string * Float.t) → list (string * Float.t).
Hypothesis sort_permutes : ∀ l, std_sort l ≡ₚ l.

Lemma zip_entries {A} (entries : list (string * A)) (f : string * A → Float.t) :
  zip (map fst entries) (map f entries) = map (λ e, (e.1, f e)) entries.
Proof. induction entries as [|e entries IH]; cbn; [reflexivity|]. rewrite IH. reflexivity. Qed.

Lemma filter_scored {A} (entries : list (string * A)) (f : string * A → Float.t) :
  filter (λ p : string * Float.t, Float.ltb Float.zero p.2 = true)
    (map (λ e, (e.1, f e)) entries) =
  map (λ e, (e.1, f e)) (filter (λ e, Float.ltb Float.zero (f e) = true) entries).
Proof.
  induction entries as [|e entries IH]; [reflexivity|]. cbn [map].
  rewrite !filter_cons. cbn [snd]. case_decide; cbn [map]; rewrite IH; reflexivity.
Qed.

Lemma NoDup_fst_filter {A} (entries : list (string * A)) (P : string * A → Prop)
    `{∀ e, Decision (P e)} :
  NoDup (map fst entries) → NoDup (map fst (filter P entries)).
Proof.
  intros Hnd. induction entries as [|e entries IH]; [constructor|].
  cbn in Hnd. apply NoDup_cons in Hnd as [Hne Hnd].
  rewrite filter_cons. case_decide; [|apply IH, Hnd].
  cbn. apply NoDup_cons. split; [|apply IH, Hnd].
  intros Hin. apply Hne. apply list_elem_of_fmap in Hin as (x & -> & Hx).
  apply list_elem_of_filter in Hx as [_ Hx]. apply list_elem_of_fmap. exists x. auto.
Qed.

Lemma NoDup_fst_unique {A} (entries : list (string * A)) d a a' :
  NoDup (map fst entries) → (d, a) ∈ entries → (d, a') ∈ entries → a = a'.
Proof.
  intros Hnd H1 H2. apply list_elem_of_lookup in H1 as [i Hi], H2 as [j Hj].
  assert (i = j).
  { apply (NoDup_lookup _ i j d Hnd); rewrite list_lookup_fmap.
    - rewrite Hi. reflexivity.
    - rewrite Hj. reflexivity. }
  subst j. congruence.
Qed.

(** The devices selected among the entries of a map, ranked by [f]. *)
Lemma select_entries {A} (entries : list (string * A)) (f : string * A → Float.t) count :
  NoDup (map fst entries) →
  let selected := select_devices std_sort (map fst entries) (map f entries) count in
  NoDup selected ∧
  length selected =
    Z.to_nat (Z.min count
                (Z.of_nat (length (filter (λ e, Float.ltb Float.zero (f e) = true) entries)))) ∧
  ∀ d, d ∈ selected → ∃ a, (d, a) ∈ entries ∧ Float.ltb Float.zero (f (d, a)) = true.
Proof.
  intros Hnd selected. unfold selected, select_devices.
  rewrite zip_entries, filter_scored.
  set (kept := filter (λ e, Float.ltb Float.zero (f e) = true) entries).
  set (pairs := map (λ e, (e.1, f e)) kept).
  assert (Hlen : length (std_sort pairs) = length kept).
  { rewrite sort_permutes. unfold pairs. apply length_map. }
  assert (Hfst : map fst (std_sort pairs) ≡ₚ map fst kept).
  { rewrite sort_permutes. unfold pairs. rewrite <- list_fmap_compose. reflexivity. }
  rewrite Hlen. split; [|split].
  - apply (sublist_NoDup _ (map fst (std_sort pairs)));
      [|apply (fmap_sublist fst), sublist_take].
    rewrite Hfst. apply NoDup_fst_filter, Hnd.
  - rewrite length_map, length_take, Hlen. lia.
  - intros d Hd. apply list_elem_of_fmap in Hd as ([d0 sc] & -> & Hd).
    apply elem_of_take in Hd as (i & Hd & _). apply list_elem_of_lookup_2 in Hd.
    rewrite sort_permutes in Hd. unfold pairs in Hd.
    apply list_elem_of_fmap in Hd as ([d1 a] & Heq & Hin). inversion Heq; subst.
    apply list_elem_of_filter in Hin as [Hpos Hin]. exists a. auto.
Qed.

Lemma place_chunk_score (s : Scheduler) size hash p :
  place_chunk std_sort s size hash = Some p →
  device_ids p = [] → score p = Float.zero.
Proof.
  unfold place_chunk. intros H Hnil.
  destruct (foldl _ _ _) as [total|]; [|discriminate].
  cbn in H. inversion H; subst p. cbn in *. rewrite Hnil. reflexivity.
Qed.

(** X8: the replica lists that the scheduler hands out. [place_chunks]
    returns one placement per hash, in order, and does not throw; the
    replica list of each of them, like that of [place_shard] and like
    the list of [get_compute_devices], has no device twice, holds only
    registered devices whose score under the ranking in use is
    positive, and has as many devices as were asked for (the replication
    factor, or [count]), or all the devices of positive score when
    there are fewer, and none when a negative number is asked for. A
    placement without replicas has score 0. Sorting is assumed to
    permute. *)
Theorem replicas_selected (s : Scheduler) (size count : Z) (chunk_hashes : list string)
    (shard_id : string) :
  (∃ placements,
     place_chunks std_sort chunk_hashes size s = Some placements ∧
     map chunk_hash placements = chunk_hashes ∧
     ∀ p, p ∈ placements →
       replicas s (λ e, score_device_for_storage e.2 size) (replication_factor_ s)
         (device_ids p) ∧
       (device_ids p = [] → score p = Float.zero)) ∧
  chunk_hash (place_shard std_sort shard_id size s) = shard_id ∧
  replicas s (shard_score size) (replication_factor_ s)
    (device_ids (place_shard std_sort shard_id size s)) ∧
  (device_ids (place_shard std_sort shard_id size s) = [] →
   score (place_shard std_sort shard_id size s) = Float.zero) ∧
  replicas s (λ e, score_device_for_compute e.2) count (get_compute_devices std_sort count s).
Proof.
  assert (Hsel : ∀ f n,
            replicas s f n
              (select_devices std_sort (map fst (map_to_list (devices_ s)))
                 (map f (map_to_list (devices_ s))) n)).
  { intros f n.
    destruct (select_entries (map_to_list (devices_ s)) f n
                (NoDup_fst_map_to_list (devices_ s))) as (H1 & H2 & H3).
    split; [exact H1|]. split; [exact H2|].
    intros d Hd. destruct (H3 d Hd) as (tm & Hin & Hpos).
    exists tm. split; [apply elem_of_map_to_list, Hin|exact Hpos]. }
  split; [|split; [reflexivity|split; [apply (Hsel (shard_score size))|split; [|apply Hsel]]]].
  2:{ unfold place_shard. cbn [device_ids score]. intros ->. reflexivity. }
  unfold place_chunks. induction chunk_hashes as [|h hs IH].
  - exists []. split; [reflexivity|]. split; [reflexivity|].
    intros p Hp. apply elem_of_nil in Hp. destruct Hp.
  - destruct IH as (ps & Eps & Hhs & Hps).
    destruct (place_chunk_returns std_sort sort_permutes s size h) as (p & Ep & Hh & Hids).
    exists (p :: ps). cbn. rewrite Ep. cbn. rewrite Eps. cbn.
    split; [reflexivity|]. split; [cbn; congruence|].
    intros p' Hp'. apply elem_of_cons in Hp' as [->|Hp']; [|apply Hps, Hp'].
    split; [rewrite Hids; apply Hsel|]. apply (place_chunk_score s size h), Ep.
Qed.

(** X27: a device that has been removed is in no replica list, of
    [place_chunks], of [place_shard] or of [get_compute_devices], until
    it is registered again. *)
Theorem removed_device_not_selected (s : Scheduler) (d : string) (size count : Z)
    (chunk_hashes : list string) (shard_id : string) :
  get_telemetry d (remove_device d s) = None ∧
  (∃ placements,
     place_chunks std_sort chunk_hashes size (remove_device d s) = Some placements ∧
     ∀ p, p ∈ placements → d ∉ device_ids p) ∧
  (d ∉ device_ids (place_shard std_sort shard_id size (remove_device d s))) ∧
  (d ∉ get_compute_devices std_sort count (remove_device d s)).
Proof.
  assert (Hgone : devices_ (remove_device d s) !! d = None) by apply lookup_delete_eq.
  assert (Hsel : ∀ f n,
            d ∉ select_devices std_sort (map fst (map_to_list (devices_ (remove_device d s))))
                  (map f (map_to_list (devices_ (remove_device d s)))) n).
  { intros f n Hd.
    apply (SchedulerSpec.selected_registered std_sort sort_permutes) in Hd
      as (tm & Htm & _).
    congruence. }
  split; [exact Hgone|]. split; [|split; [apply Hsel|apply Hsel]].
  unfold place_chunks. induction chunk_hashes as [|h hs IH].
  - exists []. split; [reflexivity|]. intros p Hp. apply elem_of_nil in Hp. destruct Hp.
  - destruct IH as (ps & Eps & Hps).
    destruct (place_chunk_returns std_sort sort_permutes (remove_device d s) size h)
      as (p & Ep & _ & Hids).
    exists (p :: ps). cbn. rewrite Ep. cbn. rewrite Eps. cbn. split; [reflexivity|].
    intros p' Hp'. apply elem_of_cons in Hp' as [->|Hp']; [|apply Hps, Hp'].
    rewrite Hids. apply Hsel.
Qed.

(** *** The selection takes the best *)

Hypothesis sort_descending : ∀ l, descending (std_sort l).

Lemma descending_lookup (l : list (string * Float.t)) i j x y :
  descending l → (i < j)%nat → l !! i = Some x → l !! j = Some y →
  Float.ltb x.2 y.2 = false.
Proof.
  intros Hs. revert i j. induction Hs as [|z l Hs IH Hall]; intros i j Hij Hi Hj.
  - discriminate.
  - destruct j as [|j]; [lia|]. cbn in Hj. destruct i as [|i].
    + cbn in Hi. inversion Hi; subst z. rewrite Forall_forall in Hall.
      apply Hall. eapply list_elem_of_lookup_2. exact Hj.
    + cbn in Hi. apply (IH i j); [lia|exact Hi|exact Hj].
Qed.

Lemma selected_best {A} (entries : list (string * A)) (f : string * A → Float.t) count
    d a d' a' :
  NoDup (map fst entries) → (d, a) ∈ entries → (d', a') ∈ entries →
  d ∈ select_devices std_sort (map fst entries) (map f entries) count →
  d' ∉ select_devices std_sort (map fst entries) (map f entries) count →
  Float.ltb Float.zero (f (d', a')) = true →
  Float.ltb (f (d, a)) (f (d', a')) = false.
Proof.
  intros Hnd Ha Ha' Hd Hd' Hpos. unfold select_devices in Hd, Hd'.
  rewrite zip_entries in Hd, Hd'.
  set (pairs := filter (λ p : string * Float.t, Float.ltb Float.zero p.2 = true)
                  (map (λ e, (e.1, f e)) entries)) in *.
  set (n := Z.to_nat (Z.min count (Z.of_nat (length (std_sort pairs))))) in *.
  apply list_elem_of_fmap in Hd as ([d0 sc] & Hd0 & Hd). cbn in Hd0. subst d0.
  apply elem_of_take in Hd as (i & Hi & Hin).
  assert (Hsc : sc = f (d, a)).
  { apply list_elem_of_lookup_2 in Hi. rewrite sort_permutes in Hi.
    apply list_elem_of_filter in Hi as [_ Hi].
    apply list_elem_of_fmap in Hi as ([d1 a1] & Heq & Hi). inversion Heq; subst.
    rewrite (NoDup_fst_unique entries d1 a a1 Hnd Ha Hi). reflexivity. }
  subst sc.
  assert (Hin' : (d', f (d', a')) ∈ std_sort pairs).
  { rewrite sort_permutes. apply list_elem_of_filter. split; [exact Hpos|].
    apply list_elem_of_fmap. exists (d', a'). split; [reflexivity|exact Ha']. }
  apply list_elem_of_lookup in Hin' as [j Hj].
  assert (n ≤ j)%nat as Hnj.
  { destruct (decide (n ≤ j)%nat) as [H|H]; [exact H|]. exfalso. apply Hd'.
    apply list_elem_of_fmap. exists (d', f (d', a')). split; [reflexivity|].
    apply elem_of_take. exists j. split; [exact Hj|lia]. }
  exact (descending_lookup _ i j _ _ (sort_descending pairs) ltac:(lia) Hi Hj).
Qed.

(** X9: the selection takes the best. No device left out of a replica
    list of [place_chunks], of the replica list of [place_shard] or of
    the list of [get_compute_devices], and whose score under the ranking
    in use is positive, has a greater score than a device of the list;
    sorting is assumed to permute and to leave the pairs in descending
    order of score. *)
Theorem selection_takes_best (s : Scheduler) (d d' : string) (tm tm' : Telemetry) :
  devices_ s !! d = Some tm → devices_ s !! d' = Some tm' →
  (∀ size chunk_hashes placements p,
     place_chunks std_sort chunk_hashes size s = Some placements → p ∈ placements →
     d ∈ device_ids p → d' ∉ device_ids p →
     Float.ltb Float.zero (score_device_for_storage tm' size) = true →
     Float.ltb (score_device_for_storage tm size) (score_device_for_storage tm' size) = false) ∧
  (∀ shard_id size,
     d ∈ device_ids (place_shard std_sort shard_id size s) →
     d' ∉ device_ids (place_shard std_sort shard_id size s) →
     Float.ltb Float.zero (shard_score size (d', tm')) = true →
     Float.ltb (shard_score size (d, tm)) (shard_score size (d', tm')) = false) ∧
  (∀ count,
     d ∈ get_compute_devices std_sort count s →
     d' ∉ get_compute_devices std_sort count s →
     Float.ltb Float.zero (score_device_for_compute tm') = true →
     Float.ltb (score_device_for_compute tm) (score_device_for_compute tm') = false).
Proof.
  intros Hd Hd'.
  assert (Hbest : ∀ (f : string * Telemetry → Float.t) n,
            d ∈ select_devices std_sort (map fst (map_to_list (devices_ s)))
                  (map f (map_to_list (devices_ s))) n →
            d' ∉ select_devices std_sort (map fst (map_to_list (devices_ s)))
                   (map f (map_to_list (devices_ s))) n →
            Float.ltb Float.zero (f (d', tm')) = true →
            Float.ltb (f (d, tm)) (f (d', tm')) = false).
  { intros f n. apply selected_best.
    - apply NoDup_fst_map_to_list.
    - apply elem_of_map_to_list, Hd.
    - apply elem_of_map_to_list, Hd'. }
  split; [|split].
  - intros size chunk_hashes placements p Hplace Hp Hin Hout Hpos.
    assert (Hids : device_ids p =
              select_devices std_sort (map fst (map_to_list (devices_ s)))
                (map (λ e, score_device_for_storage e.2 size) (map_to_list (devices_ s)))
                (replication_factor_ s)).
    { unfold place_chunks in Hplace. revert placements Hplace Hp.
      induction chunk_hashes as [|h hs IH]; intros placements Hplace Hp.
      - cbn in Hplace. inversion Hplace; subst. apply elem_of_nil in Hp. destruct Hp.
      - cbn in Hplace.
        destruct (place_chunk_returns std_sort sort_permutes s size h)
          as (p0 & Ep & _ & Hids0).
        rewrite Ep in Hplace. cbn in Hplace.
        destruct (mapM (place_chunk std_sort s size) hs) as [ps|]; [|discriminate].
        cbn in Hplace. inversion Hplace; subst placements.
        apply elem_of_cons in Hp as [->|Hp]; [exact Hids0|].
        exact (IH ps eq_refl Hp). }
    rewrite Hids in Hin, Hout.
    exact (Hbest (λ e, score_device_for_storage e.2 size) _ Hin Hout Hpos).
  - intros shard_id size Hin Hout Hpos.
    exact (Hbest (shard_score size) _ Hin Hout Hpos).
  - intros count Hin Hout Hpos.
    exact (Hbest (λ e, score_device_for_compute e.2) _ Hin Hout Hpos).
Qed.

End Selection.

(** One device with a mebibyte free, asked for a chunk of 1.5 MiB, for
    a shard and for five compute devices. *)
Lemma replicas_selected_witness :
  (∃ placements,
     place_chunks insertion_sort ["h1"; "h2"] 1572864 (one_device 1) = Some placements ∧
     map chunk_hash placements = ["h1"; "h2"] ∧
     ∀ p, p ∈ placements →
       replicas (one_device 1) (λ e, score_device_for_storage e.2 1572864)
         (replication_factor_ (one_device 1)) (device_ids p) ∧
       (device_ids p = [] → score p = Float.zero)) ∧
  chunk_hash (place_shard insertion_sort "shard" 1572864 (one_device 1)) = "shard" ∧
  replicas (one_device 1) (shard_score 1572864) (replication_factor_ (one_device 1))
    (device_ids (place_shard insertion_sort "shard" 1572864 (one_device 1))) ∧
  (device_ids (place_shard insertion_sort "shard" 1572864 (one_device 1)) = [] →
   score (place_shard insertion_sort "shard" 1572864 (one_device 1)) = Float.zero) ∧
  replicas (one_device 1) (λ e, score_device_for_compute e.2) 5
    (get_compute_devices insertion_sort 5 (one_device 1)).
Proof.
  apply (replicas_selected (F := Float.binary32) insertion_sort insertion_sort_permutes
           (one_device 1) 1572864 5 ["h1"; "h2"] "shard").
Defined.

Lemma removed_device_not_selected_witness :
  get_telemetry "d1" (remove_device "d1" (one_device 1)) = None ∧
  (∃ placements,
     place_chunks insertion_sort ["h1"] 1024 (remove_device "d1" (one_device 1)) =
       Some placements ∧
     ∀ p, p ∈ placements → "d1" ∉ device_ids p) ∧
  ("d1" ∉ device_ids (place_shard insertion_sort "shard" 1024
                        (remove_device "d1" (one_device 1)))) ∧
  ("d1" ∉ get_compute_devices insertion_sort 5 (remove_device "d1" (one_device 1))).
Proof.
  apply (removed_device_not_selected (F := Float.binary32) insertion_sort
           insertion_sort_permutes (one_device 1) "d1" 1024 5 ["h1"] "shard").
Defined.

End SchedulerSpec.

(** ** Consensus *)

Module ConsensusSpec.
Import Consensus.

Global Instance ts_le_trans : Transitive ts_le.
Proof. intros a b c. unfold ts_le. lia. Qed.

Lemma sorted_lookup (l : list DAGEntry) i j x y :
  StronglySorted ts_le l → (i ≤ j)%nat → l !! i = Some x → l !! j = Some y → ts_le x y.
Proof.
  intros Hs Hij Hi Hj.
  destruct (decide (i = j)) as [->|Hne].
  { unfold ts_le. assert (x = y) by congruence. subst. lia. }
  rewrite <- (take_drop j l) in Hs, Hi, Hj.
  apply lookup_lt_Some in Hj as Hjl. rewrite length_app in Hjl.
  assert (length (take j l) = j) as Hlen.
  { rewrite length_take. apply lookup_lt_Some in Hj. rewrite length_app, length_take in Hj.
    rewrite length_take, length_drop in Hjl. lia. }
  rewrite lookup_app_l in Hi by lia.
  rewrite lookup_app_r in Hj by lia.
  eapply StronglySorted_app_1_elem_of; [exact Hs| |].
  - eapply list_elem_of_lookup_2. exact Hi.
  - eapply list_elem_of_lookup_2. exact Hj.
Qed.

(** The bisection finds the partition point of a history in timestamp
    order. *)
Lemma lower_bound_loop_spec history ts fuel :
  StronglySorted ts_le history →
  ∀ first len,
    (len ≤ fuel)%nat → (first + len ≤ length history)%nat →
    (∀ i x, (i < first)%nat → history !! i = Some x → timestamp x < ts) →
    (∀ i x, (first + len ≤ i)%nat → history !! i = Some x → ts ≤ timestamp x) →
    let p := lower_bound_loop fuel history ts first len in
    (p ≤ length history)%nat ∧
    (∀ i x, (i < p)%nat → history !! i = Some x → timestamp x < ts) ∧
    (∀ i x, (p ≤ i)%nat → history !! i = Some x → ts ≤ timestamp x).
Proof.
  intros Hs. induction fuel as [|fuel IH]; intros first len Hfuel Hrange Hlow Hhigh.
  - cbn. assert (len = 0)%nat by lia. subst len.
    split; [lia|]. split; [exact Hlow|]. intros i x Hi. apply Hhigh. lia.
  - cbn [lower_bound_loop]. destruct (decide (len = 0)%nat) as [->|Hlen].
    { split; [lia|]. split; [exact Hlow|]. intros i x Hi. apply Hhigh. lia. }
    pose proof (Nat.div_lt len 2 ltac:(lia) ltac:(lia)) as Hhalf.
    destruct (history !! (first + len / 2)%nat) as [a|] eqn:Ea.
    2:{ apply lookup_ge_None in Ea. lia. }
    destruct (Z.ltb_spec (timestamp a) ts) as [Hlt|Hge].
    + apply IH; [lia|lia| |].
      * intros i x Hi Hx.
        pose proof (sorted_lookup history i (first + len / 2) x a Hs ltac:(lia) Hx Ea) as Hle.
        unfold ts_le in Hle. lia.
      * intros i x Hi Hx. apply (Hhigh i x); [lia|exact Hx].
    + apply IH; [lia|lia|exact Hlow|].
      intros i x Hi Hx.
      pose proof (sorted_lookup history (first + len / 2) i a x Hs ltac:(lia) Ea Hx) as Hle.
      unfold ts_le in Hle. lia.
Qed.

Lemma lower_bound_spec history entry :
  StronglySorted ts_le history →
  (∀ x, x ∈ take (lower_bound history entry) history → timestamp x < timestamp entry) ∧
  (∀ x, x ∈ drop (lower_bound history entry) history → timestamp entry ≤ timestamp x).
Proof.
  intros Hs. unfold lower_bound.
  destruct (lower_bound_loop_spec history (timestamp entry) (length history) Hs 0
              (length history) ltac:(lia) ltac:(lia)) as (Hp & Hlow & Hhigh).
  { intros i x Hi. lia. }
  { intros i x Hi Hx. apply lookup_lt_Some in Hx. lia. }
  split.
  - intros x Hx. apply list_elem_of_lookup in Hx as [i Hi].
    apply lookup_lt_Some in Hi as Hlt. rewrite length_take in Hlt.
    rewrite lookup_take_lt in Hi by lia. apply (Hlow i x); [lia|exact Hi].
  - intros x Hx. apply list_elem_of_lookup in Hx as [i Hi].
    rewrite lookup_drop in Hi. eapply Hhigh; [|exact Hi]. lia.
Qed.

(** Where [merge_entry] puts the entry, the history stays in order. *)
Lemma insert_sorted history entry :
  StronglySorted ts_le history →
  StronglySorted ts_le
    (take (lower_bound history entry) history ++
     entry :: drop (lower_bound history entry) history).
Proof.
  intros Hs. destruct (lower_bound_spec history entry Hs) as [Hlow Hhigh].
  set (p := lower_bound history entry) in *.
  pose proof Hs as Hs'. rewrite <- (take_drop p history) in Hs'.
  apply StronglySorted_app_2.
  - intros x1 x2 H1 H2. apply elem_of_cons in H2 as [->|H2].
    + unfold ts_le. specialize (Hlow _ H1). lia.
    + eapply StronglySorted_app_1_elem_of; eassumption.
  - eapply StronglySorted_app_1_l. exact Hs'.
  - apply StronglySorted_cons. split.
    + apply Forall_forall. intros x Hx. exact (Hhigh x Hx).
    + eapply StronglySorted_app_1_r. exact Hs'.
Qed.

Lemma insert_permutation (history : list DAGEntry) entry p :
  take p history ++ entry :: drop p history ≡ₚ entry :: history.
Proof. rewrite <- Permutation_middle, take_drop. reflexivity. Qed.

Lemma get_history_merge entry l h :
  ¬ is_Some (entry_by_id_ l !! entry_id entry) →
  get_history h (merge_entry entry l) =
  if decide (chunk_hash entry = h)
  then take (lower_bound (get_history h l) entry) (get_history h l) ++
       entry :: drop (lower_bound (get_history h l) entry) (get_history h l)
  else get_history h l.
Proof.
  intros Hnew. unfold merge_entry. rewrite decide_False by exact Hnew.
  unfold get_history. cbn. case_decide as Hh.
  - subst h. rewrite lookup_insert_eq. reflexivity.
  - rewrite lookup_insert_ne by exact Hh. reflexivity.
Qed.

Lemma merge_entry_known entry l :
  is_Some (entry_by_id_ l !! entry_id entry) → merge_entry entry l = l.
Proof. intros H. unfold merge_entry. rewrite decide_True by exact H. reflexivity. Qed.

Lemma merge_entry_sorted entry l : ledger_sorted l → ledger_sorted (merge_entry entry l).
Proof.
  intros Hs h.
  destruct (decide (is_Some (entry_by_id_ l !! entry_id entry))) as [Hk|Hn].
  - rewrite merge_entry_known by exact Hk. apply Hs.
  - rewrite get_history_merge by exact Hn. case_decide; [|apply Hs].
    apply insert_sorted, Hs.
Qed.

(** C5: merging an entry a second time leaves the ledger as the first
    merge left it, and merging an entry whose id is indexed leaves the
    ledger as it was. *)
Theorem merge_entry_idempotent (entry : DAGEntry) (l : Ledger) :
  merge_entry entry (merge_entry entry l) = merge_entry entry l ∧
  (is_Some (entry_by_id_ l !! entry_id entry) → merge_entry entry l = l).
Proof.
  split; [|apply merge_entry_known].
  apply merge_entry_known.
  unfold merge_entry. case_decide as Hk; [exact Hk|].
  cbn. rewrite lookup_insert_eq. eauto.
Qed.

Lemma holds_empty : holds empty [].
Proof.
  split.
  - intros id. cbn. rewrite lookup_empty. split; [intros [x Hx]; discriminate|].
    intros H. apply elem_of_nil in H. destruct H.
  - intros h. reflexivity.
Qed.

Lemma merge_entry_holds entry l entries :
  holds l entries → entry_id entry ∉ map entry_id entries →
  holds (merge_entry entry l) (entries ++ [entry]).
Proof.
  intros [Hidx Hhist] Hfresh.
  assert (Hnew : ¬ is_Some (entry_by_id_ l !! entry_id entry)).
  { intros H. apply Hfresh, Hidx, H. }
  split.
  - intros id. unfold merge_entry. rewrite decide_False by exact Hnew. cbn.
    rewrite map_app, elem_of_app. cbn. rewrite list_elem_of_singleton.
    destruct (decide (entry_id entry = id)) as [<-|Hne].
    + rewrite lookup_insert_eq. split; [intros _; right; reflexivity|eauto].
    + rewrite lookup_insert_ne by exact Hne. rewrite Hidx.
      split; [intros H; left; exact H|]. intros [H|H]; [exact H|congruence].
  - intros h. rewrite get_history_merge by exact Hnew.
    rewrite filter_app, filter_cons, filter_nil. case_decide as Hh.
    + rewrite insert_permutation, Hhist, <- Permutation_cons_append. reflexivity.
    + rewrite app_nil_r. apply Hhist.
Qed.

Lemma merge_all_holds rest :
  ∀ done l,
    holds l done → ledger_sorted l → NoDup (map entry_id (done ++ rest)) →
    holds (merge_all rest l) (done ++ rest) ∧ ledger_sorted (merge_all rest l).
Proof.
  induction rest as [|e rest IH]; intros done l Hh Hs Hnd.
  - rewrite app_nil_r. split; assumption.
  - cbn. replace (done ++ e :: rest) with ((done ++ [e]) ++ rest) in *
      by (rewrite <- app_assoc; reflexivity).
    apply IH; [|apply merge_entry_sorted, Hs|exact Hnd].
    apply merge_entry_holds; [exact Hh|].
    rewrite !map_app in Hnd. apply NoDup_app in Hnd as [Hnd _].
    apply NoDup_app in Hnd as (_ & Hdisj & _).
    intros Hin. apply (Hdisj _ Hin). cbn. left.
Qed.

Lemma merge_all_from_empty entries :
  NoDup (map entry_id entries) →
  holds (merge_all entries empty) entries ∧ ledger_sorted (merge_all entries empty).
Proof.
  intros Hnd. apply (merge_all_holds entries [] empty holds_empty); [|exact Hnd].
  intros h. constructor.
Qed.

(** C6, as the code has it: merging entries of distinct ids into the
    empty ledger gives each chunk a history in non-decreasing timestamp
    order; two orders of merging give histories with the same entries,
    and the same history when the timestamps of the chunk's entries are
    pairwise distinct. *)
Theorem merge_order entries entries' (h : string) :
  NoDup (map entry_id entries) → entries ≡ₚ entries' →
  StronglySorted ts_le (get_history h (merge_all entries empty)) ∧
  get_history h (merge_all entries empty) ≡ₚ get_history h (merge_all entries' empty) ∧
  (NoDup (map timestamp (filter (λ e, chunk_hash e = h) entries)) →
   get_history h (merge_all entries empty) = get_history h (merge_all entries' empty)).
Proof.
  intros Hnd Hperm.
  assert (Hnd' : NoDup (map entry_id entries')) by (rewrite <- Hperm; exact Hnd).
  destruct (merge_all_from_empty entries Hnd) as [[_ Hh] Hs].
  destruct (merge_all_from_empty entries' Hnd') as [[_ Hh'] Hs'].
  assert (Hp : get_history h (merge_all entries empty) ≡ₚ
               get_history h (merge_all entries' empty)).
  { rewrite Hh, Hh', Hperm. reflexivity. }
  split; [apply Hs|]. split; [exact Hp|].
  intros Hts. rewrite <- Hh in Hts.
  apply (StronglySorted_unique_strong ts_le); [|apply Hs|apply Hs'|exact Hp].
  intros x1 x2 H1 H2 H12 H21. rewrite <- Hp in H2.
  apply list_elem_of_lookup in H1 as [i1 H1]. apply list_elem_of_lookup in H2 as [i2 H2].
  assert (i1 = i2); [|congruence].
  apply (NoDup_lookup _ i1 i2 (timestamp x1) Hts).
  - rewrite list_lookup_fmap, H1. reflexivity.
  - rewrite list_lookup_fmap, H2. cbn. f_equal. unfold ts_le in *. lia.
Qed.

(** *** Local entries and the latest entry *)

Lemma get_latest_last h l : get_latest h l = last (get_history h l).
Proof.
  unfold get_latest, get_history. destruct (dag_ l !! h); reflexivity.
Qed.

Lemma sorted_last (history : list DAGEntry) back x :
  StronglySorted ts_le history → last history = Some back → x ∈ history →
  timestamp x ≤ timestamp back.
Proof.
  intros Hs Hl Hx. apply last_Some in Hl as [init ->].
  apply elem_of_app in Hx as [Hx|Hx].
  - eapply (StronglySorted_app_1_elem_of ts_le); [exact Hs|exact Hx|left].
  - apply list_elem_of_singleton in Hx. subst. lia.
Qed.

Section WithSHA256.
Variable SHA256 : list byte → list byte.

Abbreviation step := (Consensus.step SHA256).
Abbreviation reachable := (Consensus.reachable SHA256).

Lemma get_history_add chunk_hash device_ids creator now l h :
  ∃ entry,
    timestamp entry = now ∧
    get_history h (add_entry SHA256 chunk_hash device_ids creator now l).2 =
    if decide (chunk_hash = h) then get_history h l ++ [entry] else get_history h l.
Proof.
  unfold add_entry.
  destruct (last (default [] (dag_ l !! chunk_hash))) as [back|];
    (eexists; split; [|unfold get_history; cbn; case_decide as Hh;
       [subst h; rewrite lookup_insert_eq|rewrite lookup_insert_ne by exact Hh];
       reflexivity]); reflexivity.
Qed.

Lemma add_entry_sorted chunk_hash device_ids creator now l :
  ledger_sorted l →
  (∀ back, get_latest chunk_hash l = Some back → timestamp back ≤ now) →
  ledger_sorted (add_entry SHA256 chunk_hash device_ids creator now l).2.
Proof.
  intros Hs Hclock h.
  destruct (get_history_add chunk_hash device_ids creator now l h) as (entry & Hts & ->).
  case_decide as Hh; [subst h|apply Hs].
  apply StronglySorted_app_2; [|apply Hs|repeat constructor].
  intros x1 x2 H1 H2. apply list_elem_of_singleton in H2. subst x2.
  unfold ts_le. rewrite Hts.
  destruct (last (get_history chunk_hash l)) as [back|] eqn:Hlast.
  - pose proof (sorted_last _ back x1 (Hs chunk_hash) Hlast H1).
    specialize (Hclock back). rewrite get_latest_last in Hclock.
    specialize (Hclock Hlast). lia.
  - apply last_None in Hlast. rewrite Hlast in H1. apply elem_of_nil in H1. destruct H1.
Qed.

Lemma reachable_sorted l : reachable l → ledger_sorted l.
Proof.
  intros Hr. unfold reachable in Hr.
  apply rtc_ind_r with (P := ledger_sorted) (x := empty) in Hr; [exact Hr| |].
  - intros h. constructor.
  - intros l1 l2 _ Hstep IH. destruct Hstep as [ch ds cr now l1 Hclock|e l1].
    + apply add_entry_sorted; assumption.
    + apply merge_entry_sorted; assumption.
Qed.

(** C7, as the code has it: [get_latest] returns the last element of the
    chunk's history, and in a ledger built from the empty one by
    [merge_entry] calls and by [add_entry] calls made when the clock is
    not behind the chunk's latest timestamp, no entry of the history has
    a larger timestamp. *)
Theorem get_latest_max_timestamp l (h : string) :
  reachable l →
  get_latest h l = last (get_history h l) ∧
  ∀ latest, get_latest h l = Some latest →
    ∀ x, x ∈ get_history h l → timestamp x ≤ timestamp latest.
Proof.
  intros Hr. split; [apply get_latest_last|].
  intros latest Hl x Hx. rewrite get_latest_last in Hl.
  exact (sorted_last _ latest x (reachable_sorted l Hr h) Hl Hx).
Qed.

End WithSHA256.

Lemma merge_order_witness :
  StronglySorted ts_le (get_history "H" (merge_all [entry_a; entry_c] empty)) ∧
  get_history "H" (merge_all [entry_a; entry_c] empty) ≡ₚ
    get_history "H" (merge_all [entry_c; entry_a] empty) ∧
  (NoDup (map timestamp (filter (λ e, chunk_hash e = "H") [entry_a; entry_c])) →
   get_history "H" (merge_all [entry_a; entry_c] empty) =
   get_history "H" (merge_all [entry_c; entry_a] empty)).
Proof.
  apply (merge_order [entry_a; entry_c] [entry_c; entry_a] "H").
  - apply NoDup_cons. split; [|apply NoDup_singleton].
    intros H. apply list_elem_of_singleton in H. discriminate.
  - apply Permutation_swap.
Defined.

(** C6 as stated fails: two entries of one chunk with distinct ids and
    the same timestamp end up in the order opposite to the order of
    merging, so the two permutations give different histories. *)
Lemma merge_order_counterexample :
  NoDup (map entry_id [entry_a; entry_b]) ∧
  [entry_a; entry_b] ≡ₚ [entry_b; entry_a] ∧
  get_history "H" (merge_all [entry_a; entry_b] empty) = [entry_b; entry_a] ∧
  get_history "H" (merge_all [entry_b; entry_a] empty) = [entry_a; entry_b] ∧
  map entry_id [entry_b; entry_a] = ["b"; "a"] ∧
  map entry_id [entry_a; entry_b] = ["a"; "b"].
Proof.
  split; [|split; [apply Permutation_swap|repeat split; reflexivity]].
  apply NoDup_cons. split; [|apply NoDup_singleton].
  intros H. apply list_elem_of_singleton in H. discriminate.
Qed.

(** The remote entry merged, then a local entry added at clock 150. *)
Lemma get_latest_max_timestamp_witness :
  get_latest "H" (add_entry Standin.sha256 "H" ["d2"] "B" 150 (merge_entry remote empty)).2 =
    last (get_history "H"
            (add_entry Standin.sha256 "H" ["d2"] "B" 150 (merge_entry remote empty)).2) ∧
  ∀ latest,
    get_latest "H" (add_entry Standin.sha256 "H" ["d2"] "B" 150 (merge_entry remote empty)).2 =
      Some latest →
    ∀ x,
      x ∈ get_history "H"
            (add_entry Standin.sha256 "H" ["d2"] "B" 150 (merge_entry remote empty)).2 →
      timestamp x ≤ timestamp latest.
Proof.
  apply (get_latest_max_timestamp Standin.sha256).
  eapply rtc_l; [apply step_merge|]. apply rtc_once. apply step_add.
  intros back Hback. vm_compute in Hback. inversion Hback; subst back. cbn. lia.
Defined.

(** C7 as stated fails: after the remote entry stamped 100 is merged, a
    local [add_entry] made when the clock reads 50 is appended behind
    it, and [get_latest] returns it. *)
Lemma get_latest_counterexample :
  timestamp <$>
    get_latest "H"
      (add_entry Standin.sha256 "H" ["d2"] "B" 50 (merge_entry remote empty)).2 = Some 50 ∧
  map timestamp
    (get_history "H"
       (add_entry Standin.sha256 "H" ["d2"] "B" 50 (merge_entry remote empty)).2) =
  [100; 50].
Proof. split; reflexivity. Qed.

(** *** What [add_entry] appends *)

Section Adding.
Variable SHA256 : list byte → list byte.

Abbreviation add_entry := (Consensus.add_entry SHA256).
Abbreviation run := (Consensus.run SHA256).
Abbreviation apply_call := (Consensus.apply_call SHA256).

Lemma add_entry_history chunk_hash device_ids creator now l :
  ∃ entry,
    get_history chunk_hash (add_entry chunk_hash device_ids creator now l).2 =
      get_history chunk_hash l ++ [entry] ∧
    (∀ h, h ≠ chunk_hash →
       get_history h (add_entry chunk_hash device_ids creator now l).2 = get_history h l) ∧
    entry_by_id_ (add_entry chunk_hash device_ids creator now l).2 =
      <[entry_id entry := entry]> (entry_by_id_ l) ∧
    (add_entry chunk_hash device_ids creator now l).1 = entry_id entry ∧
    Consensus.chunk_hash entry = chunk_hash ∧
    Consensus.device_ids entry = device_ids ∧
    Consensus.creator entry = creator ∧
    timestamp entry = now ∧
    version entry =
      match get_latest chunk_hash l with
      | Some latest => wrap64 (version latest + 1)
      | None => 1
      end ∧
    parent_ids entry =
      match get_latest chunk_hash l with
      | Some latest => [entry_id latest]
      | None => []
      end ∧
    entry_id entry =
      generate_entry_id SHA256
        (mkEntry EmptyString chunk_hash device_ids (parent_ids entry) now (version entry)
           creator).
Proof.
  rewrite get_latest_last. unfold Consensus.add_entry, get_history.
  destruct (last (default [] (dag_ l !! chunk_hash))) as [back|];
    (eexists; cbn [fst snd dag_ entry_by_id_];
     split; [rewrite lookup_insert_eq; reflexivity|];
     split; [intros h Hh; rewrite lookup_insert_ne by congruence; reflexivity|];
     repeat (split; [reflexivity|]); reflexivity).
Qed.

(** X12: [add_entry] appends to the history of its chunk, and to no
    other, an entry that [get_latest] then returns: it carries the id
    that the call returns, the devices, the creator and the clock
    reading of the call, one more than the version of the entry that was
    the latest (1 on a new chunk) and that entry as its single parent;
    [resolve_locations] then returns the devices of the call. *)
Theorem add_entry_latest chunk_hash device_ids creator now l :
  ∃ entry,
    get_latest chunk_hash (add_entry chunk_hash device_ids creator now l).2 = Some entry ∧
    get_history chunk_hash (add_entry chunk_hash device_ids creator now l).2 =
      get_history chunk_hash l ++ [entry] ∧
    (∀ h, h ≠ chunk_hash →
       get_history h (add_entry chunk_hash device_ids creator now l).2 = get_history h l) ∧
    resolve_locations chunk_hash (add_entry chunk_hash device_ids creator now l).2 =
      device_ids ∧
    entry_id entry = (add_entry chunk_hash device_ids creator now l).1 ∧
    Consensus.chunk_hash entry = chunk_hash ∧
    Consensus.device_ids entry = device_ids ∧
    Consensus.creator entry = creator ∧
    timestamp entry = now ∧
    version entry =
      match get_latest chunk_hash l with
      | Some latest => wrap64 (version latest + 1)
      | None => 1
      end ∧
    parent_ids entry =
      match get_latest chunk_hash l with
      | Some latest => [entry_id latest]
      | None => []
      end.
Proof.
  destruct (add_entry_history chunk_hash device_ids creator now l)
    as (entry & Hh & Hother & _ & Hid & Hch & Hdev & Hcr & Hts & Hv & Hp & _).
  assert (Hl : get_latest chunk_hash (add_entry chunk_hash device_ids creator now l).2 =
               Some entry).
  { rewrite get_latest_last, Hh. apply last_snoc. }
  exists entry. split; [exact Hl|]. split; [exact Hh|]. split; [exact Hother|].
  split; [unfold resolve_locations; rewrite Hl; exact Hdev|].
  split; [symmetry; exact Hid|]. auto 10.
Qed.

(** *** Histories made by [add_entry] alone *)

Lemma chained_snoc history entry :
  chained history →
  version entry =
    match last history with Some latest => wrap64 (version latest + 1) | None => 1 end →
  parent_ids entry = match last history with Some latest => [entry_id latest] | None => [] end →
  chained (history ++ [entry]).
Proof.
  intros Hc Hv Hp i e Hi.
  apply lookup_app_Some in Hi as [Hi|[Hge Hi]].
  - destruct (Hc i e Hi) as [H1 H2]. split; [exact H1|]. rewrite H2.
    destruct i as [|j]; [reflexivity|].
    apply lookup_lt_Some in Hi. rewrite lookup_app_l by lia. reflexivity.
  - destruct (i - length history)%nat as [|d] eqn:Ed; [|destruct d; discriminate].
    cbn in Hi. inversion Hi; subst e. assert (i = length history) by lia. subst i.
    rewrite Hv, Hp. rewrite last_lookup.
    destruct history as [|x history]; [split; reflexivity|].
    cbn [length pred]. rewrite lookup_app_l by (cbn; lia).
    destruct ((x :: history) !! length history) as [b|] eqn:Eb.
    2:{ apply lookup_ge_None in Eb. cbn in Eb. lia. }
    destruct (Hc _ _ Eb) as [Hvb _]. split; [|reflexivity].
    rewrite Hvb. unfold wrap64. rewrite Zplus_mod_idemp_l. f_equal. lia.
Qed.

(** X13: in a ledger built from the empty one by [add_entry] calls
    alone, the entry at position [i] of a history has version [i + 1]
    (modulo [2^64]), belongs to the chunk of the history and has the
    entry before it as its single parent; the first has no parent. *)
Theorem add_entry_chain (calls : list call) (h : string) :
  Forall is_add calls →
  chained (get_history h (run calls)) ∧
  ∀ e, e ∈ get_history h (run calls) → Consensus.chunk_hash e = h.
Proof.
  intros Hadds. unfold Consensus.run. revert h.
  induction calls as [|c calls IH] using rev_ind; intros h.
  - cbn. split; [intros i e Hi; discriminate|].
    intros e He. apply elem_of_nil in He. destruct He.
  - apply Forall_app in Hadds as [Hadds Hc]. apply Forall_inv in Hc.
    rewrite foldl_snoc. specialize (IH Hadds).
    set (l := foldl (Consensus.apply_call SHA256) empty calls) in *.
    destruct c as [ch ds cr now|e]; [|exfalso; exact Hc]. cbn [Consensus.apply_call].
    destruct (add_entry_history ch ds cr now l)
      as (entry & Hh & Hother & _ & _ & Hch & _ & _ & _ & Hv & Hp & _).
    destruct (decide (h = ch)) as [->|Hne].
    + rewrite Hh. rewrite get_latest_last in Hv, Hp. split.
      * apply chained_snoc; [apply IH|exact Hv|exact Hp].
      * intros e He. apply elem_of_app in He as [He|He]; [apply IH, He|].
        apply list_elem_of_singleton in He. subst e. exact Hch.
    + rewrite Hother by exact Hne. apply IH.
Qed.

(** *** Entry ids *)

(** X14: the entry id is a digest of the chunk hash, the devices and
    the version alone. When two ledgers hold the same version of a
    chunk (or both hold none) and each adds an entry for it with the
    same devices, the two entries get the same id, whatever their
    creators and clock readings, and merging the entry of the one into
    the other changes nothing: the second entry is dropped as already
    held. *)
Theorem concurrent_adds_collide chunk_hash device_ids creator1 now1 creator2 now2 l1 l2 :
  version <$> get_latest chunk_hash l1 = version <$> get_latest chunk_hash l2 →
  (add_entry chunk_hash device_ids creator1 now1 l1).1 =
  (add_entry chunk_hash device_ids creator2 now2 l2).1 ∧
  ∀ entry2,
    get_latest chunk_hash (add_entry chunk_hash device_ids creator2 now2 l2).2 = Some entry2 →
    merge_entry entry2 (add_entry chunk_hash device_ids creator1 now1 l1).2 =
    (add_entry chunk_hash device_ids creator1 now1 l1).2.
Proof.
  intros Hv.
  destruct (add_entry_history chunk_hash device_ids creator1 now1 l1)
    as (e1 & _ & _ & Hidx1 & Hid1 & _ & _ & _ & _ & Hv1 & _ & Hgen1).
  destruct (add_entry_history chunk_hash device_ids creator2 now2 l2)
    as (e2 & Hh2 & _ & _ & Hid2 & _ & _ & _ & _ & Hv2 & _ & Hgen2).
  assert (Hver : version e1 = version e2).
  { rewrite Hv1, Hv2.
    destruct (get_latest chunk_hash l1), (get_latest chunk_hash l2); cbn in Hv;
      congruence. }
  assert (Hids : entry_id e1 = entry_id e2).
  { rewrite Hgen1, Hgen2. unfold generate_entry_id. cbn. rewrite Hver. reflexivity. }
  split; [congruence|].
  intros entry2 Hl. rewrite get_latest_last, Hh2, last_snoc in Hl. inversion Hl; subst entry2.
  apply merge_entry_known. rewrite Hidx1, <- Hids, lookup_insert_eq. eauto.
Qed.

(** *** Every entry of a history is indexed *)

Lemma run_indexed (calls : list call) :
  ∀ h e, e ∈ get_history h (run calls) →
    is_Some (entry_by_id_ (run calls) !! entry_id e) ∧ Consensus.chunk_hash e = h.
Proof.
  unfold Consensus.run. induction calls as [|c calls IH] using rev_ind; intros h e He.
  - cbn in He. apply elem_of_nil in He. destruct He.
  - rewrite foldl_snoc in *.
    set (l := foldl (Consensus.apply_call SHA256) empty calls) in *.
    destruct c as [ch ds cr now|x]; cbn [Consensus.apply_call] in *.
    + destruct (add_entry_history ch ds cr now l)
        as (entry & Hh & Hother & Hidx & _ & Hch & _).
      rewrite Hidx.
      assert (Hold : e ∈ get_history h l →
                is_Some (<[entry_id entry := entry]> (entry_by_id_ l) !! entry_id e) ∧
                Consensus.chunk_hash e = h).
      { intros Hin. destruct (IH h e Hin) as [Hs Hc]. split; [|exact Hc].
        apply lookup_insert_is_Some'. right. exact Hs. }
      destruct (decide (h = ch)) as [->|Hne].
      * rewrite Hh in He. apply elem_of_app in He as [He|He]; [exact (Hold He)|].
        apply list_elem_of_singleton in He. subst e.
        split; [rewrite lookup_insert_eq; eauto|exact Hch].
      * rewrite Hother in He by exact Hne. exact (Hold He).
    + destruct (decide (is_Some (entry_by_id_ l !! entry_id x))) as [Hk|Hn].
      * rewrite merge_entry_known in * by exact Hk. exact (IH h e He).
      * rewrite get_history_merge in He by exact Hn.
        unfold merge_entry. rewrite decide_False by exact Hn. cbn [entry_by_id_].
        assert (Hold : e ∈ get_history h l →
                  is_Some (<[entry_id x := x]> (entry_by_id_ l) !! entry_id e) ∧
                  Consensus.chunk_hash e = h).
        { intros Hin. destruct (IH h e Hin) as [Hs Hc]. split; [|exact Hc].
          apply lookup_insert_is_Some'. right. exact Hs. }
        case_decide as Hh; [|exact (Hold He)].
        rewrite insert_permutation in He. apply elem_of_cons in He as [->|He];
          [|exact (Hold He)].
        split; [rewrite lookup_insert_eq; eauto|exact Hh].
Qed.

(** X15: in a ledger built from the empty one by any calls of
    [add_entry] and [merge_entry], whatever the clock, every entry of a
    history belongs to the chunk of that history, and merging it once
    more changes nothing. *)
Theorem merge_held_entry (calls : list call) (h : string) (e : DAGEntry) :
  e ∈ get_history h (run calls) →
  Consensus.chunk_hash e = h ∧ merge_entry e (run calls) = run calls.
Proof.
  intros He. destruct (run_indexed calls h e He) as [Hs Hc].
  split; [exact Hc|]. apply merge_entry_known, Hs.
Qed.

(** X16: no call takes an entry out of a history or changes the order
    of the entries it holds: the history of a chunk after some calls is
    a sublist of its history after any further calls. *)
Theorem history_grows (calls more : list call) (h : string) :
  get_history h (run calls) `sublist_of` get_history h (run (calls ++ more)).
Proof.
  unfold Consensus.run. rewrite foldl_app.
  generalize (foldl (Consensus.apply_call SHA256) empty calls) as l.
  induction more as [|c more IH]; intros l; [reflexivity|].
  cbn [foldl]. etransitivity; [|apply IH].
  destruct c as [ch ds cr now|x]; cbn [Consensus.apply_call].
  - destruct (add_entry_history ch ds cr now l) as (entry & Hh & Hother & _).
    destruct (decide (h = ch)) as [->|Hne].
    + rewrite Hh. apply sublist_inserts_r. reflexivity.
    + rewrite Hother by exact Hne. reflexivity.
  - destruct (decide (is_Some (entry_by_id_ l !! entry_id x))) as [Hk|Hn].
    + rewrite merge_entry_known by exact Hk. reflexivity.
    + rewrite get_history_merge by exact Hn. case_decide; [|reflexivity].
      rewrite <- (take_drop (lower_bound (get_history h l) x) (get_history h l)) at 1.
      apply sublist_app; [reflexivity|]. apply sublist_cons. reflexivity.
Qed.

End Adding.

(** *** The chunks of a ledger *)

Section Listing.
Variable SHA256 : list byte → list byte.

Lemma run_histories (calls : list call) (h : string) :
  is_Some (dag_ (Consensus.run SHA256 calls) !! h) →
  get_history h (Consensus.run SHA256 calls) ≠ [].
Proof.
  unfold Consensus.run. induction calls as [|c calls IH] using rev_ind.
  - cbn. rewrite lookup_empty. intros [x Hx]. discriminate.
  - rewrite foldl_snoc.
    set (l := foldl (Consensus.apply_call SHA256) empty calls) in *.
    destruct c as [ch ds cr now|x]; cbn [Consensus.apply_call].
    + destruct (add_entry_history SHA256 ch ds cr now l) as (entry & Hh & Hother & _).
      destruct (decide (h = ch)) as [->|Hne].
      * intros _. rewrite Hh. intros E. apply app_eq_nil in E as [_ E]. discriminate.
      * rewrite Hother by exact Hne. intros Hs. apply IH.
        unfold Consensus.add_entry in Hs.
        destruct (last (default [] (dag_ l !! ch))); cbn [snd dag_] in Hs;
          rewrite lookup_insert_ne in Hs by congruence; exact Hs.
    + destruct (decide (is_Some (entry_by_id_ l !! entry_id x))) as [Hk|Hn].
      * rewrite merge_entry_known by exact Hk. exact IH.
      * rewrite get_history_merge by exact Hn. case_decide as Hh.
        -- intros _ E. apply app_eq_nil in E as [_ E]. discriminate.
        -- intros Hs. apply IH. unfold merge_entry in Hs.
           rewrite decide_False in Hs by exact Hn. cbn [dag_] in Hs.
           rewrite lookup_insert_ne in Hs by exact Hh. exact Hs.
Qed.

(** X25: in a ledger built from the empty one by any calls of
    [add_entry] and [merge_entry], [list_chunks] lists, each once,
    exactly the chunks that have a latest entry. *)
Theorem list_chunks_latest (calls : list call) :
  NoDup (list_chunks (Consensus.run SHA256 calls)) ∧
  ∀ h, h ∈ list_chunks (Consensus.run SHA256 calls) ↔
       is_Some (get_latest h (Consensus.run SHA256 calls)).
Proof.
  unfold list_chunks. split; [apply NoDup_fst_map_to_list|].
  intros h. rewrite get_latest_last. split.
  - intros Hin. apply list_elem_of_fmap in Hin as ([h' hist] & -> & Hin).
    apply elem_of_map_to_list in Hin. cbn.
    pose proof (run_histories calls h' ltac:(eauto)) as Hne.
    destruct (get_history h' (Consensus.run SHA256 calls)) as [|x l] eqn:E using rev_ind;
      [congruence|].
    rewrite last_snoc. eauto.
  - intros [x Hx]. unfold get_history in Hx.
    destruct (dag_ (Consensus.run SHA256 calls) !! h) as [hist|] eqn:E; [|discriminate].
    apply list_elem_of_fmap. exists (h, hist). split; [reflexivity|].
    apply elem_of_map_to_list, E.
Qed.

End Listing.

(** *** The latest entry after a merge *)

(** X17: last write wins. Merging an entry whose id is not indexed into
    a chunk whose history is in timestamp order makes it the latest
    entry of the chunk only if its timestamp is greater than that of
    the latest entry so far (or the chunk has no entry); else the latest
    entry stays, also at equal timestamps. The latest entries of the
    other chunks stay. *)
Theorem merge_entry_latest (entry : DAGEntry) (l : Ledger) :
  ¬ is_Some (entry_by_id_ l !! entry_id entry) →
  StronglySorted ts_le (get_history (chunk_hash entry) l) →
  get_latest (chunk_hash entry) (merge_entry entry l) =
    match get_latest (chunk_hash entry) l with
    | Some latest => if timestamp latest <? timestamp entry then Some entry else Some latest
    | None => Some entry
    end ∧
  ∀ h, h ≠ chunk_hash entry → get_latest h (merge_entry entry l) = get_latest h l.
Proof.
  intros Hnew Hs. split.
  2:{ intros h Hh. rewrite !get_latest_last, get_history_merge by exact Hnew.
      rewrite decide_False by congruence. reflexivity. }
  rewrite !get_latest_last, get_history_merge by exact Hnew.
  rewrite decide_True by reflexivity.
  destruct (lower_bound_spec (get_history (chunk_hash entry) l) entry Hs) as [Hlow Hhigh].
  set (history := get_history (chunk_hash entry) l) in *.
  set (p := lower_bound history entry) in *.
  destruct (last history) as [latest|] eqn:Hlast.
  - assert (Hin : latest ∈ take p history ++ drop p history).
    { rewrite take_drop. apply last_Some in Hlast as [init ->].
      apply elem_of_app. right. left. }
    destruct (Z.ltb_spec (timestamp latest) (timestamp entry)) as [Hlt|Hge].
    + destruct (drop p history) as [|x rest] eqn:Hdrop.
      * apply last_snoc.
      * exfalso. assert (last (drop p history) = Some latest) as Hld.
        { rewrite <- (take_drop p history) in Hlast. rewrite Hdrop in Hlast |- *.
          rewrite last_app_cons in Hlast. exact Hlast. }
        assert (latest ∈ drop p history) as Hd.
        { apply last_Some in Hld as [init ->]. apply elem_of_app. right. left. }
        rewrite Hdrop in Hd. specialize (Hhigh latest Hd). lia.
    + destruct (drop p history) as [|x rest] eqn:Hdrop.
      * exfalso. rewrite app_nil_r in Hin. specialize (Hlow latest Hin). lia.
      * rewrite last_app_cons, last_cons_cons.
        rewrite <- (take_drop p history), Hdrop, last_app_cons in Hlast. exact Hlast.
  - apply last_None in Hlast. rewrite Hlast. rewrite take_nil, drop_nil. reflexivity.
Qed.

(** *** Conflicts *)

Lemma string_ltb_asym (a b : string) : String.ltb a b = true → String.ltb b a = false.
Proof.
  unfold String.ltb. rewrite (String.compare_antisym b a).
  destruct (String.compare a b); cbn; congruence.
Qed.

Lemma string_ltb_total (a b : string) :
  String.ltb a b = false → String.ltb b a = false → a = b.
Proof.
  unfold String.ltb. rewrite (String.compare_antisym b a).
  destruct (String.compare a b) eqn:E; cbn; try congruence.
  intros _ _. apply String.compare_eq_iff, E.
Qed.

(** X18: [resolve_conflict] returns the one of its two entries that
    ranks higher by timestamp, then by version, then by entry id, and
    so does not depend on the order of its arguments; when the two
    entries agree on all three, it returns the second. *)
Theorem resolve_conflict_greatest (a b : DAGEntry) :
  (outranks a b ∧ resolve_conflict a b = a ∧ resolve_conflict b a = a) ∨
  (outranks b a ∧ resolve_conflict a b = b ∧ resolve_conflict b a = b) ∨
  (timestamp a = timestamp b ∧ version a = version b ∧ entry_id a = entry_id b ∧
   resolve_conflict a b = b ∧ resolve_conflict b a = a).
Proof.
  unfold resolve_conflict, outranks.
  destruct (Z.ltb_spec (timestamp b) (timestamp a)) as [Ht|Ht];
    destruct (Z.ltb_spec (timestamp a) (timestamp b)) as [Ht'|Ht']; try lia.
  { left. auto. }
  { right. left. auto. }
  destruct (Z.ltb_spec (version b) (version a)) as [Hv|Hv];
    destruct (Z.ltb_spec (version a) (version b)) as [Hv'|Hv']; try lia.
  { left. split; [right; split; [lia|left; exact Hv]|auto]. }
  { right. left. split; [right; split; [lia|left; exact Hv']|auto]. }
  destruct (String.ltb (entry_id b) (entry_id a)) eqn:Eba.
  { left. rewrite (string_ltb_asym _ _ Eba).
    split; [right; split; [lia|right; split; [lia|reflexivity]]|auto]. }
  destruct (String.ltb (entry_id a) (entry_id b)) eqn:Eab.
  { right. left. split; [right; split; [lia|right; split; [lia|reflexivity]]|auto]. }
  right. right. split; [lia|]. split; [lia|]. split; [|auto].
  apply string_ltb_total; assumption.
Qed.

(** *** The added properties, on entries *)

Lemma add_entry_chain_witness :
  chained (get_history "H"
             (run Standin.sha256 [AddEntry "H" ["d1"] "A" 5; AddEntry "H" ["d2"] "B" 3])) ∧
  ∀ e,
    e ∈ get_history "H"
          (run Standin.sha256 [AddEntry "H" ["d1"] "A" 5; AddEntry "H" ["d2"] "B" 3]) →
    chunk_hash e = "H".
Proof.
  apply (add_entry_chain Standin.sha256 [AddEntry "H" ["d1"] "A" 5; AddEntry "H" ["d2"] "B" 3]
           "H").
  repeat constructor.
Defined.

Lemma concurrent_adds_collide_witness :
  (add_entry Standin.sha256 "H" ["d1"] "A" 5 empty).1 =
  (add_entry Standin.sha256 "H" ["d1"] "B" 9 empty).1 ∧
  ∀ entry2,
    get_latest "H" (add_entry Standin.sha256 "H" ["d1"] "B" 9 empty).2 = Some entry2 →
    merge_entry entry2 (add_entry Standin.sha256 "H" ["d1"] "A" 5 empty).2 =
    (add_entry Standin.sha256 "H" ["d1"] "A" 5 empty).2.
Proof.
  apply (concurrent_adds_collide Standin.sha256 "H" ["d1"] "A" 5 "B" 9 empty empty).
  reflexivity.
Defined.

Lemma merge_held_entry_witness :
  chunk_hash remote = "H" ∧
  merge_entry remote (run Standin.sha256 [MergeEntry remote; AddEntry "H" ["d2"] "B" 50]) =
  run Standin.sha256 [MergeEntry remote; AddEntry "H" ["d2"] "B" 50].
Proof.
  apply (merge_held_entry Standin.sha256 [MergeEntry remote; AddEntry "H" ["d2"] "B" 50] "H"
           remote).
  vm_compute. left.
Defined.

Lemma merge_entry_latest_witness :
  get_latest (chunk_hash entry_a) (merge_entry entry_a (merge_entry entry_c empty)) =
    match get_latest (chunk_hash entry_a) (merge_entry entry_c empty) with
    | Some latest => if timestamp latest <? timestamp entry_a then Some entry_a else Some latest
    | None => Some entry_a
    end ∧
  ∀ h, h ≠ chunk_hash entry_a →
    get_latest h (merge_entry entry_a (merge_entry entry_c empty)) =
    get_latest h (merge_entry entry_c empty).
Proof.
  apply (merge_entry_latest entry_a (merge_entry entry_c empty)).
  - intros [x Hx]. vm_compute in Hx. discriminate.
  - apply merge_entry_sorted. intros h. constructor.
Defined.

End ConsensusSpec.

(** ** Routing *)

Module RoutingSpec.
Import Routing.

Section Graphs.
Context {F : Float.Ops}.

Lemma edge_set_link a b link g u v l :
  edge (set_link a b link g) u v l → (u = a ∧ v = b) ∨ edge g u v l.
Proof.
  intros (nbrs & Hu & Hv). unfold set_link in Hu.
  destruct (decide (a = u)) as [->|Hau].
  - rewrite lookup_insert_eq in Hu. inversion Hu; subst nbrs.
    destruct (decide (b = v)) as [->|Hbv]; [left; split; reflexivity|right].
    rewrite lookup_insert_ne in Hv by exact Hbv.
    destruct (g !! u) as [n|] eqn:En; cbn in Hv; [|rewrite lookup_empty in Hv; discriminate].
    exists n. split; assumption.
  - rewrite lookup_insert_ne in Hu by exact Hau. right. exists nbrs. split; assumption.
Qed.

Lemma device_set_link a b link g x :
  is_Some (g !! x) ∨ x = a → is_Some (set_link a b link g !! x).
Proof.
  intros H. unfold set_link. destruct (decide (a = x)) as [->|Hax].
  - rewrite lookup_insert_eq. eauto.
  - rewrite lookup_insert_ne by exact Hax. destruct H; [assumption|congruence].
Qed.

Lemma closed_add_link from to link r :
  closed (graph_ r) → closed (graph_ (add_link from to link r)).
Proof.
  intros Hc u v l He. unfold add_link in *. cbn in *.
  apply device_set_link.
  apply edge_set_link in He as [[-> ->]|He].
  { left. apply device_set_link. right. reflexivity. }
  apply edge_set_link in He as [[-> ->]|He]; [right; reflexivity|].
  left. apply device_set_link. left. exact (Hc u v l He).
Qed.

Lemma edge_erase_link a b g u v l :
  edge (erase_link a b g) u v l → edge g u v l.
Proof.
  intros (nbrs & Hu & Hv). unfold erase_link in Hu.
  destruct (g !! a) as [n|] eqn:Ea; [|exists nbrs; split; assumption].
  destruct (decide (a = u)) as [->|Hau].
  - rewrite lookup_insert_eq in Hu. inversion Hu; subst nbrs.
    apply lookup_delete_Some in Hv as [_ Hv]. exists n. split; assumption.
  - rewrite lookup_insert_ne in Hu by exact Hau. exists nbrs. split; assumption.
Qed.

Lemma device_erase_link a b g x :
  is_Some (g !! x) → is_Some (erase_link a b g !! x).
Proof.
  intros H. unfold erase_link. destruct (g !! a) as [n|] eqn:Ea; [|exact H].
  destruct (decide (a = x)) as [->|Hax].
  - rewrite lookup_insert_eq. eauto.
  - rewrite lookup_insert_ne by exact Hax. exact H.
Qed.

Lemma closed_remove_link from to r :
  closed (graph_ r) → closed (graph_ (remove_link from to r)).
Proof.
  intros Hc u v l He. unfold remove_link in *. cbn in *.
  do 2 apply device_erase_link. do 2 apply edge_erase_link in He.
  exact (Hc u v l He).
Qed.

Lemma edge_set_quality a b q g u v l :
  edge (set_quality a b q g) u v l → ∃ l', edge g u v l'.
Proof.
  intros (nbrs & Hu & Hv). unfold set_quality in Hu.
  destruct (g !! a) as [n|] eqn:Ea; [|exists l, nbrs; split; assumption].
  destruct (n !! b) as [l0|] eqn:Eb; [|exists l, nbrs; split; assumption].
  destruct (decide (a = u)) as [->|Hau].
  - rewrite lookup_insert_eq in Hu. inversion Hu; subst nbrs.
    destruct (decide (b = v)) as [->|Hbv].
    + exists l0, n. split; assumption.
    + rewrite lookup_insert_ne in Hv by exact Hbv. exists l, n. split; assumption.
  - rewrite lookup_insert_ne in Hu by exact Hau. exists l, nbrs. split; assumption.
Qed.

Lemma device_set_quality a b q g x :
  is_Some (g !! x) → is_Some (set_quality a b q g !! x).
Proof.
  intros H. unfold set_quality. destruct (g !! a) as [n|] eqn:Ea; [|exact H].
  destruct (n !! b) as [l0|]; [|exact H].
  destruct (decide (a = x)) as [->|Hax].
  - rewrite lookup_insert_eq. eauto.
  - rewrite lookup_insert_ne by exact Hax. exact H.
Qed.

Lemma closed_update_link from to q r :
  closed (graph_ r) → closed (graph_ (update_link from to q r)).
Proof.
  intros Hc u v l He. unfold update_link in *. cbn in *.
  do 2 apply device_set_quality.
  apply edge_set_quality in He as [l1 He]. apply edge_set_quality in He as [l2 He].
  exact (Hc u v l2 He).
Qed.

End Graphs.

(** *** The order of costs *)

Section Order.
Context {F : Float.Ops} {O : Ordered F}.

Lemma leb_refl (a : Float.t) : Float.leb a a = true.
Proof. unfold Float.leb. rewrite ltb_irrefl. reflexivity. Qed.

Lemma ltb_leb (a b : Float.t) : Float.ltb a b = true → Float.leb a b = true.
Proof.
  intros H. unfold Float.leb. destruct (Float.ltb b a) eqn:E; [|reflexivity].
  pose proof (ltb_trans a b a H E) as Haa. rewrite ltb_irrefl in Haa. discriminate.
Qed.

Lemma not_ltb_leb (a b : Float.t) : Float.ltb a b = false → Float.leb b a = true.
Proof. intros H. unfold Float.leb. rewrite H. reflexivity. Qed.

Lemma leb_not_ltb (a b : Float.t) : Float.leb a b = true → Float.ltb b a = false.
Proof. unfold Float.leb. destruct (Float.ltb b a); [discriminate|reflexivity]. Qed.

Lemma leb_ltb_trans (a b c : Float.t) :
  Float.leb a b = true → Float.ltb b c = true → Float.ltb a c = true.
Proof.
  intros Hab Hbc. destruct (Float.ltb a c) eqn:E; [reflexivity|].
  apply not_ltb_leb in E. pose proof (leb_trans c a b E Hab) as Hcb.
  apply leb_not_ltb in Hcb. congruence.
Qed.

Lemma ltb_leb_trans (a b c : Float.t) :
  Float.ltb a b = true → Float.leb b c = true → Float.ltb a c = true.
Proof.
  intros Hab Hbc. destruct (Float.ltb a c) eqn:E; [reflexivity|].
  apply not_ltb_leb in E. pose proof (leb_trans b c a Hbc E) as Hba.
  apply leb_not_ltb in Hba. congruence.
Qed.

(** *** The priority queue *)

Lemma item_lt_leb (x m : QueueItem) : item_lt x m = true → Float.leb x.1 m.1 = true.
Proof.
  unfold item_lt. intros H. apply orb_true_iff in H as [H|H].
  - apply ltb_leb, H.
  - apply andb_true_iff in H as [H _]. exact H.
Qed.

Lemma pq_pop_None (pq : list QueueItem) : pq_pop pq = None → pq = [].
Proof.
  destruct pq as [|x rest]; [reflexivity|]. cbn.
  destruct (pq_pop rest) as [[m rest']|]; [|discriminate].
  destruct (item_lt x m); discriminate.
Qed.

Lemma pq_pop_permutation (pq : list QueueItem) m rest :
  pq_pop pq = Some (m, rest) → pq ≡ₚ m :: rest.
Proof.
  revert m rest. induction pq as [|x pq IH]; intros m rest H; [discriminate|].
  cbn in H. destruct (pq_pop pq) as [[m' rest']|] eqn:E.
  - specialize (IH m' rest' eq_refl).
    destruct (item_lt x m'); inversion H; subst; [reflexivity|].
    rewrite IH. apply Permutation_swap.
  - apply pq_pop_None in E. subst pq. inversion H; subst. reflexivity.
Qed.

Lemma pq_pop_least (pq : list QueueItem) m rest :
  pq_pop pq = Some (m, rest) → ∀ x, x ∈ pq → Float.leb m.1 x.1 = true.
Proof.
  revert m rest. induction pq as [|y pq IH]; intros m rest H x Hx; [discriminate|].
  cbn in H. destruct (pq_pop pq) as [[m' rest']|] eqn:E.
  - specialize (IH m' rest' eq_refl).
    destruct (item_lt y m') eqn:Elt; inversion H; subst.
    + apply elem_of_cons in Hx as [->|Hx]; [apply leb_refl|].
      eapply leb_trans; [apply item_lt_leb, Elt|apply IH, Hx].
    + apply elem_of_cons in Hx as [->|Hx]; [|apply IH, Hx].
      unfold item_lt in Elt. apply orb_false_iff in Elt as [Elt _].
      apply not_ltb_leb, Elt.
  - apply pq_pop_None in E. subst pq. inversion H; subst.
    apply list_elem_of_singleton in Hx. subst. apply leb_refl.
Qed.

End Order.

(** *** Paths from the predecessor map *)

Lemma reconstruct_chain prev source p v :
  source ≠ EmptyString → chain prev source p v →
  ∀ fuel suffix, (length p ≤ fuel)%nat →
    reconstruct fuel prev source v suffix = Some (p ++ suffix).
Proof.
  intros Hs Hc. induction Hc as [|p u v Hc IH Hvs Hve Hprev]; intros fuel suffix Hfuel.
  - destruct fuel as [|fuel]; [cbn in Hfuel; lia|]. cbn.
    rewrite decide_False by exact Hs. rewrite decide_True by reflexivity. reflexivity.
  - rewrite length_app in Hfuel. cbn in Hfuel.
    destruct fuel as [|fuel]; [lia|]. cbn.
    rewrite decide_False by exact Hve. rewrite decide_False by exact Hvs.
    unfold prev_at. rewrite Hprev. cbn. rewrite IH by lia.
    rewrite <- app_assoc. reflexivity.
Qed.

Lemma chain_insert prev source p v x u :
  chain prev source p v → x ∉ p → chain (<[x := u]> prev) source p v.
Proof.
  intros Hc. induction Hc as [|p w v Hc IH Hvs Hve Hprev]; intros Hx; [constructor|].
  apply not_elem_of_app in Hx as [Hxp Hxv].
  apply (chain_link _ _ p w v); [apply IH, Hxp|exact Hvs|exact Hve|].
  rewrite lookup_insert_ne; [exact Hprev|].
  intros ->. apply Hxv. left.
Qed.

Lemma chain_last prev source p v : chain prev source p v → last p = Some v.
Proof. intros [|]; [reflexivity|apply last_snoc]. Qed.

Lemma chain_reached prev source p v :
  chain prev source p v → is_Some (prev !! v) ∨ v = source.
Proof. intros [|]; [right; reflexivity|left; eauto]. Qed.

(** *** The metrics of a path of the graph *)

Section Metrics.
Context {F : Float.Ops}.

Lemma walk_last g source p v c : walk g source p v c → last p = Some v.
Proof. intros [|]; [reflexivity|apply last_snoc]. Qed.

Lemma walk_linked g source p v c : walk g source p v c → linked g p.
Proof.
  intros Hw. induction Hw as [|p u c v link Hw IH He]; intros i a b Ha Hb.
  - destruct i; discriminate.
  - pose proof (walk_last _ _ _ _ _ Hw) as Hlast.
    destruct (decide (S i < length p)%nat) as [Hlt|Hge].
    + rewrite lookup_app_l in Ha by lia. rewrite lookup_app_l in Hb by lia.
      exact (IH i a b Ha Hb).
    + apply lookup_lt_Some in Hb as Hb'. rewrite length_app in Hb'. cbn in Hb'.
      assert (S i = length p) as Hi by lia.
      rewrite lookup_app_l in Ha by lia.
      rewrite lookup_app_r, Hi, Nat.sub_diag in Hb by lia. cbn in Hb. inversion Hb; subst b.
      rewrite last_lookup in Hlast. replace (pred (length p)) with i in Hlast by lia.
      assert (a = u) by congruence. subst a. exists link. exact He.
Qed.

Lemma get_link_edge g a b link : edge g a b link → get_link a b g = (link, g).
Proof.
  intros (nbrs & Ha & Hb). unfold get_link. rewrite Ha. cbn. rewrite Hb. cbn.
  rewrite (insert_id nbrs b link Hb), (insert_id g a nbrs Ha). reflexivity.
Qed.

Lemma metrics_linked g p acc : linked g p → (metrics g p acc).1 = g.
Proof.
  revert acc. induction p as [|a p IH]; intros acc Hl; [reflexivity|].
  destruct p as [|b p]; [reflexivity|].
  cbn [metrics]. destruct acc as [[lat bw] q].
  destruct (Hl 0%nat a b eq_refl eq_refl) as [link He].
  rewrite (get_link_edge g a b link He). apply IH.
  intros i x y Hx Hy. exact (Hl (S i) x y Hx Hy).
Qed.

End Metrics.

(** *** The invariant of the search *)

Section Search.
Context {F : Float.Ops} {O : Ordered F}.
Variable g : gmap string (gmap string Link).
Variables source dest : string.
Hypothesis Hwf : well_formed g source.

Abbreviation inv_gen := (Routing.inv_gen g source dest).
Abbreviation inv := (Routing.inv g source dest).
Abbreviation found := (Routing.found g source dest).
Abbreviation weight := (Routing.weight g).

Lemma cost_at_Some cost v c : cost !! v = Some c → cost_at cost v = c.
Proof. intros H. unfold cost_at. rewrite H. reflexivity. Qed.

Lemma cost_at_insert cost v c x :
  cost_at (<[v := c]> cost) x = if decide (v = x) then c else cost_at cost x.
Proof.
  unfold cost_at. case_decide as H.
  - subst. rewrite lookup_insert_eq. reflexivity.
  - rewrite lookup_insert_ne by exact H. reflexivity.
Qed.

Lemma edge_functional u v l1 l2 : edge g u v l1 → edge g u v l2 → l1 = l2.
Proof. intros (n1 & H1 & H1') (n2 & H2 & H2'). congruence. Qed.

Lemma inv_gen_weaken X R R' b cost prev pq :
  inv_gen X R b cost prev pq →
  (∀ x y link, R' x y → edge g x y link → R x y) →
  (∀ x y, R' x y → x ∈ X) →
  inv_gen X R' b cost prev pq.
Proof.
  intros [] HR HS. constructor; try assumption.
  intros x v link Hr He. apply ig_relaxed0; [exact (HR x v link Hr He)|exact He].
Qed.

(** A path from the source ends at a device already handled, or costs
    no less than any lower bound [m] of the queue. *)
Lemma walk_bound X b cost prev pq m p x cp :
  inv X b cost prev pq →
  (∀ c v, (c, v) ∈ pq → Float.leb m c = true) →
  walk g source p x cp →
  x ∈ X ∨ Float.leb m cp = true.
Proof.
  intros Hinv Hm Hw. induction Hw as [|p u c v link Hw IH He].
  - destruct (decide (source ∈ X)) as [Hin|Hout]; [left; exact Hin|right].
    apply (Hm Float.zero source).
    apply (ig_queue g source dest _ _ _ _ _ _ Hinv); [apply (ig_source g source dest _ _ _ _ _ _ Hinv)| |exact Hout].
    apply (wf_bounded g source Hwf [source] source). constructor.
  - pose proof (wf_nonneg g source Hwf u v link He) as Hnn.
    destruct IH as [Hu|Hle].
    + destruct (decide (v ∈ X)) as [Hin|Hout]; [left; exact Hin|right].
      assert (Hvc : Float.leb (cost_at cost v) (Float.add c (edge_cost link)) = true).
      { eapply leb_trans.
        - apply (ig_relaxed g source dest _ _ _ _ _ _ Hinv u v link Hu He).
        - apply add_mono. apply (ig_optimal g source dest _ _ _ _ _ _ Hinv u p c Hu Hw). }
      pose proof (wf_bounded g source Hwf _ _ _ (walk_link g source p u c v link Hw He))
        as Hfin.
      destruct (proj2 (ig_dom g source dest _ _ _ _ _ _ Hinv v)) as [cv Hcv].
      { left. exact (wf_closed g source Hwf u v link He). }
      rewrite (cost_at_Some _ _ _ Hcv) in Hvc.
      eapply leb_trans; [|exact Hvc].
      apply (Hm cv v), (ig_queue g source dest _ _ _ _ _ _ Hinv); [exact Hcv| |exact Hout].
      exact (leb_ltb_trans _ _ _ Hvc Hfin).
    + right. eapply leb_trans; [exact Hle|]. apply add_nonneg, Hnn.
Qed.

(** One relaxation. *)
Lemma relax_inv X R b cost prev pq u v link :
  inv_gen X R b cost prev pq → u ∈ X → edge g u v link →
  Float.leb b (cost_at cost u) = true →
  ∃ cost' prev' pq',
    relax u (cost, prev, pq) (v, link) = (cost', prev', pq') ∧
    inv_gen X (λ x y, R x y ∨ (x = u ∧ y = v)) b cost' prev' pq' ∧
    cost_at cost' u = cost_at cost u ∧
    (length pq' ≤ length pq + 1)%nat.
Proof.
  intros Hinv Hu He Hb. pose proof Hinv as [].
  cbn [relax]. set (new_cost := Float.add (cost_at cost u) (edge_cost link)).
  pose proof (wf_nonneg g source Hwf u v link He) as Hnn.
  assert (Hunew : Float.leb (cost_at cost u) new_cost = true) by (apply add_nonneg, Hnn).
  destruct (Float.ltb new_cost (cost_at cost v)) eqn:Elt.
  2:{ exists cost, prev, pq. split; [reflexivity|]. split; [|split; [reflexivity|lia]].
      constructor; try assumption.
      - intros x y l [Hr|[-> ->]] Hxy; [apply ig_relaxed0; assumption|].
        rewrite (edge_functional u v l link Hxy He). apply not_ltb_leb, Elt.
      - intros x y [Hr|[-> _]]; [exact (ig_relaxed_settled0 x y Hr)|exact Hu]. }
  destruct (ig_settled0 u Hu) as ([cu Hcu] & Hufin & _).
  pose proof (cost_at_Some _ _ _ Hcu) as Hcu'.
  destruct (ig_label0 u cu Hcu ltac:(rewrite <- Hcu'; exact Hufin))
    as (pu & Hwu & Hchu & Hndu & Hpu).
  assert (Hpu' : ∀ x, x ∈ pu → x ∈ X).
  { intros x Hx. destruct (Hpu x Hx) as [->|Hx']; assumption. }
  assert (Hwv : walk g source (pu ++ [v]) v new_cost).
  { unfold new_cost. rewrite Hcu'. apply walk_link with (u := u); assumption. }
  assert (HvS : v ∉ X).
  { intros Hv. pose proof (ig_optimal0 v _ _ Hv Hwv) as Hle.
    apply leb_not_ltb in Hle. congruence. }
  assert (Hvsrc : v ≠ source).
  { intros ->. rewrite (cost_at_Some _ _ _ ig_source0) in Elt.
    pose proof (leb_trans _ _ _ (ig_nonneg0 u) Hunew) as Hle.
    apply leb_not_ltb in Hle. congruence. }
  pose proof (wf_closed g source Hwf u v link He) as Hvg.
  assert (Hvne : v ≠ EmptyString).
  { intros ->. rewrite (wf_named g source Hwf) in Hvg. destruct Hvg; discriminate. }
  assert (Hnewfin : Float.ltb new_cost Float.infinity = true).
  { exact (ltb_leb_trans _ _ _ Elt (infinity_top _)). }
  assert (Huv : u ≠ v) by (intros ->; contradiction).
  exists (<[v := new_cost]> cost), (<[v := u]> prev), ((new_cost, v) :: pq).
  split; [reflexivity|]. split; [|split; [|cbn; lia]].
  2:{ rewrite cost_at_insert, decide_False by congruence. reflexivity. }
  constructor.
  - rewrite lookup_insert_ne by exact Hvsrc. exact ig_source0.
  - intros x. destruct (decide (v = x)) as [<-|Hx].
    + rewrite lookup_insert_eq. split; [intros _; left; exact Hvg|eauto].
    + rewrite lookup_insert_ne by exact Hx. apply ig_dom0.
  - intros x. rewrite cost_at_insert. case_decide; [|apply ig_nonneg0].
    exact (leb_trans _ _ _ (ig_nonneg0 u) Hunew).
  - intros x c Hx Hfin. destruct (decide (v = x)) as [<-|Hvx].
    + rewrite lookup_insert_eq in Hx. inversion Hx; subst c.
      exists (pu ++ [v]). split; [exact Hwv|]. split; [|split].
      * apply chain_link with (u := u); [|exact Hvsrc|exact Hvne|apply lookup_insert_eq].
        apply chain_insert; [exact Hchu|]. intros Hin. exact (HvS (Hpu' v Hin)).
      * apply NoDup_app. split; [exact Hndu|]. split; [|apply NoDup_singleton].
        intros y Hy Hy'. apply list_elem_of_singleton in Hy'. subst y.
        exact (HvS (Hpu' v Hy)).
      * intros y Hy. apply elem_of_app in Hy as [Hy|Hy]; [right; exact (Hpu' y Hy)|].
        apply list_elem_of_singleton in Hy. left. exact Hy.
    + rewrite lookup_insert_ne in Hx by exact Hvx.
      destruct (ig_label0 x c Hx Hfin) as (p & Hw & Hch & Hnd & Hp).
      exists p. split; [exact Hw|]. split; [|split; assumption].
      apply chain_insert; [exact Hch|]. intros Hin.
      destruct (Hp v Hin) as [->|Hv']; [congruence|contradiction].
  - intros x c Hx Hfin HxS. destruct (decide (v = x)) as [<-|Hvx].
    + rewrite lookup_insert_eq in Hx. inversion Hx; subst c. left.
    + rewrite lookup_insert_ne in Hx by exact Hvx. right.
      exact (ig_queue0 x c Hx Hfin HxS).
  - intros c x Hin. apply elem_of_cons in Hin as [Hin|Hin].
    + inversion Hin; subst c x. rewrite lookup_insert_eq.
      split; [exact Hnewfin|]. split; [eauto|left; reflexivity].
    + destruct (ig_entries0 c x Hin) as (Hfin & Hsome & Hc).
      split; [exact Hfin|]. destruct (decide (v = x)) as [<-|Hvx].
      * rewrite lookup_insert_eq. split; [eauto|right].
        rewrite cost_at_insert, decide_True by reflexivity.
        destruct Hc as [Hc|Hc].
        -- rewrite (cost_at_Some _ _ _ Hc) in Elt. exact Elt.
        -- exact (ltb_trans _ _ _ Elt Hc).
      * rewrite lookup_insert_ne by exact Hvx. split; [exact Hsome|].
        rewrite cost_at_insert, decide_False by exact Hvx. exact Hc.
  - intros c x Hin HxS. apply elem_of_cons in Hin as [Hin|Hin].
    + inversion Hin; subst. contradiction.
    + rewrite cost_at_insert, decide_False by (intros <-; contradiction).
      exact (ig_stale0 c x Hin HxS).
  - apply NoDup_cons. split; [|exact ig_nodup0]. intros Hin.
    destruct (ig_entries0 _ _ Hin) as (_ & _ & [Hc|Hc]).
    + rewrite (cost_at_Some _ _ _ Hc), ltb_irrefl in Elt. discriminate.
    + pose proof (ltb_trans _ _ _ Elt Hc) as Hcc. rewrite ltb_irrefl in Hcc. discriminate.
  - intros x y l Hr Hxy.
    assert (HxS : x ∈ X).
    { destruct Hr as [Hr|[-> _]]; [exact (ig_relaxed_settled0 x y Hr)|exact Hu]. }
    rewrite (cost_at_insert cost v new_cost x), decide_False by (intros <-; contradiction).
    rewrite cost_at_insert. case_decide as Hy.
    + subst y. destruct Hr as [Hr|[-> _]].
      * exact (leb_trans _ _ _ (ltb_leb _ _ Elt) (ig_relaxed0 x v l Hr Hxy)).
      * rewrite (edge_functional u v l link Hxy He). apply leb_refl.
    + destruct Hr as [Hr|[_ ->]]; [exact (ig_relaxed0 x y l Hr Hxy)|congruence].
  - intros x y [Hr|[-> _]]; [exact (ig_relaxed_settled0 x y Hr)|exact Hu].
  - intros x p c HxS Hw.
    rewrite cost_at_insert, decide_False by (intros <-; contradiction).
    exact (ig_optimal0 x p c HxS Hw).
  - intros x HxS. assert (v ≠ x) by (intros <-; contradiction).
    rewrite lookup_insert_ne, cost_at_insert, decide_False by assumption.
    exact (ig_settled0 x HxS).
  - intros x HxS.
    rewrite cost_at_insert, decide_False by (intros <-; contradiction).
    exact (ig_level_settled0 x HxS).
  - intros c x Hin. apply elem_of_cons in Hin as [Hin|Hin].
    + inversion Hin; subst. exact (leb_trans _ _ _ Hb Hunew).
    + exact (ig_level_queue0 c x Hin).
Qed.

(** The relaxation of all the links of [u]. *)
Lemma relax_fold_inv X b u l :
  u ∈ X → (∀ v link, (v, link) ∈ l → edge g u v link) →
  ∀ R cost prev pq,
    inv_gen X R b cost prev pq →
    Float.leb b (cost_at cost u) = true →
    ∃ cost' prev' pq',
      foldl (relax u) (cost, prev, pq) l = (cost', prev', pq') ∧
      inv_gen X (λ x y, R x y ∨ (x = u ∧ y ∈ l.*1)) b cost' prev' pq' ∧
      (length pq' ≤ length pq + length l)%nat.
Proof.
  intros Hu. induction l as [|[v link] l IH]; intros Hl R cost prev pq Hinv Hb.
  - exists cost, prev, pq. split; [reflexivity|]. split; [|cbn; lia].
    apply (inv_gen_weaken X R _ b cost prev pq Hinv).
    + intros x y _ [Hr|[_ Hy]] _; [exact Hr|]. apply elem_of_nil in Hy. destruct Hy.
    + intros x y [Hr|[_ Hy]]; [exact (ig_relaxed_settled g source dest _ _ _ _ _ _ Hinv x y Hr)|].
      apply elem_of_nil in Hy. destruct Hy.
  - assert (Hhd : edge g u v link) by (apply Hl; left).
    assert (Htl : ∀ v' link', (v', link') ∈ l → edge g u v' link').
    { intros v' link' H. apply Hl. right. exact H. }
    destruct (relax_inv X R b cost prev pq u v link Hinv Hu Hhd Hb)
      as (cost1 & prev1 & pq1 & E1 & Hinv1 & Hcu & Hlen1).
    rewrite <- Hcu in Hb.
    destruct (IH Htl _ cost1 prev1 pq1 Hinv1 Hb)
      as (cost' & prev' & pq' & E & Hinv' & Hlen').
    exists cost', prev', pq'. cbn [foldl]. rewrite E1. split; [exact E|].
    split; [|cbn; lia].
    apply (inv_gen_weaken _ _ _ _ _ _ _ Hinv').
    + intros x y _ [Hr|[-> Hy]] _; [left; left; exact Hr|].
      cbn in Hy. apply elem_of_cons in Hy as [->|Hy]; [left; right; split; reflexivity|].
      right. split; [reflexivity|exact Hy].
    + intros x y [Hr|[-> _]]; [exact (ig_relaxed_settled g source dest _ _ _ _ _ _ Hinv x y Hr)|exact Hu].
Qed.

(** A queue item that is out of date is dropped. *)
Lemma skip_inv X b cost prev pq c u pq' :
  inv X b cost prev pq → pq_pop pq = Some ((c, u), pq') →
  Float.ltb (cost_at cost u) c = true →
  inv X b cost prev pq'.
Proof.
  intros Hinv Hpop Hstale. pose proof Hinv as [].
  pose proof (pq_pop_permutation _ _ _ Hpop) as Hperm.
  assert (Hsub : ∀ x, x ∈ pq' → x ∈ pq).
  { intros x Hx. rewrite Hperm. right. exact Hx. }
  constructor; try assumption.
  - intros v cv Hv Hfin HvX. pose proof (ig_queue0 v cv Hv Hfin HvX) as Hin.
    rewrite Hperm in Hin. apply elem_of_cons in Hin as [Hin|Hin]; [|exact Hin].
    inversion Hin; subst. rewrite (cost_at_Some _ _ _ Hv), ltb_irrefl in Hstale.
    discriminate.
  - intros c' v Hin. apply ig_entries0, Hsub, Hin.
  - intros c' v Hin. apply ig_stale0, Hsub, Hin.
  - rewrite Hperm in ig_nodup0. apply NoDup_cons in ig_nodup0 as [_ H]. exact H.
  - intros c' v Hin. exact (ig_level_queue0 c' v (Hsub _ Hin)).
Qed.

(** A queue item that is up to date settles its device. *)
Lemma settle_inv X b cost prev pq c u pq' :
  inv X b cost prev pq → pq_pop pq = Some ((c, u), pq') →
  u ≠ dest → Float.ltb (cost_at cost u) c = false →
  (u ∉ X) ∧ cost_at cost u = c ∧
  inv_gen (X ∪ {[u]}) (λ x _, x ∈ X) c cost prev pq'.
Proof.
  intros Hinv Hpop Hud Hfresh. pose proof Hinv as [].
  pose proof (pq_pop_permutation _ _ _ Hpop) as Hperm.
  assert (Hin : (c, u) ∈ pq) by (rewrite Hperm; left).
  assert (Hsub : ∀ x, x ∈ pq' → x ∈ pq).
  { intros x Hx. rewrite Hperm. right. exact Hx. }
  destruct (ig_entries0 c u Hin) as (Hfin & Hsome & [Hcu|Hcu]); [|congruence].
  pose proof (cost_at_Some _ _ _ Hcu) as Hcu'.
  assert (HuX : u ∉ X).
  { intros HuX. pose proof (ig_stale0 c u Hin HuX). congruence. }
  pose proof ig_nodup0 as Hnd. rewrite Hperm in Hnd. apply NoDup_cons in Hnd as [Hhead Hnd].
  split; [exact HuX|]. split; [exact Hcu'|].
  constructor; try assumption.
  - intros v cv Hv Hfv. destruct (ig_label0 v cv Hv Hfv) as (p & Hw & Hch & Hndp & Hp).
    exists p. split; [exact Hw|]. split; [exact Hch|]. split; [exact Hndp|].
    intros x Hx. destruct (Hp x Hx) as [->|Hx']; [left; reflexivity|right].
    apply elem_of_union. left. exact Hx'.
  - intros v cv Hv Hfv HvX. apply not_elem_of_union in HvX as [HvX Hvu].
    pose proof (ig_queue0 v cv Hv Hfv HvX) as Hq. rewrite Hperm in Hq.
    apply elem_of_cons in Hq as [Hq|Hq]; [|exact Hq].
    inversion Hq; subst. exfalso. apply Hvu, elem_of_singleton. reflexivity.
  - intros c' v Hq. apply ig_entries0, Hsub, Hq.
  - intros c' v Hq HvX. apply elem_of_union in HvX as [HvX|HvX].
    + exact (ig_stale0 c' v (Hsub _ Hq) HvX).
    + apply elem_of_singleton in HvX. subst v.
      destruct (ig_entries0 c' u (Hsub _ Hq)) as (_ & _ & [Hc'|Hc']); [|exact Hc'].
      assert (c' = c) by congruence. subst c'. contradiction.
  - intros x v Hx. apply elem_of_union. left. exact Hx.
  - intros x p cp HxX Hw. apply elem_of_union in HxX as [HxX|HxX].
    + exact (ig_optimal0 x p cp HxX Hw).
    + apply elem_of_singleton in HxX. subst x. rewrite Hcu'.
      destruct (walk_bound X b cost prev pq c p u cp Hinv) as [Hbad|Hle];
        [|exact Hw|contradiction|exact Hle].
      intros c' v Hq. exact (pq_pop_least _ _ _ Hpop (c', v) Hq).
  - intros x HxX. apply elem_of_union in HxX as [HxX|HxX]; [exact (ig_settled0 x HxX)|].
    apply elem_of_singleton in HxX. subst x. rewrite Hcu'.
    split; [exact Hsome|]. split; [exact Hfin|exact Hud].
  - intros x HxX. apply elem_of_union in HxX as [HxX|HxX].
    + exact (leb_trans _ _ _ (ig_level_settled0 x HxX) (ig_level_queue0 c u Hin)).
    + apply elem_of_singleton in HxX. subst x. rewrite Hcu'. apply leb_refl.
  - intros c' v Hq. exact (pq_pop_least _ _ _ Hpop (c', v) (Hsub _ Hq)).
Qed.

Lemma found_at_dest X b cost prev pq c pq' :
  inv X b cost prev pq → pq_pop pq = Some ((c, dest), pq') → found cost prev.
Proof.
  intros Hinv Hpop. pose proof Hinv as [].
  pose proof (pq_pop_permutation _ _ _ Hpop) as Hperm.
  assert (Hin : (c, dest) ∈ pq) by (rewrite Hperm; left).
  destruct (ig_entries0 c dest Hin) as (Hfin & [cd Hcd] & Hc).
  pose proof (cost_at_Some _ _ _ Hcd) as Hcd'.
  assert (Hle : Float.leb cd c = true).
  { destruct Hc as [Hc|Hc]; [assert (cd = c) by congruence; subst; apply leb_refl|].
    rewrite Hcd' in Hc. apply ltb_leb, Hc. }
  destruct (ig_label0 dest cd Hcd (leb_ltb_trans _ _ _ Hle Hfin))
    as (p & Hw & Hch & Hnd & Hp).
  exists p, cd. split; [exact Hcd|]. split; [exact Hw|]. split; [exact Hch|]. split.
  - assert (Hsub : ∀ x, x ∈ p → x ∈ dom g ∪ ({[source]} : gset string)).
    { intros x Hx. apply elem_of_union.
      assert (is_Some (cost !! x)) as Hs.
      { destruct (Hp x Hx) as [->|HxX]; [eauto|apply (ig_settled0 x HxX)]. }
      apply ig_dom0 in Hs as [Hs| ->]; [left; apply elem_of_dom, Hs|].
      right. apply elem_of_singleton. reflexivity. }
    assert (length p ≤ size (dom g ∪ ({[source]} : gset string)))%nat as Hlen.
    { rewrite <- (size_list_to_set (C := gset string) p Hnd).
      apply subseteq_size. intros x Hx. apply elem_of_list_to_set in Hx. exact (Hsub x Hx). }
    pose proof (size_union_alt (dom g) ({[source]} : gset string)) as Hu.
    assert (Hd : (size (({[source]} : gset string) ∖ dom g) ≤ 1)%nat).
    { rewrite <- (size_singleton (C := gset string) source).
      apply subseteq_size. intros x Hx. apply elem_of_difference in Hx as [Hx _]. exact Hx. }
    rewrite size_dom in Hu. lia.
  - intros p' c' Hw'.
    destruct (walk_bound X b cost prev pq c p' dest c' Hinv) as [Hbad|Hcc];
      [|exact Hw'| |exact (leb_trans _ _ _ Hle Hcc)].
    + intros c'' v Hq. exact (pq_pop_least _ _ _ Hpop (c'', v) Hq).
    + exfalso. apply (ig_settled0 dest Hbad). reflexivity.
Qed.

(** *** Termination *)

Lemma weight_settle_none X u : g !! u = None → weight (X ∪ {[u]}) = weight X.
Proof.
  intros Hu. unfold weight. apply (f_equal sum_list), map_ext_in. intros [k n] Hk.
  apply list_elem_of_In, elem_of_map_to_list in Hk. cbn.
  assert (k ≠ u) as Hku by congruence.
  destruct (decide (k ∈ X)) as [Hin|Hout].
  - rewrite decide_True; [reflexivity|]. apply elem_of_union. left. exact Hin.
  - rewrite decide_False; [reflexivity|]. intros Hk'.
    apply elem_of_union in Hk' as [Hk'|Hk']; [contradiction|].
    apply elem_of_singleton in Hk'. contradiction.
Qed.

Lemma weight_settle X u nbrs :
  g !! u = Some nbrs → u ∉ X → (weight (X ∪ {[u]}) + size nbrs = weight X)%nat.
Proof.
  intros Hu HuX. unfold weight.
  pose proof (map_to_list_delete g u nbrs Hu) as Hperm.
  rewrite <- !Hperm. cbn [map sum_list fst snd].
  rewrite decide_True by (apply elem_of_union; right; apply elem_of_singleton; reflexivity).
  rewrite decide_False by exact HuX.
  assert (E : map (λ e : string * gmap string Link,
                     if decide (e.1 ∈ X ∪ {[u]}) then 0%nat else size e.2)
                (map_to_list (delete u g)) =
              map (λ e, if decide (e.1 ∈ X) then 0%nat else size e.2)
                (map_to_list (delete u g))).
  { apply map_ext_in. intros [k n] Hk.
    apply list_elem_of_In, elem_of_map_to_list, lookup_delete_Some in Hk as [Hne _]. cbn.
    destruct (decide (k ∈ X)) as [Hin|Hout].
    - rewrite decide_True; [reflexivity|]. apply elem_of_union. left. exact Hin.
    - rewrite decide_False; [reflexivity|]. intros Hk'.
      apply elem_of_union in Hk' as [Hk'|Hk']; [contradiction|].
      apply elem_of_singleton in Hk'. congruence. }
  rewrite E. unfold id. lia.
Qed.

Lemma pq_pop_length (pq : list QueueItem) m rest :
  pq_pop pq = Some (m, rest) → length pq = Datatypes.S (length rest).
Proof. intros H. apply pq_pop_permutation in H. rewrite H. reflexivity. Qed.

Lemma search_spec fuel :
  ∀ X b cost prev pq,
    inv X b cost prev pq →
    (length pq + weight X < fuel)%nat →
    (∃ p0 c0, walk g source p0 dest c0) →
    ∃ cost' prev' pq',
      search fuel g dest (cost, prev, pq) = Some (cost', prev', pq') ∧ found cost' prev'.
Proof.
  induction fuel as [|fuel IH]; intros X b cost prev pq Hinv Hfuel Hreach; [lia|].
  cbn [search]. destruct (pq_pop pq) as [[[c u] pq']|] eqn:Hpop.
  2:{ exfalso. apply pq_pop_None in Hpop. subst pq.
      destruct Hreach as (p0 & c0 & Hw0).
      destruct (walk_bound X b cost prev [] Float.infinity p0 dest c0 Hinv) as [Hbad|Hle];
        [|exact Hw0| |].
      - intros c v Hq. apply elem_of_nil in Hq. destruct Hq.
      - apply (ig_settled g source dest _ _ _ _ _ _ Hinv dest Hbad). reflexivity.
      - apply leb_not_ltb in Hle.
        rewrite (wf_bounded g source Hwf _ _ _ Hw0) in Hle. discriminate. }
  pose proof (pq_pop_length _ _ _ Hpop) as Hlen.
  destruct (decide (u = dest)) as [->|Hud].
  { exists cost, prev, pq'. split; [reflexivity|].
    exact (found_at_dest X b cost prev pq c pq' Hinv Hpop). }
  destruct (Float.ltb (cost_at cost u) c) eqn:Hstale.
  { apply (IH X b); [|lia|exact Hreach].
    exact (skip_inv X b cost prev pq c u pq' Hinv Hpop Hstale). }
  destruct (settle_inv X b cost prev pq c u pq' Hinv Hpop Hud Hstale)
    as (HuX & Hcu & Hinv1).
  assert (HuX' : u ∈ X ∪ {[u]}).
  { apply elem_of_union. right. apply elem_of_singleton. reflexivity. }
  destruct (g !! u) as [nbrs|] eqn:Hgu.
  - destruct (relax_fold_inv (X ∪ {[u]}) c u (map_to_list nbrs) HuX') with
      (R := λ (x _ : string), x ∈ X) (cost := cost) (prev := prev) (pq := pq')
      as (cost2 & prev2 & pq2 & E2 & Hinv2 & Hlen2).
    { intros v link Hv. apply elem_of_map_to_list in Hv. exists nbrs. split; assumption. }
    { exact Hinv1. }
    { rewrite Hcu. apply leb_refl. }
    rewrite E2. apply (IH (X ∪ {[u]}) c); [| |exact Hreach].
    + apply (inv_gen_weaken _ _ _ _ _ _ _ Hinv2).
      * intros x y link Hx He. apply elem_of_union in Hx as [Hx|Hx]; [left; exact Hx|].
        apply elem_of_singleton in Hx. subst x. right. split; [reflexivity|].
        destruct He as (n & Hn & Hy). assert (n = nbrs) by congruence. subst n.
        apply list_elem_of_fmap. exists (y, link). split; [reflexivity|].
        apply elem_of_map_to_list, Hy.
      * intros x y Hx. exact Hx.
    + pose proof (weight_settle X u nbrs Hgu HuX) as Hw.
      rewrite length_map_to_list in Hlen2. lia.
  - apply (IH (X ∪ {[u]}) c); [| |exact Hreach].
    + apply (inv_gen_weaken _ _ _ _ _ _ _ Hinv1).
      * intros x y link Hx He. apply elem_of_union in Hx as [Hx|Hx]; [exact Hx|].
        apply elem_of_singleton in Hx. subst x.
        destruct He as (n & Hn & _). congruence.
      * intros x y Hx. exact Hx.
    + rewrite (weight_settle_none X u Hgu). lia.
Qed.

End Search.

(** *** The state the search starts from *)

Section Start.
Context {F : Float.Ops} {O : Ordered F}.

Lemma infinite_cost_lookup {A} (l : list (string * A)) (acc : gmap string Float.t) v :
  foldl (λ cost e, <[e.1 := Float.infinity]> cost) acc l !! v =
  if decide (v ∈ l.*1) then Some Float.infinity else acc !! v.
Proof.
  revert acc. induction l as [|[k a] l IH]; intros acc; cbn.
  - rewrite decide_False; [reflexivity|]. intros H. apply elem_of_nil in H. exact H.
  - rewrite IH. destruct (decide (v ∈ l.*1)) as [Hin|Hout].
    + rewrite decide_True; [reflexivity|]. right. exact Hin.
    + destruct (decide (k = v)) as [->|Hkv].
      * rewrite lookup_insert_eq, decide_True; [reflexivity|left].
      * rewrite lookup_insert_ne by exact Hkv. rewrite decide_False; [reflexivity|].
        intros H. apply elem_of_cons in H as [H|H]; [congruence|contradiction].
Qed.

Lemma initial_cost_lookup (g : gmap string (gmap string Link)) source v :
  initial_cost g source !! v =
  if decide (source = v) then Some Float.zero
  else if decide (is_Some (g !! v)) then Some Float.infinity else None.
Proof.
  unfold initial_cost. case_decide as Hs.
  - subst. apply lookup_insert_eq.
  - rewrite lookup_insert_ne by exact Hs. rewrite infinite_cost_lookup, lookup_empty.
    destruct (decide (is_Some (g !! v))) as [[n Hn]|Hn].
    + rewrite decide_True; [reflexivity|].
      apply list_elem_of_fmap. exists (v, n). split; [reflexivity|].
      apply elem_of_map_to_list, Hn.
    + rewrite decide_False; [reflexivity|]. intros Hin. apply Hn.
      apply list_elem_of_fmap in Hin as ([k n] & -> & Hin).
      apply elem_of_map_to_list in Hin. eauto.
Qed.

Lemma inv_start g source dest :
  well_formed g source →
  inv g source dest ∅ Float.zero (initial_cost g source) ∅ [(Float.zero, source)].
Proof.
  intros Hwf.
  assert (Hzero : Float.ltb Float.zero Float.infinity = true).
  { apply (wf_bounded g source Hwf [source] source). constructor. }
  assert (Hsrc : initial_cost g source !! source = Some Float.zero).
  { rewrite initial_cost_lookup, decide_True by reflexivity. reflexivity. }
  assert (Hfin : ∀ v c, initial_cost g source !! v = Some c →
                 Float.ltb c Float.infinity = true → v = source ∧ c = Float.zero).
  { intros v c Hv Hc. rewrite initial_cost_lookup in Hv.
    destruct (decide (source = v)) as [->|Hne]; [split; congruence|].
    destruct (decide (is_Some (g !! v))); [|discriminate].
    inversion Hv; subst c. rewrite ltb_irrefl in Hc. discriminate. }
  constructor.
  - exact Hsrc.
  - intros v. rewrite initial_cost_lookup.
    destruct (decide (source = v)) as [->|Hne]; [split; eauto|].
    destruct (decide (is_Some (g !! v))) as [Hs|Hn].
    + split; eauto.
    + split; [intros [x Hx]; discriminate|]. intros [H|H]; [contradiction|congruence].
  - intros v. unfold cost_at. rewrite initial_cost_lookup.
    destruct (decide (source = v)); [apply leb_refl|].
    destruct (decide (is_Some (g !! v))); cbn; [apply infinity_top|apply leb_refl].
  - intros v c Hv Hc. destruct (Hfin v c Hv Hc) as [-> ->].
    exists [source]. split; [constructor|]. split; [constructor|].
    split; [apply NoDup_singleton|].
    intros x Hx. apply list_elem_of_singleton in Hx. left. exact Hx.
  - intros v c Hv Hc _. destruct (Hfin v c Hv Hc) as [-> ->]. left.
  - intros c v Hin. apply list_elem_of_singleton in Hin. inversion Hin; subst.
    split; [exact Hzero|]. split; [eauto|left; exact Hsrc].
  - intros c v _ Hv. apply elem_of_empty in Hv. destruct Hv.
  - apply NoDup_singleton.
  - intros x v link Hx. apply elem_of_empty in Hx. destruct Hx.
  - intros x v Hx. exact Hx.
  - intros u p c Hu. apply elem_of_empty in Hu. destruct Hu.
  - intros u Hu. apply elem_of_empty in Hu. destruct Hu.
  - intros u Hu. apply elem_of_empty in Hu. destruct Hu.
  - intros c v Hin. apply list_elem_of_singleton in Hin. inversion Hin; subst.
    apply leb_refl.
Qed.

Lemma weight_empty (g : gmap string (gmap string Link)) :
  weight g ∅ = sum_list (map (λ e, size e.2) (map_to_list g)).
Proof.
  unfold weight. apply (f_equal sum_list), map_ext. intros e.
  rewrite decide_False; [reflexivity|]. intros H. apply elem_of_empty in H. exact H.
Qed.


End Start.

(** *** Exact arithmetic is ordered *)

Lemma ext_ltb_spec (a b : Float.ext) :
  Float.ext_ltb a b = true ↔
  match a, b with
  | Float.Fin x, Float.Fin y => (x < y)%Q
  | Float.Fin _, Float.Inf => True
  | Float.Inf, _ => False
  end.
Proof.
  destruct a as [x|], b as [y|]; cbn.
  - rewrite negb_true_iff. split.
    + intros H. apply Qnot_le_lt. intros Hle. apply Qle_bool_iff in Hle. congruence.
    + intros H. destruct (Qle_bool y x) eqn:E; [|reflexivity].
      apply Qle_bool_iff in E. apply Qlt_not_le in H. contradiction.
  - split; [intros _; exact I|reflexivity].
  - split; [discriminate|intros []].
  - split; [discriminate|intros []].
Qed.

Lemma ext_leb_spec (a b : Float.ext) :
  @Float.leb Float.exact a b = true ↔
  match a, b with
  | Float.Fin x, Float.Fin y => (x <= y)%Q
  | _, Float.Inf => True
  | Float.Inf, Float.Fin _ => False
  end.
Proof.
  unfold Float.leb. cbn. rewrite negb_true_iff.
  destruct a as [x|], b as [y|]; cbn.
  - rewrite negb_false_iff, Qle_bool_iff. reflexivity.
  - split; [intros _; exact I|reflexivity].
  - split; [discriminate|intros []].
  - split; [intros _; exact I|reflexivity].
Qed.

Global Instance exact_ordered : Ordered Float.exact.
Proof.
  constructor.
  - intros [x|]; cbn; [|reflexivity]. rewrite negb_false_iff. apply Qle_bool_iff, Qle_refl.
  - intros a b c Hab Hbc. apply ext_ltb_spec in Hab, Hbc. apply ext_ltb_spec.
    destruct a, b, c; try tauto. eapply Qlt_trans; eassumption.
  - intros a b c Hab Hbc. apply ext_leb_spec in Hab, Hbc. apply ext_leb_spec.
    destruct a, b, c; try tauto. eapply Qle_trans; eassumption.
  - intros a b w Hab. apply ext_leb_spec in Hab. apply ext_leb_spec.
    destruct a, b, w; cbn; try tauto. apply Qplus_le_compat; [exact Hab|apply Qle_refl].
  - intros a w Hw. apply ext_leb_spec in Hw. apply ext_leb_spec.
    destruct a as [x|], w as [q|]; cbn in *; try tauto.
    unfold inject_Z in Hw. lra.
  - intros a. apply ext_leb_spec. destruct a; exact I.
Qed.
(** *** Checking a graph in exact arithmetic *)

Lemma link_checked g source u v link :
  graph_check g source = true → edge g u v link → link_check g (v, link) = true.
Proof.
  intros Hc (nbrs & Hu & Hv). unfold graph_check in Hc.
  apply andb_true_iff in Hc as [Hc _]. apply andb_true_iff in Hc as [Hc _].
  rewrite forallb_forall in Hc.
  specialize (Hc (u, nbrs)). cbn in Hc. rewrite forallb_forall in Hc.
  apply Hc.
  - apply list_elem_of_In, elem_of_map_to_list, Hu.
  - apply list_elem_of_In, elem_of_map_to_list, Hv.
Qed.

Lemma exact_well_formed g source :
  graph_check g source = true → well_formed (F := Float.exact) g source.
Proof.
  intros Hc.
  assert (Hl : ∀ u v link, edge g u v link →
            is_Some (g !! v) ∧ @Float.leb Float.exact Float.zero (edge_cost link) = true ∧
            is_finite (edge_cost link) = true).
  { intros u v link He. pose proof (link_checked g source u v link Hc He) as H.
    unfold link_check in H. apply andb_true_iff in H as [H H3].
    apply andb_true_iff in H as [H1 H2]. apply bool_decide_eq_true in H1. auto. }
  unfold graph_check in Hc. apply andb_true_iff in Hc as [Hc Hs].
  apply andb_true_iff in Hc as [_ Hn].
  apply bool_decide_eq_true in Hs, Hn.
  constructor; [|exact Hn|exact Hs| |].
  - intros u v link He. apply (Hl u v link He).
  - intros u v link He. apply (Hl u v link He).
  - intros p v c Hw.
    assert (Hfin : is_finite c = true).
    { induction Hw as [|p u c v link Hw IH He]; [reflexivity|].
      destruct (Hl u v link He) as (_ & _ & Hf).
      destruct c as [c|]; [|discriminate].
      destruct (edge_cost link); [reflexivity|discriminate]. }
    destruct c; [reflexivity|discriminate].
Qed.

(** In exact arithmetic a link within the ranges of the data model
    (latency at least 0, quality between 0 and 1) has a cost that is not
    negative. *)
Lemma exact_edge_cost_nonneg (link : @Link Float.exact) :
  Float.leb Float.zero (latency_ms link) = true →
  Float.leb Float.zero (quality link) = true →
  Float.leb (quality link) Float.one = true →
  Float.leb Float.zero (edge_cost link) = true.
Proof.
  intros Hl Hq0 Hq1. apply ext_leb_spec in Hl, Hq0, Hq1. apply ext_leb_spec.
  unfold edge_cost. cbn in *.
  destruct (latency_ms link) as [l|], (quality link) as [q|]; cbn in *; try exact I.
  unfold inject_Z in *. lra.
Qed.

Lemma edge_lookup {F : Float.Ops} (g : gmap string (gmap string Link)) u v link :
  (g !! u ≫= λ nbrs, nbrs !! v) = Some link → edge g u v link.
Proof.
  intros H. destruct (g !! u) as [nbrs|] eqn:E; [|discriminate].
  exists nbrs. split; [exact E|exact H].
Qed.


(** The route that the search finds on the triangle, in binary32. *)
Lemma find_route_triangle :
  match find_route 20 "A" "C" (triangle (F := Float.binary32)) with
  | Returns (route, _) =>
      path route = ["A"; "B"; "C"] ∧
      total_latency_ms route = Float.of_Z 20 ∧
      quality_score route = Float.of_Z 1
  | _ => False
  end.
Proof. vm_compute. repeat split; reflexivity. Qed.


(** *** Links in both directions *)

Section Edits.
Context {F : Float.Ops}.

Lemma edge_link_at g u v l : edge g u v l ↔ link_at g u v = Some l.
Proof.
  unfold edge, link_at. split.
  - intros (nbrs & -> & Hv). exact Hv.
  - intros H. destruct (g !! u) as [nbrs|]; [|discriminate]. exists nbrs. auto.
Qed.

Lemma link_at_set_link a b link g u v :
  link_at (set_link a b link g) u v =
  if decide (u = a ∧ v = b) then Some link else link_at g u v.
Proof.
  unfold link_at, set_link. destruct (decide (a = u)) as [->|Hau].
  - rewrite lookup_insert_eq. cbn. destruct (decide (b = v)) as [->|Hbv].
    + rewrite lookup_insert_eq, decide_True by auto. reflexivity.
    + rewrite lookup_insert_ne by exact Hbv. rewrite decide_False by (intros [_ ?]; congruence).
      destruct (g !! u); [reflexivity|apply lookup_empty].
  - rewrite lookup_insert_ne by exact Hau.
    rewrite decide_False by (intros [? _]; congruence). reflexivity.
Qed.

Lemma link_at_erase_link a b g u v :
  link_at (erase_link a b g) u v =
  if decide (u = a ∧ v = b) then None else link_at g u v.
Proof.
  unfold link_at, erase_link. destruct (g !! a) as [n|] eqn:Ea.
  - destruct (decide (a = u)) as [->|Hau].
    + rewrite lookup_insert_eq, Ea. cbn. destruct (decide (b = v)) as [->|Hbv].
      * rewrite lookup_delete_eq, decide_True by auto. reflexivity.
      * rewrite lookup_delete_ne by exact Hbv.
        rewrite decide_False by (intros [_ ?]; congruence). reflexivity.
    + rewrite lookup_insert_ne by exact Hau.
      rewrite decide_False by (intros [? _]; congruence). reflexivity.
  - case_decide as H; [|reflexivity]. destruct H as [-> _]. rewrite Ea. reflexivity.
Qed.

Lemma link_at_set_quality a b q g u v :
  link_at (set_quality a b q g) u v =
  if decide (u = a ∧ v = b)
  then (λ l, mkLink (from_device l) (to_device l) q (latency_ms l) (bandwidth_mbps l)) <$>
       link_at g a b
  else link_at g u v.
Proof.
  unfold link_at, set_quality. destruct (g !! a) as [n|] eqn:Ea.
  - cbn. destruct (n !! b) as [l0|] eqn:Eb.
    + destruct (decide (a = u)) as [->|Hau].
      * rewrite lookup_insert_eq, Ea. cbn. destruct (decide (b = v)) as [->|Hbv].
        -- rewrite lookup_insert_eq, decide_True by auto. reflexivity.
        -- rewrite lookup_insert_ne by exact Hbv.
           rewrite decide_False by (intros [_ ?]; congruence). reflexivity.
      * rewrite lookup_insert_ne by exact Hau.
        rewrite decide_False by (intros [? _]; congruence). reflexivity.
    + case_decide as H; [|reflexivity]. destruct H as [-> ->]. rewrite Ea. cbn.
      rewrite Eb. reflexivity.
  - case_decide as H; [|reflexivity]. destruct H as [-> _]. rewrite Ea. reflexivity.
Qed.

Lemma alike_refl (l : Link) : alike l l.
Proof. repeat split. Qed.

Lemma bidirectional_add_link from to link r :
  bidirectional (graph_ r) → bidirectional (graph_ (add_link from to link r)).
Proof.
  intros Hb u v l. unfold add_link. cbn [graph_].
  rewrite !link_at_set_link.
  destruct (decide (u = to ∧ v = from)) as [[-> ->]|H1].
  - intros Hl. inversion Hl; subst l. clear Hl.
    destruct (decide (from = to ∧ to = from)) as [[<- _]|H2].
    + eexists. split; [reflexivity|apply alike_refl].
    + rewrite (decide_True (P := from = from ∧ to = to)) by auto.
      eexists. split; [reflexivity|]. repeat split.
  - destruct (decide (u = from ∧ v = to)) as [[-> ->]|H2].
    + intros Hl. inversion Hl; subst l. clear Hl.
      rewrite (decide_True (P := to = to ∧ from = from)) by auto.
      eexists. split; [reflexivity|]. repeat split.
    + intros Hl. destruct (Hb u v l Hl) as (l' & Hl' & Ha).
      rewrite decide_False by (intros [? ?]; apply H2; auto).
      rewrite decide_False by (intros [? ?]; apply H1; auto).
      exists l'. auto.
Qed.

Lemma bidirectional_remove_link from to r :
  bidirectional (graph_ r) → bidirectional (graph_ (remove_link from to r)).
Proof.
  intros Hb u v l. unfold remove_link. cbn [graph_].
  rewrite !link_at_erase_link.
  destruct (decide (u = to ∧ v = from)) as [|H1]; [discriminate|].
  destruct (decide (u = from ∧ v = to)) as [|H2]; [discriminate|].
  intros Hl. destruct (Hb u v l Hl) as (l' & Hl' & Ha).
  rewrite decide_False by (intros [? ?]; apply H2; auto).
  rewrite decide_False by (intros [? ?]; apply H1; auto).
  exists l'. auto.
Qed.

Lemma bidirectional_update_link from to q r :
  bidirectional (graph_ r) → bidirectional (graph_ (update_link from to q r)).
Proof.
  intros Hb u v l. unfold update_link. cbn [graph_].
  rewrite !link_at_set_quality.
  assert (Hself : ∀ a b l0,
            link_at (graph_ r) a b = Some l0 →
            ∃ l1, link_at (graph_ r) b a = Some l1 ∧ alike l0 l1) by (intros; eauto).
  destruct (decide (u = to ∧ v = from)) as [[-> ->]|H1].
  - destruct (decide (to = from ∧ from = to)) as [[-> _]|H2].
    + destruct (link_at (graph_ r) from from) as [l0|] eqn:E0; [|discriminate].
      cbn. intros Hl. inversion Hl; subst l. clear Hl.
      rewrite (decide_True (P := from = from ∧ from = from)) by auto.
      eexists. split; [reflexivity|apply alike_refl].
    + destruct (link_at (graph_ r) to from) as [l0|] eqn:E0; [|discriminate].
      cbn. intros Hl. inversion Hl; subst l. clear Hl.
      destruct (Hself _ _ _ E0) as (l1 & E1 & _ & Hlat & Hbw).
      rewrite (decide_False (P := from = to ∧ to = from)) by (intros [? ?]; apply H2; auto).
      rewrite (decide_True (P := from = from ∧ to = to)) by auto.
      rewrite E1. cbn. eexists. split; [reflexivity|]. repeat split; cbn; congruence.
  - destruct (decide (u = from ∧ v = to)) as [[-> ->]|H2].
    + destruct (link_at (graph_ r) from to) as [l0|] eqn:E0; [|discriminate].
      cbn. intros Hl. inversion Hl; subst l. clear Hl.
      destruct (Hself _ _ _ E0) as (l1 & E1 & _ & Hlat & Hbw).
      rewrite (decide_True (P := to = to ∧ from = from)) by auto.
      rewrite (decide_False (P := to = from ∧ from = to)) by (intros [? ?]; apply H1; auto).
      rewrite E1. cbn. eexists. split; [reflexivity|]. repeat split; cbn; congruence.
    + intros Hl. destruct (Hb u v l Hl) as (l' & Hl' & Ha).
      rewrite decide_False by (intros [? ?]; apply H2; auto).
      rewrite decide_False by (intros [? ?]; apply H1; auto).
      exists l'. auto.
Qed.

Lemma neighbors_link_at (r : Routing) u v :
  v ∈ get_neighbors u r ↔ is_Some (link_at (graph_ r) u v).
Proof.
  unfold get_neighbors, link_at. destruct (graph_ r !! u) as [nbrs|]; cbn.
  - split.
    + intros H. apply list_elem_of_fmap in H as ([v' l] & -> & H).
      apply elem_of_map_to_list in H. eauto.
    + intros [l Hl]. apply list_elem_of_fmap. exists (v, l).
      split; [reflexivity|apply elem_of_map_to_list, Hl].
  - split; [intros H; apply elem_of_nil in H; destruct H|intros [l Hl]; discriminate].
Qed.

(** X19: links come in pairs. In a router built from a new one by
    [add_link], [update_link] and [remove_link], every link has a link
    in the opposite direction with the same quality, latency and
    bandwidth; so a device is among the neighbours of another exactly
    when that one is among its own, and every neighbour is itself a
    device of the graph. *)
Theorem links_bidirectional (edits : list edit) :
  bidirectional (graph_ (edited edits)) ∧
  closed (graph_ (edited edits)) ∧
  ∀ u v, v ∈ get_neighbors u (edited edits) ↔ u ∈ get_neighbors v (edited edits).
Proof.
  assert (H : bidirectional (graph_ (edited edits)) ∧ closed (graph_ (edited edits))).
  { unfold edited. induction edits as [|e edits IH] using rev_ind.
    - split.
      + intros u v l Hl. unfold link_at in Hl. cbn in Hl. rewrite lookup_empty in Hl.
        discriminate.
      + intros u v l (nbrs & Hu & _). cbn in Hu. rewrite lookup_empty in Hu. discriminate.
    - rewrite foldl_snoc. destruct IH as [Hb Hc]. destruct e as [a b l|a b q|a b]; cbn.
      + split; [apply bidirectional_add_link, Hb|apply closed_add_link, Hc].
      + split; [apply bidirectional_update_link, Hb|apply closed_update_link, Hc].
      + split; [apply bidirectional_remove_link, Hb|apply closed_remove_link, Hc]. }
  destruct H as [Hb Hc]. split; [exact Hb|]. split; [exact Hc|].
  intros u v. rewrite !neighbors_link_at.
  split; intros [l Hl]; destruct (Hb _ _ _ Hl) as (l' & Hl' & _); eauto.
Qed.

(** *** A route from a device to itself *)

(** X20: for a source that is not the empty string, [find_route] from
    the source to itself returns the path of that one device, with
    latency 0, infinite minimum bandwidth and quality 1, and leaves the
    router as it was; this on every graph, whether it holds the device
    or not. *)
Theorem find_route_self (r : Routing) (source : string) (fuel : nat) :
  source ≠ EmptyString → (1 ≤ fuel)%nat →
  find_route fuel source source r =
  Returns (mkRoute [source] Float.zero Float.infinity Float.one, r).
Proof.
  intros Hs Hfuel. destruct fuel as [|fuel]; [lia|].
  unfold find_route, dijkstra. cbn [search pq_pop].
  rewrite decide_True by reflexivity.
  rewrite decide_True by (right; reflexivity).
  cbn [reconstruct]. rewrite decide_False by exact Hs.
  rewrite decide_True by reflexivity. cbn [metrics].
  destruct r; reflexivity.
Qed.

End Edits.

(** *** A destination out of reach *)

Section Unreachable.
Context {F : Float.Ops} {O : Ordered F}.
Variable g : gmap string (gmap string Link).
Variables source dest : string.
Hypothesis Hwf : well_formed g source.
Hypothesis Hun : unreachable g source dest.

Lemma relax_prev_finite u cost prev pq e :
  prev_finite cost prev →
  prev_finite (relax u (cost, prev, pq) e).1.1 (relax u (cost, prev, pq) e).1.2.
Proof.
  intros Hp. destruct e as [v link]. cbn [relax].
  destruct (Float.ltb (Float.add (cost_at cost u) (edge_cost link)) (cost_at cost v)) eqn:Elt;
    [|exact Hp].
  unfold prev_finite. cbn [fst snd]. intros x Hx. destruct (decide (v = x)) as [->|Hvx].
  - rewrite lookup_insert_eq. eexists. split; [reflexivity|].
    exact (ltb_leb_trans _ _ _ Elt (infinity_top _)).
  - rewrite lookup_insert_ne in Hx by exact Hvx. rewrite lookup_insert_ne by exact Hvx.
    exact (Hp x Hx).
Qed.

Lemma relax_fold_prev_finite u l :
  ∀ cost prev pq,
    prev_finite cost prev →
    prev_finite (foldl (relax u) (cost, prev, pq) l).1.1 (foldl (relax u) (cost, prev, pq) l).1.2.
Proof.
  induction l as [|e l IH]; intros cost prev pq Hp; [exact Hp|].
  cbn [foldl]. pose proof (relax_prev_finite u cost prev pq e Hp) as H1.
  destruct (relax u (cost, prev, pq) e) as [[cost1 prev1] pq1]. apply IH, H1.
Qed.

Lemma finite_cost_reached X b cost prev pq c :
  Routing.inv g source dest X b cost prev pq →
  cost !! dest = Some c → Float.ltb c Float.infinity = true → False.
Proof.
  intros Hinv Hc Hfin.
  destruct (ig_label g source dest _ _ _ _ _ _ Hinv dest c Hc Hfin) as (p & Hw & _).
  exact (Hun p c Hw).
Qed.

Lemma search_unreachable fuel :
  ∀ X b cost prev pq,
    Routing.inv g source dest X b cost prev pq → prev_finite cost prev →
    (length pq + Routing.weight g X < fuel)%nat →
    ∃ cost' prev',
      search fuel g dest (cost, prev, pq) = Some (cost', prev', []) ∧ prev' !! dest = None.
Proof.
  induction fuel as [|fuel IH]; intros X b cost prev pq Hinv Hp Hfuel; [lia|].
  cbn [search]. destruct (pq_pop pq) as [[[c u] pq']|] eqn:Hpop.
  2:{ apply pq_pop_None in Hpop. subst pq. exists cost, prev. split; [reflexivity|].
      destruct (prev !! dest) as [x|] eqn:Ex; [|reflexivity]. exfalso.
      destruct (Hp dest ltac:(eauto)) as (cd & Hcd & Hfin).
      exact (finite_cost_reached X b cost prev [] cd Hinv Hcd Hfin). }
  pose proof (pq_pop_length _ _ _ Hpop) as Hlen.
  pose proof (pq_pop_permutation _ _ _ Hpop) as Hperm.
  destruct (decide (u = dest)) as [->|Hud].
  { exfalso. assert (Hin : (c, dest) ∈ pq) by (rewrite Hperm; left).
    destruct (ig_entries g source dest _ _ _ _ _ _ Hinv c dest Hin) as (Hfin & [cd Hcd] & Hc).
    apply (finite_cost_reached X b cost prev pq cd Hinv Hcd).
    destruct Hc as [Hc|Hc]; [congruence|].
    rewrite (cost_at_Some _ _ _ Hcd) in Hc. exact (ltb_trans _ _ _ Hc Hfin). }
  destruct (Float.ltb (cost_at cost u) c) eqn:Hstale.
  { apply (IH X b); [|exact Hp|lia].
    exact (skip_inv g source dest X b cost prev pq c u pq' Hinv Hpop Hstale). }
  destruct (settle_inv g source dest Hwf X b cost prev pq c u pq' Hinv Hpop Hud Hstale)
    as (HuX & Hcu & Hinv1).
  assert (HuX' : u ∈ X ∪ {[u]}).
  { apply elem_of_union. right. apply elem_of_singleton. reflexivity. }
  destruct (g !! u) as [nbrs|] eqn:Hgu.
  - destruct (relax_fold_inv g source dest Hwf (X ∪ {[u]}) c u (map_to_list nbrs) HuX') with
      (R := λ (x _ : string), x ∈ X) (cost := cost) (prev := prev) (pq := pq')
      as (cost2 & prev2 & pq2 & E2 & Hinv2 & Hlen2).
    { intros v link Hv. apply elem_of_map_to_list in Hv. exists nbrs. split; assumption. }
    { exact Hinv1. }
    { rewrite Hcu. apply leb_refl. }
    pose proof (relax_fold_prev_finite u (map_to_list nbrs) cost prev pq' Hp) as Hp2.
    rewrite E2 in Hp2 |- *. cbn [fst snd] in Hp2.
    apply (IH (X ∪ {[u]}) c); [|exact Hp2|].
    + apply (inv_gen_weaken g source dest _ _ _ _ _ _ _ Hinv2).
      * intros x y link Hx He. apply elem_of_union in Hx as [Hx|Hx]; [left; exact Hx|].
        apply elem_of_singleton in Hx. subst x. right. split; [reflexivity|].
        destruct He as (n & Hn & Hy). assert (n = nbrs) by congruence. subst n.
        apply list_elem_of_fmap. exists (y, link). split; [reflexivity|].
        apply elem_of_map_to_list, Hy.
      * intros x y Hx. exact Hx.
    + pose proof (weight_settle g X u nbrs Hgu HuX) as Hw.
      rewrite length_map_to_list in Hlen2. lia.
  - apply (IH (X ∪ {[u]}) c); [|exact Hp|].
    + apply (inv_gen_weaken g source dest _ _ _ _ _ _ _ Hinv1).
      * intros x y link Hx He. apply elem_of_union in Hx as [Hx|Hx]; [exact Hx|].
        apply elem_of_singleton in Hx. subst x.
        destruct He as (n & Hn & _). congruence.
      * intros x y Hx. exact Hx.
    + rewrite (weight_settle_none g X u Hgu). lia.
Qed.

End Unreachable.


Lemma find_route_self_witness :
  find_route 1 "A" "A" (triangle (F := Float.binary32)) =
  Returns (mkRoute ["A"] Float.zero Float.infinity Float.one, triangle).
Proof.
  apply (find_route_self (F := Float.binary32) triangle "A" 1).
  - discriminate.
  - lia.
Defined.


End RoutingSpec.

(** ** Scores and ranking in exact arithmetic *)

Module ScoringSpec.
Import Telemetry Scheduler.

Section Sorting.
Context {F : Float.Ops} {O : Routing.Ordered F}.

Lemma insert_desc_descending (p : string * Float.t) l :
  descending l → descending (insert_desc p l).
Proof.
  unfold descending. intros Hs. induction Hs as [|q l Hs IH Hall]; cbn.
  - repeat constructor.
  - destruct (Float.ltb q.2 p.2) eqn:E.
    + constructor; [constructor; assumption|].
      constructor.
      * destruct (Float.ltb p.2 q.2) eqn:E'; [|reflexivity].
        pose proof (Routing.ltb_trans _ _ _ E E') as H.
        rewrite Routing.ltb_irrefl in H. discriminate.
      * rewrite Forall_forall in Hall |- *. intros x Hx.
        destruct (Float.ltb p.2 x.2) eqn:E'; [|reflexivity].
        pose proof (Routing.ltb_trans _ _ _ E E') as H. rewrite (Hall x Hx) in H. discriminate.
    + constructor; [exact IH|].
      rewrite Forall_forall in Hall |- *. intros x Hx.
      rewrite SchedulerSpec.insert_desc_permutes in Hx.
      apply elem_of_cons in Hx as [->|Hx]; [exact E|exact (Hall x Hx)].
Qed.

Lemma insertion_sort_descending (l : list (string * Float.t)) :
  descending (insertion_sort l).
Proof.
  induction l as [|p l IH]; [constructor|].
  unfold insertion_sort in *. cbn [foldr]. apply insert_desc_descending, IH.
Qed.

End Sorting.

(** Of the idle device on mains and the busy one on battery, one is
    asked for: it is the idle one, and its scores are not below those
    of the busy one. *)
Lemma selection_takes_best_witness :
  (∀ size chunk_hashes placements p,
     place_chunks insertion_sort chunk_hashes size two_devices = Some placements →
     p ∈ placements →
     "fast" ∈ device_ids p → "busy" ∉ device_ids p →
     Float.ltb Float.zero (score_device_for_storage busy_device size) = true →
     Float.ltb (score_device_for_storage fast_device size)
       (score_device_for_storage busy_device size) = false) ∧
  (∀ shard_id size,
     "fast" ∈ device_ids (place_shard insertion_sort shard_id size two_devices) →
     "busy" ∉ device_ids (place_shard insertion_sort shard_id size two_devices) →
     Float.ltb Float.zero (shard_score size ("busy", busy_device)) = true →
     Float.ltb (shard_score size ("fast", fast_device))
       (shard_score size ("busy", busy_device)) = false) ∧
  (∀ count,
     "fast" ∈ get_compute_devices insertion_sort count two_devices →
     "busy" ∉ get_compute_devices insertion_sort count two_devices →
     Float.ltb Float.zero (score_device_for_compute busy_device) = true →
     Float.ltb (score_device_for_compute fast_device)
       (score_device_for_compute busy_device) = false).
Proof.
  apply (SchedulerSpec.selection_takes_best (F := Float.exact) insertion_sort
           SchedulerSpec.insertion_sort_permutes insertion_sort_descending
           two_devices "fast" "busy" fast_device busy_device).
  - reflexivity.
  - reflexivity.
Defined.

(** The list of the one compute device asked for, by evaluation. *)
Lemma compute_devices_two : get_compute_devices insertion_sort 1 two_devices = ["fast"].
Proof. vm_compute. reflexivity. Qed.

(** *** The range of the scores *)

Lemma ratio_at_least_one (a r : Z) :
  0 < r → r ≤ a → (1 <= inject_Z a / inject_Z r)%Q.
Proof.
  intros Hr Ha. apply Qle_shift_div_l.
  - change 0%Q with (inject_Z 0). rewrite <- Zlt_Qlt. exact Hr.
  - rewrite Qmult_1_l. rewrite <- Zle_Qle. exact Ha.
Qed.

Lemma exact_min (a b : Q) :
  @Float.min Float.exact (Float.Fin a) (Float.Fin b) =
  Float.Fin (if Qle_bool a b then a else b).
Proof. unfold Float.min. cbn. destruct (Qle_bool a b); reflexivity. Qed.



Lemma busy_device_documented : documented busy_device.
Proof. unfold documented, between. cbn. unfold inject_Z. repeat split; lra. Qed.



End ScoringSpec.

(** ** ModelShardManager *)

Module ModelShardManagerSpec.
Import ModelShardManager.

Lemma register_lookup (shards : list ModelShard) (acc : gmap string ModelShard) s :
  NoDup (map shard_id shards) → s ∈ shards →
  foldl (λ acc shard, <[shard_id shard := shard]> acc) acc shards !! shard_id s = Some s.
Proof.
  revert acc. induction shards as [|x shards IH]; intros acc Hnd Hs.
  - apply elem_of_nil in Hs. destruct Hs.
  - cbn in Hnd. apply NoDup_cons in Hnd as [Hx Hnd]. cbn [foldl].
    apply elem_of_cons in Hs as [->|Hs]; [|apply IH; assumption].
    clear IH. revert acc. induction shards as [|y shards IH]; intros acc.
    + cbn. apply lookup_insert_eq.
    + cbn [foldl]. cbn in Hx, Hnd. apply NoDup_cons in Hnd as [_ Hnd].
      apply not_elem_of_cons in Hx as [Hxy Hx].
      rewrite insert_insert_ne by congruence. apply IH; assumption.
Qed.

Lemma register_lookup_other (shards : list ModelShard) (acc : gmap string ModelShard) id :
  id ∉ map shard_id shards →
  foldl (λ acc shard, <[shard_id shard := shard]> acc) acc shards !! id = acc !! id.
Proof.
  revert acc. induction shards as [|x shards IH]; intros acc Hid; [reflexivity|].
  cbn in Hid. apply not_elem_of_cons in Hid as [Hne Hid]. cbn [foldl].
  rewrite IH by exact Hid. apply lookup_insert_ne. congruence.
Qed.

(** X22: after [register_model] with shards of pairwise distinct ids,
    [get_model_shards] returns these shards, in the order given, and
    [get_shard] finds each under its id; the shards under other ids are
    left as they were. *)
Theorem register_model_shards (name : string) (shards : list ModelShard) (m : Manager) :
  NoDup (map shard_id shards) →
  get_model_shards name (register_model name shards m) = shards ∧
  (∀ s, s ∈ shards → get_shard (shard_id s) (register_model name shards m) = Some s) ∧
  (∀ id, id ∉ map shard_id shards →
     get_shard id (register_model name shards m) = get_shard id m).
Proof.
  intros Hnd.
  assert (Hget : ∀ s, s ∈ shards →
            get_shard (shard_id s) (register_model name shards m) = Some s).
  { intros s Hs. apply register_lookup; assumption. }
  split; [|split; [exact Hget|]].
  - unfold get_model_shards. cbn [register_model model_shards_].
    rewrite lookup_insert_eq.
    assert (H : ∀ l, (∀ s, s ∈ l → s ∈ shards) →
              omap (λ id, get_shard id (register_model name shards m)) (map shard_id l) = l).
    { induction l as [|s l IH]; intros Hl; [reflexivity|].
      cbn. rewrite Hget by (apply Hl; left). cbn. rewrite IH; [reflexivity|].
      intros x Hx. apply Hl. right. exact Hx. }
    apply H. auto.
  - intros id Hid. apply register_lookup_other, Hid.
Qed.

(** *** The inference path *)

Lemma assign_spec (shards : list ModelShard) :
  ∀ path,
    match assign shards path with
    | Path path' =>
        Forall2 (λ shard step, step_of shard = Some step) shards (drop (length path) path') ∧
        take (length path) path' = path
    | NoDevice id =>
        ∃ before shard after,
          shards = before ++ shard :: after ∧ shard_id shard = id ∧
          device_ids shard = [] ∧ Forall (λ s, device_ids s ≠ []) before
    end.
Proof.
  induction shards as [|s shards IH]; intros path.
  - cbn. rewrite drop_all, take_ge by lia. split; [constructor|reflexivity].
  - cbn [assign]. destruct (device_ids s) as [|d ds] eqn:Ed.
    + exists [], s, shards. repeat split; [exact Ed|constructor].
    + specialize (IH (path ++ [(shard_id s, d)])).
      destruct (assign shards (path ++ [(shard_id s, d)])) as [path'|id].
      * destruct IH as [Hall Htake]. rewrite length_app in Hall, Htake. cbn in Hall, Htake.
        assert (Hpre : path' = path ++ (shard_id s, d) :: drop (length path + 1) path').
        { rewrite <- (take_drop (length path + 1) path') at 1. rewrite Htake.
          rewrite <- app_assoc. reflexivity. }
        split.
        -- rewrite Hpre at 1. rewrite drop_app_length. constructor; [|exact Hall].
           unfold step_of. rewrite Ed. reflexivity.
        -- rewrite Hpre. rewrite take_app_length. reflexivity.
      * destruct IH as (before & shard & after & -> & Hid & Hd & Hb).
        exists (s :: before), shard, after. repeat split; try assumption.
        constructor; [rewrite Ed; discriminate|exact Hb].
Qed.

Section WithSort.
Variable std_sort : list ModelShard → list ModelShard.
Hypothesis shard_sort_permutes : ∀ l, std_sort l ≡ₚ l.
Hypothesis shard_sort_by_layer : ∀ l, by_layer (std_sort l).

(** X23: [plan_inference_path] returns one step per shard of the model,
    in an order in which no shard follows a shard of a later start
    layer, each step naming the shard and the first of its devices; or,
    when some shard of the model has no device, it throws for such a
    shard, one before which, in that order, every shard has a device.
    Sorting is assumed to permute and to leave the shards in the order
    of the comparator. *)
Theorem plan_inference_path_spec (name : string) (m : Manager) :
  match plan_inference_path std_sort name m with
  | Path path =>
      ∃ sorted,
        sorted ≡ₚ get_model_shards name m ∧ by_layer sorted ∧
        Forall2 (λ shard step, step_of shard = Some step) sorted path
  | NoDevice id =>
      ∃ shard,
        shard ∈ get_model_shards name m ∧ shard_id shard = id ∧ device_ids shard = [] ∧
        ∀ s, s ∈ get_model_shards name m → layer_start s < layer_start shard →
          device_ids s ≠ []
  end.
Proof.
  unfold plan_inference_path.
  pose proof (assign_spec (std_sort (get_model_shards name m)) []) as H.
  pose proof (shard_sort_by_layer (get_model_shards name m)) as Hs.
  destruct (assign (std_sort (get_model_shards name m)) []) as [path|id].
  - destruct H as [Hall _]. cbn in Hall.
    exists (std_sort (get_model_shards name m)).
    split; [apply shard_sort_permutes|]. split; [exact Hs|exact Hall].
  - destruct H as (before & shard & after & Hsplit & Hid & Hd & Hb).
    exists shard. split; [|split; [exact Hid|split; [exact Hd|]]].
    + rewrite <- (shard_sort_permutes (get_model_shards name m)), Hsplit.
      apply elem_of_app. right. left.
    + intros s Hin Hlt. rewrite <- (shard_sort_permutes (get_model_shards name m)) in Hin.
      rewrite Hsplit in Hin, Hs. unfold by_layer in Hs.
      apply elem_of_app in Hin as [Hin|Hin].
      * rewrite Forall_forall in Hb. exact (Hb s Hin).
      * exfalso. apply StronglySorted_app_1_r in Hs.
        apply elem_of_cons in Hin as [->|Hin]; [lia|].
        apply StronglySorted_cons in Hs as [Hall _].
        rewrite Forall_forall in Hall. specialize (Hall s Hin). lia.
Qed.

End WithSort.

Lemma insert_by_layer_permutes s l : insert_by_layer s l ≡ₚ s :: l.
Proof.
  induction l as [|x l IH]; cbn; [reflexivity|].
  destruct (layer_start s <? layer_start x); [reflexivity|].
  rewrite IH. apply Permutation_swap.
Qed.

Lemma sort_by_layer_permutes l : sort_by_layer l ≡ₚ l.
Proof.
  induction l as [|s l IH]; [reflexivity|].
  unfold sort_by_layer in *. cbn [foldr]. rewrite insert_by_layer_permutes, IH. reflexivity.
Qed.

Lemma insert_by_layer_sorted s l : by_layer l → by_layer (insert_by_layer s l).
Proof.
  unfold by_layer. intros Hs. induction Hs as [|x l Hs IH Hall]; cbn.
  - repeat constructor.
  - destruct (Z.ltb_spec (layer_start s) (layer_start x)) as [Hlt|Hge].
    + constructor; [constructor; assumption|].
      constructor; [lia|]. rewrite Forall_forall in Hall |- *.
      intros y Hy. specialize (Hall y Hy). lia.
    + constructor; [exact IH|]. rewrite Forall_forall in Hall |- *.
      intros y Hy. rewrite insert_by_layer_permutes in Hy.
      apply elem_of_cons in Hy as [->|Hy]; [lia|exact (Hall y Hy)].
Qed.

Lemma sort_by_layer_sorted l : by_layer (sort_by_layer l).
Proof.
  induction l as [|s l IH]; [constructor|].
  unfold sort_by_layer in *. cbn [foldr]. apply insert_by_layer_sorted, IH.
Qed.

Lemma register_model_shards_witness :
  get_model_shards "m" (register_model "m" [upper_shard; lower_shard] new) =
    [upper_shard; lower_shard] ∧
  (∀ s, s ∈ [upper_shard; lower_shard] →
     get_shard (shard_id s) (register_model "m" [upper_shard; lower_shard] new) = Some s) ∧
  (∀ id, id ∉ map shard_id [upper_shard; lower_shard] →
     get_shard id (register_model "m" [upper_shard; lower_shard] new) = get_shard id new).
Proof.
  apply (register_model_shards "m" [upper_shard; lower_shard] new).
  apply NoDup_cons. split; [|apply NoDup_singleton].
  intros H. apply list_elem_of_singleton in H. discriminate.
Defined.

Lemma plan_inference_path_spec_witness :
  match
    plan_inference_path sort_by_layer "m" (register_model "m" [upper_shard; lower_shard] new)
  with
  | Path path =>
      ∃ sorted,
        sorted ≡ₚ get_model_shards "m" (register_model "m" [upper_shard; lower_shard] new) ∧
        by_layer sorted ∧
        Forall2 (λ shard step, step_of shard = Some step) sorted path
  | NoDevice id =>
      ∃ shard,
        shard ∈ get_model_shards "m" (register_model "m" [upper_shard; lower_shard] new) ∧
        shard_id shard = id ∧ device_ids shard = [] ∧
        ∀ s, s ∈ get_model_shards "m" (register_model "m" [upper_shard; lower_shard] new) →
          layer_start s < layer_start shard → device_ids s ≠ []
  end.
Proof.
  apply (plan_inference_path_spec sort_by_layer sort_by_layer_permutes sort_by_layer_sorted
           "m" (register_model "m" [upper_shard; lower_shard] new)).
Defined.

(** The plan for the two shards, by evaluation: the lower layers first. *)
Lemma plan_two_shards :
  plan_inference_path sort_by_layer "m" (register_model "m" [upper_shard; lower_shard] new) =
  Path [("s1", "d1"); ("s2", "d2")].
Proof. vm_compute. reflexivity. Qed.

End ModelShardManagerSpec.
